(** * InviFinder: the fetch-merge-price pipeline of [fetch.js]

    A shallow embedding of the card-tracker refresher script.  The script is
    JavaScript, so the development starts with the fragment of the
    language's dynamic semantics the script relies on (truthiness, optional
    chaining, [||], [??], [===], [+]), then follows the script function by
    function: [httpGet], [fetchViaCF], [fetchPrice], [fetchDeck],
    [fetchCollection], [parseMoxfieldUrl] and [main].

    The repository holds two revisions of the script.  This development
    follows the later one, which merges per printing and fetches prices;
    [httpGet] and [parseMoxfieldUrl] are the same in both.  The readers
    and the [main] of the earlier revision are in the module [Legacy].

    Conventions.
    - Strings are byte strings (the UTF-8 encoding of the script's strings).
    - The numbers of the documents are integers.  [VNum z] is the double
      with the integer value [z]: sums are rounded as IEEE 754 rounds them,
      which leaves the integers of magnitude up to 2^53 exact, and
      [VNum infinity] and [VNum (- infinity)] are the two infinities.  The
      script's own counters (requests, pages, cards, prices) stay far below
      2^53 and are exact integers.
    - A JavaScript object used as a dictionary is the list of its own
      properties in the order [Object.keys], [Object.values],
      [Object.entries] and [JSON.stringify] enumerate them: the keys that
      are array indices first, in ascending order, then the other keys in
      insertion order.  Reading [obj[k]] also finds the members the object
      inherits from [Object.prototype]; see [obj_get].
    - The configuration is read as its schema types it: owners, URLs and
      secret names are strings.
    - The built-in functions whose result depends on Unicode tables or on a
      parser ([toLowerCase], [trim], [encodeURIComponent], [JSON.parse],
      the conversion of strings to numbers) are parameters: the class
      [Host].  Every property below holds for every host.
    - Asynchronous code is sequential here: every [await] in the script is
      awaited before the next statement runs, so a computation is a function
      from the number of HTTP requests issued so far to an outcome, the new
      request count and the events (requests, sleeps, log lines) it emitted.
      The network is a parameter too: a function from the request number
      and the URL to the response. *)

From Stdlib Require Import ZArith String Ascii List Bool Lia DecimalString
  Sorted.
From stdpp Require Import base list strings gmap.

Open Scope string_scope.
Open Scope list_scope.
Open Scope Z_scope.

Set Warnings "-register-all".

(** * Source URL classifier: [parseMoxfieldUrl] *)

Module Classifier.

(** The character class [[A-Za-z0-9_\-]]. *)
Definition is_token_char (c : ascii) : bool :=
  let n := N_of_ascii c in
  ((65 <=? n) && (n <=? 90) || (97 <=? n) && (n <=? 122)
   || (48 <=? n) && (n <=? 57) || (n =? 95) || (n =? 45))%N.

(** The greedy group [([A-Za-z0-9_\-]+)]: the longest run of token
    characters at the head of [s] (empty when there is none). *)
Fixpoint take_token (s : string) : string :=
  match s with
  | String c s' => if is_token_char c then String c (take_token s') else ""
  | EmptyString => ""
  end.

(** [strip_prefix p s = Some rest] when [s] is [p] followed by [rest]. *)
Fixpoint strip_prefix (p s : string) : option string :=
  match p, s with
  | EmptyString, _ => Some s
  | String a p', String b s' =>
      if Ascii.eqb a b then strip_prefix p' s' else None
  | String _ _, EmptyString => None
  end.

(** The regular expression [lit([A-Za-z0-9_\-]+)] tried at the head of [s]. *)
Definition match_here (lit s : string) : option string :=
  match strip_prefix lit s with
  | Some rest =>
      match take_token rest with
      | EmptyString => None
      | tok => Some tok
      end
  | None => None
  end.

(** [url.match(/lit([A-Za-z0-9_\-]+)/)]: the leftmost position where the
    expression matches; the result is capture group 1. *)
Fixpoint regex_match (lit s : string) : option string :=
  match match_here lit s with
  | Some tok => Some tok
  | None =>
      match s with
      | String _ s' => regex_match lit s'
      | EmptyString => None
      end
  end.

Inductive RefKind := deck | collection.

Record ParsedReference := { type : RefKind; id : string }.

Definition parseMoxfieldUrl (url : string) : option ParsedReference :=
  match regex_match "/decks/" url with
  | Some m => Some {| type := deck; id := m |}
  | None =>
      match regex_match "/collection/" url with
      | Some m => Some {| type := collection; id := m |}
      | None => None
      end
  end.

(** ** The classification rule as the specification words it *)

Fixpoint all_token (s : string) : bool :=
  match s with
  | String c s' => is_token_char c && all_token s'
  | EmptyString => true
  end.

(** [post] does not continue the token. *)
Definition token_ends (post : string) : Prop :=
  match post with
  | String c _ => is_token_char c = false
  | EmptyString => True
  end.

(** [url] contains [lit<token>] for some non-empty token. *)
Definition has_segment (lit url : string) : Prop :=
  ∃ pre tok post,
    url = pre +:+ lit +:+ tok +:+ post ∧ tok ≠ "" ∧ all_token tok = true.

(** [tok] is the whole token of the leftmost occurrence of [lit<token>]. *)
Definition first_segment (lit url tok : string) : Prop :=
  ∃ pre post,
    url = pre +:+ lit +:+ tok +:+ post ∧ tok ≠ "" ∧ all_token tok = true
    ∧ token_ends post
    ∧ ∀ pre' tok' post',
        url = pre' +:+ lit +:+ tok' +:+ post' → tok' ≠ "" →
        all_token tok' = true → (String.length pre <= String.length pre')%nat.

End Classifier.

(** * The fragment of JavaScript the script uses *)

Module JS.

Inductive Value :=
| VUndefined
| VNull
| VBool (b : bool)
| VNum (z : Z)
| VNaN
| VStr (s : string)
| VArr (items : list Value)
| VObj (props : list (string * Value)).

(** ToBoolean: what [if (v)], [!v] and [v || w] test. *)
Definition truthy (v : Value) : bool :=
  match v with
  | VUndefined | VNull | VNaN => false
  | VBool b => b
  | VNum z => negb (z =? 0)
  | VStr s => negb (String.eqb s "")
  | VArr _ | VObj _ => true
  end.

Definition nullish (v : Value) : bool :=
  match v with
  | VUndefined | VNull => true
  | _ => false
  end.

(** [a || b] *)
Definition or (a b : Value) : Value := if truthy a then a else b.

(** [a ?? b] *)
Definition coalesce (a b : Value) : Value := if nullish a then b else a.

(** Own-property lookup in a parsed document, whose properties are listed
    in enumeration order; a missing property reads as [undefined]. *)
Fixpoint lookup (k : string) (props : list (string * Value)) : Value :=
  match props with
  | [] => VUndefined
  | (k', v) :: props' => if String.eqb k k' then v else lookup k props'
  end.

(** [v?.k], for the property names the script reads ([quantity], [card],
    [set], [setName], [cn], [finishes], [scryfall_id], [scryfallId],
    [prices], [usd_foil], [usd], [name], [totalPages], [data] and the deck
    section names): none of them is defined on arrays, strings, numbers or
    booleans, so only objects can answer. *)
Definition get_opt (v : Value) (k : string) : Value :=
  match v with
  | VObj props => lookup k props
  | _ => VUndefined
  end.

(** [a === b].  Two objects or arrays are equal only when they are the same
    reference; the values the script compares come from different nodes of
    parsed documents, so they never are.  [NaN === NaN] is false. *)
Definition strict_eq (a b : Value) : bool :=
  match a, b with
  | VUndefined, VUndefined | VNull, VNull => true
  | VBool x, VBool y => Bool.eqb x y
  | VNum x, VNum y => x =? y
  | VStr x, VStr y => String.eqb x y
  | _, _ => false
  end.

(** ** Numbers *)

Definition two53 : Z := 9007199254740992.

(** The integer that stands for the infinite double. *)
Definition infinity : Z := 2 ^ 1024.

Definition is_infinity (z : Z) : bool := infinity <=? Z.abs z.

(** The distance between neighbouring doubles around an integer of
    magnitude [a] above 2^53. *)
Definition ulp (a : Z) : Z := 2 ^ (Z.log2 a - 52).

(** The double nearest to an integer, ties to the even significand, and
    the infinity from 2^1024 - 2^970 on. *)
Definition round_double (z : Z) : Z :=
  let a := Z.abs z in
  if a <=? two53 then z
  else
    let gap := ulp a in
    let q := a / gap in
    let r := a mod gap in
    let q' := if 2 * r <? gap then q
              else if gap <? 2 * r then q + 1
              else if Z.even q then q else q + 1 in
    Z.sgn z * Z.min (q' * gap) infinity.

Definition decimal (z : Z) : string := NilZero.string_of_int (Z.to_int z).

(** [v] lies in the interval of the reals that round to the double [a]. *)
Definition reads_as (a v : Z) : bool :=
  let gap := ulp a in
  let below := if a =? 2 ^ Z.log2 a then gap / 2 else gap in
  if Z.even (a / gap)
  then (2 * a - below <=? 2 * v) && (2 * v <=? 2 * a + gap)
  else (2 * a - below <? 2 * v) && (2 * v <? 2 * a + gap).

(** The number with [k] significant digits that reads as [a], if there is
    one: the nearer of the two around [a], the even one on a tie. *)
Definition candidate (a k : Z) : option Z :=
  let p := 10 ^ (Z.of_nat (String.length (decimal a)) - k) in
  let lo := a / p * p in
  let hi := lo + p in
  match reads_as a lo, reads_as a hi with
  | true, true =>
      Some (if a - lo <? hi - a then lo
            else if hi - a <? a - lo then hi
            else if Z.even (a / p) then lo else hi)
  | true, false => Some lo
  | false, true => Some hi
  | false, false => None
  end.

(** The number with the fewest significant digits that reads as [a]. *)
Fixpoint shortest (a : Z) (ks : list Z) : Z :=
  match ks with
  | [] => a
  | k :: ks' =>
      match candidate a k with
      | Some v => v
      | None => shortest a ks'
      end
  end.

Fixpoint strip_zeros (l : list ascii) : list ascii :=
  match l with
  | "0"%char :: l' => strip_zeros l'
  | _ => l
  end.

(** [d.ddde+n] *)
Definition scientific (digits : string) : string :=
  match digits with
  | String d rest =>
      let frac :=
        string_of_list_ascii
          (rev (strip_zeros (rev (list_ascii_of_string rest)))) in
      String d (if String.eqb frac "" then "" else "." +:+ frac)
      +:+ "e+" +:+ decimal (Z.of_nat (String.length rest))
  | EmptyString => ""
  end.

(** Number::toString: the digits of the integer up to 2^53, the shortest
    digits that read back as the same double above, in exponent form from
    10^21 on. *)
Definition number_text (z : Z) : string :=
  if is_infinity z then (if z <? 0 then "-Infinity" else "Infinity")
  else
    let a := Z.abs z in
    let v := if a <=? two53 then a
             else shortest a [1; 2; 3; 4; 5; 6; 7; 8; 9; 10; 11; 12; 13; 14;
                              15; 16; 17] in
    let digits := decimal v in
    (if z <? 0 then "-" else "")
    +:+ (if (String.length digits <=? 21)%nat then digits
         else scientific digits).

(** ToString, as template literals and [+] apply it. *)
Fixpoint ToString (v : Value) : string :=
  match v with
  | VUndefined => "undefined"
  | VNull => "null"
  | VBool true => "true"
  | VBool false => "false"
  | VNum z => number_text z
  | VNaN => "NaN"
  | VStr s => s
  | VArr items =>
      (fix join (l : list Value) : string :=
         match l with
         | [] => ""
         | x :: l' =>
             (if nullish x then "" else ToString x)
             +:+ match l' with [] => "" | _ => "," +:+ join l' end
         end) items
  | VObj _ => "[object Object]"
  end.

(** ToPrimitive: arrays and objects turn into their string form. *)
Definition ToPrimitive (v : Value) : Value :=
  match v with
  | VArr _ | VObj _ => VStr (ToString v)
  | _ => v
  end.

(** ToNumber on the primitives that are no strings ([None] is NaN). *)
Definition number_of_prim (v : Value) : option Z :=
  match v with
  | VNull => Some 0
  | VBool b => Some (if b then 1 else 0)
  | VNum z => Some z
  | _ => None
  end.

(** The sum of two doubles: the exact sum, rounded; an infinity absorbs
    every finite number, and the two infinities add up to NaN. *)
Definition double_add (x y : Z) : Value :=
  if is_infinity x then
    if is_infinity y && negb (Z.sgn x =? Z.sgn y) then VNaN
    else VNum (Z.sgn x * infinity)
  else if is_infinity y then VNum (Z.sgn y * infinity)
  else VNum (round_double (x + y)).

(** [a + b], the operator behind [+=]: string concatenation as soon as one
    operand is a string, the addition of doubles otherwise. *)
Definition plus (a b : Value) : Value :=
  let a' := ToPrimitive a in
  let b' := ToPrimitive b in
  match a', b' with
  | VStr _, _ | _, VStr _ => VStr (ToString a' +:+ ToString b')
  | _, _ =>
      match number_of_prim a', number_of_prim b' with
      | Some x, Some y => double_add x y
      | _, _ => VNaN
      end
  end.

(** [s.includes(needle)] on strings. *)
Fixpoint str_includes (needle s : string) : bool :=
  String.prefix needle s
  || match s with
     | String _ s' => str_includes needle s'
     | EmptyString => false
     end.

(** [typeof v === 'object'] *)
Definition typeof_object (v : Value) : bool :=
  match v with
  | VNull | VArr _ | VObj _ => true
  | _ => false
  end.

(** [Object.entries(v)] for a value with [typeof v === 'object'] that is
    not null: the own properties of an object, the indexed elements of an
    array. *)
Definition Object_entries (v : Value) : list (string * Value) :=
  match v with
  | VObj props => props
  | VArr items =>
      imap (λ i x, (NilZero.string_of_uint (Nat.to_uint i), x)) items
  | _ => []
  end.

(** The result of a division of two integers: JavaScript numbers are
    floating point, so a zero denominator yields [NaN] or an infinity
    instead of an exception. *)
Inductive Quotient :=
| QNaN
| QInfinity (negative : bool)
| QRatio (num den : Z).

Definition div (a b : Z) : Quotient :=
  if b =? 0 then (if a =? 0 then QNaN else QInfinity (a <? 0))
  else QRatio a b.

Definition times (q : Quotient) (k : Z) : Quotient :=
  match q with
  | QRatio n d => QRatio (n * k) d
  | QInfinity s => if k =? 0 then QNaN else QInfinity (xorb s (k <? 0))
  | QNaN => QNaN
  end.

(** The built-in functions the script calls and this development leaves
    to the host: Unicode case mapping and trimming, percent-encoding, the
    JSON parser and the conversion of strings to numbers ([None] is NaN). *)
Class Host := {
  toLowerCase : string → string;
  trim : string → string;
  encodeURIComponent : string → string;
  JSON_parse : string → option Value;
  StringToNumber : string → option Z;
}.

(** ToNumber, as the relational operators apply it. *)
Definition ToNumber `{Host} (v : Value) : option Z :=
  match ToPrimitive v with
  | VStr s => StringToNumber s
  | p => number_of_prim p
  end.

(** [page <= v] for an integer [page]; false as soon as [v] is NaN. *)
Definition le_value `{Host} (page : Z) (v : Value) : bool :=
  match ToNumber v with
  | Some z => page <=? z
  | None => false
  end.

(** ** JavaScript objects used as dictionaries

    The script's dictionaries are objects created with [{}]: they inherit
    the members of [Object.prototype], and they enumerate their own
    properties with the array indices first. *)

(** The members of [Object.prototype]. *)
Definition proto_members : list string :=
  ["constructor"; "__defineGetter__"; "__defineSetter__"; "hasOwnProperty";
   "__lookupGetter__"; "__lookupSetter__"; "isPrototypeOf";
   "propertyIsEnumerable"; "toString"; "valueOf"; "__proto__";
   "toLocaleString"].

Definition proto_member (k : string) : bool :=
  existsb (String.eqb k) proto_members.

(** The text of an inherited function, as [+] turns it into a string:
    [ownersMap.constructor] is the function [Object], the other members
    are functions of their own name. *)
Definition builtin_text (member : string) : string :=
  "function "
  +:+ (if String.eqb member "constructor" then "Object" else member)
  +:+ "() { [native code] }".

(** The own property [k] of [obj]. *)
Fixpoint own_get {V : Type} (k : string) (obj : list (string * V)) : option V :=
  match obj with
  | [] => None
  | (k', v) :: obj' => if String.eqb k k' then Some v else own_get k obj'
  end.

(** What [obj[k]] finds: an own property, else a member inherited from
    [Object.prototype] (a function, or the prototype itself under
    [__proto__]: truthy, and none of them has a property or a method the
    script asks for), else nothing ([undefined]). *)
Inductive Found (V : Type) :=
| Own (v : V)
| Inherited
| Missing.
Arguments Own {V} v.
Arguments Inherited {V}.
Arguments Missing {V}.

Definition obj_get {V : Type} (k : string) (obj : list (string * V)) : Found V :=
  match own_get k obj with
  | Some v => Own v
  | None => if proto_member k then Inherited else Missing
  end.

(** An array index: the decimal form, without sign or leading zeros, of
    an integer from 0 to 2^32 - 2. *)
Definition array_index (k : string) : option Z :=
  match NilEmpty.uint_of_string k with
  | Some u =>
      let i := Z.of_uint u in
      if String.eqb (decimal i) k && (i <=? 4294967294) then Some i else None
  | None => None
  end.

(** The index [i] is enumerated before the key [k']. *)
Definition goes_before (i : Z) (k' : string) : bool :=
  match array_index k' with
  | Some j => i <? j
  | None => true
  end.

(** A new property whose key is the array index [i]. *)
Fixpoint insert_index {V : Type} (i : Z) (k : string) (v : V)
    (obj : list (string * V)) : list (string * V) :=
  match obj with
  | [] => [(k, v)]
  | (k', v') :: obj' =>
      if goes_before i k' then (k, v) :: obj
      else (k', v') :: insert_index i k v obj'
  end.

(** The new value of an existing property, which keeps its place. *)
Fixpoint replace {V : Type} (k : string) (v : V) (obj : list (string * V))
  : list (string * V) :=
  match obj with
  | [] => []
  | (k', v') :: obj' =>
      if String.eqb k k' then (k, v) :: obj' else (k', v') :: replace k v obj'
  end.

(** [obj[k] = v], for a key other than [__proto__] (assigning to that one
    sets no own property): an existing property keeps its place, a new
    array index goes among the indices, any other new key goes last. *)
Definition obj_set {V : Type} (k : string) (v : V) (obj : list (string * V))
  : list (string * V) :=
  match own_get k obj with
  | Some _ => replace k v obj
  | None =>
      match array_index k with
      | Some i => insert_index i k v obj
      | None => obj ++ [(k, v)]
      end
  end.

(** [Object.values(obj)] *)
Definition Object_values {V : Type} (obj : list (string * V)) : list V :=
  obj.*2.

End JS.

(** * Effects: the network, timers and the console *)

Module Effects.
Import JS.

(** What the server end of one [GET] does: an HTTP response, or a
    transport failure (the request's ['error'] event). *)
Inductive Response :=
| HttpResponse (statusCode : Z) (body : string)
| NetworkError.

(** The values the script throws or rejects with. *)
Inductive Error :=
| TransportError
| RetryExhausted (statusCode : Z)            (* HTTP <status> after all retries *)
| HttpStatus (statusCode : Z) (url : string) (* HTTP <status> for <url> *)
| MalformedResponse (url : string)           (* Bad JSON from <url>: ... *)
| TypeError.                                 (* raised by the runtime itself *)

(** The lines written with [console.log] and [console.error]. *)
Inductive LogLine :=
| LogRetry (statusCode wait : Z)
| LogPriceSkipped (cardName : string)
| LogPrice (cardName : string) (set price : Value)
| LogPriceFailed (cardName : string) (e : Error)
| LogGetDeck (id : string)
| LogDeckDone (cards : nat)
| LogGetPage (page : Z) (totalPages : Value)
| LogCollectionDone (cards : nat)
| LogProcessing (owner : string)
| LogUnparsable (url : string)
| LogFetchFailed (url : string) (e : Error)
| LogPricing
| LogSummary (pricesFetched pricesTotal : nat) (percent : Quotient)
| LogDone (cards owners : nat)
| LogWritten.

Inductive Event :=
| Request (url : string)
| Sleep (ms : Z)
| Log (line : LogLine).

Inductive Outcome (A : Type) :=
| Ok (a : A)
| Throw (e : Error).
Arguments Ok {A} a.
Arguments Throw {A} e.

(** A computation starts when [n] requests have been issued and yields its
    outcome, the new count and the events it emitted, oldest first. *)
Definition M (A : Type) : Type := nat → Outcome A * nat * list Event.

Definition ret {A} (a : A) : M A := λ n, (Ok a, n, []).

Definition throw {A} (e : Error) : M A := λ n, (Throw e, n, []).

Definition bind {A B} (m : M A) (k : A → M B) : M B := λ n,
  match m n with
  | (Ok a, n', t) => let '(r, n'', t') := k a n' in (r, n'', t ++ t')
  | (Throw e, n', t) => (Throw e, n', t)
  end.

(** [try { m } catch (e) { h e }] *)
Definition try_catch {A} (m : M A) (h : Error → M A) : M A := λ n,
  match m n with
  | (Ok a, n', t) => (Ok a, n', t)
  | (Throw e, n', t) => let '(r, n'', t') := h e n' in (r, n'', t ++ t')
  end.

Definition lift {A} (o : Outcome A) : M A := λ n, (o, n, []).

Definition emit (e : Event) : M unit := λ n, (Ok tt, n, [e]).

(** [console.log(...)], [console.error(...)] *)
Definition log (line : LogLine) : M unit := emit (Log line).

(** [await sleep(ms)] *)
Definition sleep (ms : Z) : M unit := emit (Sleep ms).

Declare Scope js_scope.
Delimit Scope js_scope with js.
Notation "x <- m ;; k" := (bind m (λ x, k))
  (at level 100, m at next level, right associativity) : js_scope.
Notation "m ;; k" := (bind m (λ _, k))
  (at level 100, right associativity) : js_scope.

(** [for (const b of l) a = await f(a, b)] *)
Fixpoint foldM {A B} (f : A → B → M A) (a : A) (l : list B) : M A :=
  match l with
  | [] => ret a
  | b :: l' => bind (f a b) (λ a', foldM f a' l')
  end.

(** A loop that updates the elements of [l] in place while it threads an
    accumulator. *)
Fixpoint mapAccumM {S A} (f : S → A → M (S * A)) (s : S) (l : list A)
  : M (S * list A) :=
  match l with
  | [] => ret (s, [])
  | a :: l' =>
      bind (f s a) (λ '(s1, a'),
      bind (mapAccumM f s1 l') (λ '(s2, l''), ret (s2, a' :: l'')))
  end.

(** [v.k]: reading a property of [null] or [undefined] raises. *)
Definition get (v : Value) (k : string) : Outcome Value :=
  if nullish v then Throw TypeError else Ok (get_opt v k).

(** [v.includes('foil')]: an array searches its elements, a string its
    text; no other value has the method. *)
Definition includes_foil (v : Value) : Outcome bool :=
  match v with
  | VArr items => Ok (existsb (strict_eq (VStr "foil")) items)
  | VStr s => Ok (str_includes "foil" s)
  | _ => Throw TypeError
  end.

(** [v.trim()], where only strings have the method. *)
Definition trim_value `{Host} (v : Value) : Outcome string :=
  match v with
  | VStr s => Ok (trim s)
  | _ => Throw TypeError
  end.

End Effects.

(** * The data model *)

Import JS Effects Classifier.

(** One card of a fetched deck or collection, as [fetchDeck] and
    [fetchCollection] build it.  The fields hold whatever the upstream
    document held: the script never checks their types. *)
Module RawCardEntry.
Record t := {
  name : string;
  qty : Value;
  set : Value;
  setName : Value;
  collectorNumber : Value;
  finishes : Value;
  isFoil : bool;
  scryfallId : Value;
}.
End RawCardEntry.

Module Printing.
(** [price] is [null] or the number [parseFloat(src)]. *)
Inductive Price :=
| null
| parseFloat (src : Value).

Record t := {
  qty : Value;
  set : Value;
  setName : Value;
  isFoil : bool;
  collectorNumber : Value;
  scryfallId : Value;
  price : Price;
}.
End Printing.

Module CardAggregate.
Record t := {
  name : string;
  owners : list (string * list Printing.t);
}.
End CardAggregate.

Module Owner.
(** What [process.env[secretKey] || ''] yields: a string, or the member of
    [Object.prototype] that [process.env] inherits under a secret name it
    does not define. *)
Inductive Phone :=
| text (s : string)
| builtin (member : string).

Record t := {
  name : string;
  phone : Phone;
  cardCount : nat;
}.
End Owner.

Coercion Owner.text : string >-> Owner.Phone.

Module Source.
(** An entry of [config.sources]; [urls] and the legacy [url] are optional. *)
Record t := {
  owner : string;
  urls : option (list string);
  url : option string;
}.
End Source.

Module Config.
Record t := {
  sources : list Source.t;
  phoneSecretNames : option (gmap string string);
}.
End Config.

(** The document written to [data/cards.json]. *)
Module Snapshot.
Record t := {
  lastUpdated : string;
  owners : list Owner.t;
  cards : list (string * CardAggregate.t);
}.
End Snapshot.

(** * The script *)

Module Script.

Definition WORKER_URL : string := "https://moxfield-proxy.faguaz.workers.dev/".
Definition MOX_API : string := "https://api2.moxfield.com".

(** The default value of [httpGet]'s [retries] parameter. *)
Definition default_retries : nat := 2.

Section Script.
Context `{Host}.
(** [net n url] is what the [n]-th request of the run receives when it asks
    for [url]. *)
Variable net : nat → string → Response.

Local Open Scope js_scope.

(** [protocol.get(url, ...)]: one request on the wire. *)
Definition http_get (url : string) : M Response :=
  λ n, (Ok (net n url), S n, [Request url]).

Fixpoint httpGet (url : string) (retries : nat) : M Value :=
  res <- http_get url ;;
  match res with
  | NetworkError => throw TransportError
  | HttpResponse statusCode body =>
      if (statusCode =? 429) || (statusCode >=? 500) then
        match retries with
        | S retries' =>
            let wait := if statusCode =? 429 then 5000 else 2000 in
            log (LogRetry statusCode wait) ;;
            sleep wait ;;
            httpGet url retries'
        | O => throw (RetryExhausted statusCode)
        end
      else if negb (statusCode =? 200) then
        throw (HttpStatus statusCode url)
      else
        match JSON_parse body with
        | Some v => ret v
        | None => throw (MalformedResponse url)
        end
  end.

Definition fetchViaCF (targetUrl : string) : M Value :=
  let workerCall := WORKER_URL +:+ "?url=" +:+ encodeURIComponent targetUrl in
  httpGet workerCall default_retries.

Definition fetchPrice (scryfallId set collectorNumber : Value)
    (cardName : string) : M Value :=
  if negb (truthy scryfallId)
     && (negb (truthy set) || negb (truthy collectorNumber)) then
    log (LogPriceSkipped cardName) ;;
    ret VNull
  else
    try_catch
      (let url :=
         if truthy scryfallId then
           "https://api.scryfall.com/cards/" +:+ ToString scryfallId
         else
           "https://api.scryfall.com/cards/" +:+ ToString set +:+ "/"
           +:+ ToString collectorNumber in
       data <- httpGet url default_retries ;;
       prices <- lift (get data "prices") ;;
       let price :=
         or (or (get_opt prices "usd_foil") (get_opt prices "usd")) VNull in
       (if truthy price then log (LogPrice cardName set price) else ret tt) ;;
       sleep 100 ;;
       ret price)
      (λ e, log (LogPriceFailed cardName e) ;; ret VNull).

(** ** Moxfield fetchers *)

Definition sections : list string :=
  ["mainboard"; "sideboard"; "commanders"; "considering"; "maybeboard"].

(** The object literal pushed for one entry of a deck section. *)
Definition deck_entry (name : string) (card : Value) : Outcome RawCardEntry.t :=
  let detail := get_opt card "card" in
  match includes_foil
          (or (or (get_opt detail "finishes") (get_opt card "finishes"))
              (VArr [])) with
  | Throw e => Throw e
  | Ok foil =>
      Ok {| RawCardEntry.name := trim name;
            RawCardEntry.qty := coalesce (get_opt card "quantity") (VNum 1);
            RawCardEntry.set := or (get_opt detail "set") (VStr "unknown");
            RawCardEntry.setName := or (get_opt detail "setName") (VStr "");
            RawCardEntry.collectorNumber := or (get_opt detail "cn") (VStr "");
            RawCardEntry.finishes :=
              or (or (get_opt detail "finishes") (get_opt card "finishes"))
                 (VArr []);
            RawCardEntry.isFoil := foil;
            RawCardEntry.scryfallId :=
              or (or (get_opt detail "scryfall_id") (get_opt detail "scryfallId"))
                 (VStr "") |}
  end.

(** [for (const [name, card] of entries) cards.push({...})] *)
Fixpoint deck_entries (entries : list (string * Value))
    (cards : list RawCardEntry.t) : Outcome (list RawCardEntry.t) :=
  match entries with
  | [] => Ok cards
  | (name, card) :: entries' =>
      match deck_entry name card with
      | Ok c => deck_entries entries' (cards ++ [c])
      | Throw e => Throw e
      end
  end.

(** [for (const sec of sections) { ... }] *)
Fixpoint deck_sections (data : Value) (secs : list string)
    (cards : list RawCardEntry.t) : Outcome (list RawCardEntry.t) :=
  match secs with
  | [] => Ok cards
  | sec :: secs' =>
      match get data sec with
      | Throw e => Throw e
      | Ok obj =>
          if negb (truthy obj) || negb (typeof_object obj) then
            deck_sections data secs' cards
          else
            match deck_entries (Object_entries obj) cards with
            | Ok cards' => deck_sections data secs' cards'
            | Throw e => Throw e
            end
      end
  end.

Definition fetchDeck (id : string) : M (list RawCardEntry.t) :=
  log (LogGetDeck id) ;;
  data <- fetchViaCF (MOX_API +:+ "/v2/decks/all/" +:+ id) ;;
  cards <- lift (deck_sections data sections []) ;;
  log (LogDeckDone (length cards)) ;;
  ret cards.

(** The body of [for (const item of data.data)]: [None] is [continue]. *)
Definition collection_item (item : Value) : Outcome (option RawCardEntry.t) :=
  let card := get_opt item "card" in
  if negb (truthy (get_opt card "name")) then Ok None
  else
    match trim_value (get_opt card "name") with
    | Throw e => Throw e
    | Ok name =>
        match includes_foil (or (get_opt card "finishes") (VArr [])) with
        | Throw e => Throw e
        | Ok foil =>
            Ok (Some
              {| RawCardEntry.name := name;
                 RawCardEntry.qty := coalesce (get_opt item "quantity") (VNum 1);
                 RawCardEntry.set := or (get_opt card "set") (VStr "unknown");
                 RawCardEntry.setName := or (get_opt card "setName") (VStr "");
                 RawCardEntry.collectorNumber := or (get_opt card "cn") (VStr "");
                 RawCardEntry.finishes := or (get_opt card "finishes") (VArr []);
                 RawCardEntry.isFoil := foil;
                 RawCardEntry.scryfallId :=
                   or (or (get_opt card "scryfall_id") (get_opt card "scryfallId"))
                      (VStr "") |})
        end
    end.

Fixpoint collection_items (items : list Value) (allCards : list RawCardEntry.t)
  : Outcome (list RawCardEntry.t) :=
  match items with
  | [] => Ok allCards
  | item :: items' =>
      match collection_item item with
      | Throw e => Throw e
      | Ok None => collection_items items' allCards
      | Ok (Some c) => collection_items items' (allCards ++ [c])
      end
  end.

(** One turn of the [while (page <= totalPages)] loop, entered with the
    loop test already true: fetch the page, read [totalPages] on page 1,
    collect the items, and pause when another page follows. *)
Definition collection_page (id : string) (page : Z) (totalPages : Value)
    (allCards : list RawCardEntry.t) : M (Value * list RawCardEntry.t) :=
  let url := MOX_API +:+ "/v1/collections/search/" +:+ id
             +:+ "?sortType=cardName&sortDirection=ascending&pageNumber="
             +:+ ToString (VNum page) +:+ "&pageSize=50" in
  log (LogGetPage page totalPages) ;;
  data <- fetchViaCF url ;;
  totalPages' <- (if page =? 1 then
                    total <- lift (get data "totalPages") ;;
                    ret (or total (VNum 1))
                  else ret totalPages) ;;
  items <- lift (get data "data") ;;
  allCards' <- lift (match items with
                     | VArr l => collection_items l allCards
                     | _ => Ok allCards
                     end) ;;
  (if le_value (page + 1) totalPages' then sleep 300 else ret tt) ;;
  ret (totalPages', allCards').

(** The turns after the first: [totalPages] no longer changes, so
    [remaining] counts the pages left. *)
Fixpoint collection_rest (remaining : nat) (id : string) (page : Z)
    (totalPages : Value) (allCards : list RawCardEntry.t)
  : M (list RawCardEntry.t) :=
  match remaining with
  | O => ret allCards
  | S remaining' =>
      r <- collection_page id page totalPages allCards ;;
      collection_rest remaining' id (page + 1) (fst r) (snd r)
  end.

(** How many pages follow page 1 when the first response announced
    [totalPages]. *)
Definition pages_after_first (totalPages : Value) : nat :=
  match ToNumber totalPages with
  | Some z => Z.to_nat (z - 1)
  | None => 0%nat
  end.

Definition fetchCollection (id : string) : M (list RawCardEntry.t) :=
  r <- collection_page id 1 (VNum 1) [] ;;
  allCards <- collection_rest (pages_after_first (fst r)) id 2 (fst r) (snd r) ;;
  log (LogCollectionDone (length allCards)) ;;
  ret allCards.

(** ** main: merging the fetched cards *)

Definition OwnersMap : Type := list (string * Owner.t).
Definition CardsMap : Type := list (string * CardAggregate.t).

(** [secretKey ? (process.env[secretKey] || '') : ''], for an owner that
    is no member of [Object.prototype]: the phone comes from the
    environment variable that [config.phoneSecretNames] names for the
    owner.  [env] holds the variables of the environment; [process.env]
    inherits from [Object.prototype] like any object. *)
Definition resolve_phone (config : Config.t) (env : gmap string string)
    (owner : string) : Owner.Phone :=
  match Config.phoneSecretNames config ≫= (λ names, names !! owner) with
  | Some secretKey =>
      if String.eqb secretKey "" then Owner.text ""
      else match env !! secretKey with
           | Some phone => Owner.text phone
           | None =>
               if proto_member secretKey then Owner.builtin secretKey
               else Owner.text ""
           end
  | None => Owner.text ""
  end.

(** [if (!ownersMap[src.owner]) ownersMap[src.owner] = { ... }]: an owner
    named like a member of [Object.prototype] is found there and gets no
    record. *)
Definition ensure_owner (config : Config.t) (env : gmap string string)
    (owner : string) (ownersMap : OwnersMap) : OwnersMap :=
  match obj_get owner ownersMap with
  | Own _ | Inherited => ownersMap
  | Missing =>
      obj_set owner
        {| Owner.name := owner;
           Owner.phone := resolve_phone config env owner;
           Owner.cardCount := 0 |}
        ownersMap
  end.

(** [src.urls ? src.urls : (src.url ? [src.url] : [])] *)
Definition source_urls (src : Source.t) : list string :=
  match Source.urls src with
  | Some urls => urls
  | None =>
      match Source.url src with
      | Some url => if String.eqb url "" then [] else [url]
      | None => []
      end
  end.

(** [ownersMap[owner].cardCount += n].  On an inherited member the sum
    lands on the built-in object and [ownersMap] stays as it is. *)
Definition add_cardCount (owner : string) (n : nat) (ownersMap : OwnersMap)
  : Outcome OwnersMap :=
  match obj_get owner ownersMap with
  | Own o =>
      Ok (obj_set owner
            {| Owner.name := Owner.name o;
               Owner.phone := Owner.phone o;
               Owner.cardCount := Owner.cardCount o + n |}
            ownersMap)
  | Inherited => Ok ownersMap
  | Missing => Throw TypeError
  end.

(** [p.set === card.set && p.isFoil === card.isFoil] *)
Definition same_printing (card : RawCardEntry.t) (p : Printing.t) : bool :=
  strict_eq (Printing.set p) (RawCardEntry.set card)
  && Bool.eqb (Printing.isFoil p) (RawCardEntry.isFoil card).

(** The printing pushed for a card whose set and foil status are new. *)
Definition new_printing (card : RawCardEntry.t) : Printing.t :=
  {| Printing.qty := RawCardEntry.qty card;
     Printing.set := RawCardEntry.set card;
     Printing.setName := RawCardEntry.setName card;
     Printing.isFoil := RawCardEntry.isFoil card;
     Printing.collectorNumber := RawCardEntry.collectorNumber card;
     Printing.scryfallId := RawCardEntry.scryfallId card;
     Printing.price := Printing.null |}.

(** [existingPrinting.qty += card.qty] *)
Definition add_qty (q : Value) (p : Printing.t) : Printing.t :=
  {| Printing.qty := plus (Printing.qty p) q;
     Printing.set := Printing.set p;
     Printing.setName := Printing.setName p;
     Printing.isFoil := Printing.isFoil p;
     Printing.collectorNumber := Printing.collectorNumber p;
     Printing.scryfallId := Printing.scryfallId p;
     Printing.price := Printing.price p |}.

(** The group-by-set-and-foil step on one owner's printings of one card. *)
Definition merge_printing (card : RawCardEntry.t) (printings : list Printing.t)
  : list Printing.t :=
  match list_find (λ p, same_printing card p = true) printings with
  | Some (i, existingPrinting) =>
      <[i := add_qty (RawCardEntry.qty card) existingPrinting]> printings
  | None => printings ++ [new_printing card]
  end.

(** The body of [for (const card of cards)].  Under a key that
    [cardsMap] inherits nothing is created and reading [.owners[...]] of
    the inherited member raises; under an owner that [owners] inherits no
    list is created and the inherited member has no [find] to call. *)
Definition merge_card (owner : string) (cardsMap : CardsMap)
    (card : RawCardEntry.t) : Outcome CardsMap :=
  let key := toLowerCase (RawCardEntry.name card) in
  match obj_get key cardsMap with
  | Inherited => Throw TypeError
  | found =>
      let entry :=
        match found with
        | Own e => e
        | _ => {| CardAggregate.name := RawCardEntry.name card;
                  CardAggregate.owners := [] |}
        end in
      match obj_get owner (CardAggregate.owners entry) with
      | Inherited => Throw TypeError
      | held =>
          let printings :=
            match held with
            | Own ps => ps
            | _ => []
            end in
          Ok (obj_set key
                {| CardAggregate.name := CardAggregate.name entry;
                   CardAggregate.owners :=
                     obj_set owner (merge_printing card printings)
                       (CardAggregate.owners entry) |}
                cardsMap)
      end
  end.

(** [for (const card of cards) { ... }] *)
Fixpoint merge_cards (owner : string) (cardsMap : CardsMap)
    (cards : list RawCardEntry.t) : Outcome CardsMap :=
  match cards with
  | [] => Ok cardsMap
  | card :: cards' =>
      match merge_card owner cardsMap card with
      | Ok cardsMap' => merge_cards owner cardsMap' cards'
      | Throw e => Throw e
      end
  end.

Definition fetch_cards (parsed : ParsedReference) : M (list RawCardEntry.t) :=
  match type parsed with
  | deck => fetchDeck (id parsed)
  | collection => fetchCollection (id parsed)
  end.

(** The body of [for (const url of urls)]; both [continue]s leave the
    accumulators as they are and skip the pause.  The merge loop runs
    outside the [try], so what it raises ends the run. *)
Definition process_url (owner : string) (acc : OwnersMap * CardsMap)
    (url : string) : M (OwnersMap * CardsMap) :=
  match parseMoxfieldUrl url with
  | None => log (LogUnparsable url) ;; ret acc
  | Some parsed =>
      fetched <- try_catch
                   (cards <- fetch_cards parsed ;; ret (Some cards))
                   (λ e, log (LogFetchFailed url e) ;; ret None) ;;
      match fetched with
      | None => ret acc
      | Some cards =>
          ownersMap <- lift (add_cardCount owner (length cards) (fst acc)) ;;
          cardsMap <- lift (merge_cards owner (snd acc) cards) ;;
          sleep 1000 ;;
          ret (ownersMap, cardsMap)
      end
  end.

(** The body of [for (const src of config.sources)]. *)
Definition process_source (config : Config.t) (env : gmap string string)
    (acc : OwnersMap * CardsMap) (src : Source.t) : M (OwnersMap * CardsMap) :=
  log (LogProcessing (Source.owner src)) ;;
  let ownersMap := ensure_owner config env (Source.owner src) (fst acc) in
  foldM (process_url (Source.owner src)) (ownersMap, snd acc) (source_urls src).

(** ** main: the price pass *)

(** [pricesFetched] and [pricesTotal]. *)
Definition Counts : Type := nat * nat.

(** The body of [for (const printing of printings)]. *)
Definition price_printing (cardName : string) (counts : Counts)
    (printing : Printing.t) : M (Counts * Printing.t) :=
  let pricesTotal := S (snd counts) in
  price <- fetchPrice (Printing.scryfallId printing) (Printing.set printing)
             (Printing.collectorNumber printing) cardName ;;
  match price with
  | VNull => ret ((fst counts, pricesTotal), printing)
  | _ =>
      ret ((S (fst counts), pricesTotal),
           {| Printing.qty := Printing.qty printing;
              Printing.set := Printing.set printing;
              Printing.setName := Printing.setName printing;
              Printing.isFoil := Printing.isFoil printing;
              Printing.collectorNumber := Printing.collectorNumber printing;
              Printing.scryfallId := Printing.scryfallId printing;
              Printing.price := Printing.parseFloat price |})
  end.

(** The body of [for (const [ownerName, printings] of ...)]. *)
Definition price_owner (cardName : string) (counts : Counts)
    (entry : string * list Printing.t) : M (Counts * (string * list Printing.t)) :=
  r <- mapAccumM (price_printing cardName) counts (snd entry) ;;
  ret (fst r, (fst entry, snd r)).

(** The body of [for (const [cardKey, cardData] of ...)]. *)
Definition price_card (counts : Counts) (entry : string * CardAggregate.t)
  : M (Counts * (string * CardAggregate.t)) :=
  let cardData := snd entry in
  r <- mapAccumM (price_owner (CardAggregate.name cardData)) counts
         (CardAggregate.owners cardData) ;;
  ret (fst r, (fst entry, {| CardAggregate.name := CardAggregate.name cardData;
                             CardAggregate.owners := snd r |})).

Definition price_pass (cardsMap : CardsMap) : M (Counts * CardsMap) :=
  mapAccumM price_card (0%nat, 0%nat) cardsMap.

(** [(pricesFetched / pricesTotal) * 100], the number the summary line
    prints with [toFixed(1)]. *)
Definition summary_percent (pricesFetched pricesTotal : nat) : Quotient :=
  times (div (Z.of_nat pricesFetched) (Z.of_nat pricesTotal)) 100.

(** [main], from the parsed configuration to the document it writes;
    [now] is [new Date().toISOString()]. *)
Definition main (config : Config.t) (env : gmap string string) (now : string)
  : M Snapshot.t :=
  acc <- foldM (process_source config env) ([], []) (Config.sources config) ;;
  log LogPricing ;;
  priced <- price_pass (snd acc) ;;
  let pricesFetched := fst (fst priced) in
  let pricesTotal := snd (fst priced) in
  log (LogSummary pricesFetched pricesTotal
         (summary_percent pricesFetched pricesTotal)) ;;
  let output := {| Snapshot.lastUpdated := now;
                   Snapshot.owners := Object_values (fst acc);
                   Snapshot.cards := snd priced |} in
  log (LogDone (length (snd priced)) (length (fst acc))) ;;
  log LogWritten ;;
  ret output.

End Script.
End Script.

(** * A host and servers to run the script on *)

Module Demo.

(** Case mapping on the ASCII letters. *)
Definition lower_char (c : ascii) : ascii :=
  let n := N_of_ascii c in
  if ((65 <=? n) && (n <=? 90))%N then ascii_of_N (n + 32) else c.

Fixpoint lower (s : string) : string :=
  match s with
  | String c s' => String (lower_char c) (lower s')
  | EmptyString => ""
  end.

(** Trimming of the ASCII white space. *)
Definition is_space (c : ascii) : bool :=
  let n := N_of_ascii c in ((n =? 32) || (9 <=? n) && (n <=? 13))%N.

Fixpoint trim_left (l : list ascii) : list ascii :=
  match l with
  | c :: l' => if is_space c then trim_left l' else l
  | [] => []
  end.

Definition trim_ascii (s : string) : string :=
  string_of_list_ascii
    (rev (trim_left (rev (trim_left (list_ascii_of_string s))))).

(** Percent-encoding of every byte outside [A-Za-z0-9-_.!~*'()]. *)
Definition hex_digit (n : N) : ascii :=
  if (n <? 10)%N then ascii_of_N (48 + n) else ascii_of_N (55 + n).

Definition unreserved (c : ascii) : bool :=
  let n := N_of_ascii c in
  ((65 <=? n) && (n <=? 90) || (97 <=? n) && (n <=? 122)
   || (48 <=? n) && (n <=? 57)
   || existsb (N.eqb n) [45; 95; 46; 33; 126; 42; 39; 40; 41])%N.

Fixpoint percent_encode (s : string) : string :=
  match s with
  | String c s' =>
      if unreserved c then String c (percent_encode s')
      else
        let n := N_of_ascii c in
        String "%" (String (hex_digit (n / 16)) (String (hex_digit (n mod 16))
          (percent_encode s')))
  | EmptyString => ""
  end.

(** Strings of decimal digits as numbers; the empty string is 0. *)
Fixpoint digits (s : string) (acc : Z) : option Z :=
  match s with
  | String c s' =>
      let n := N_of_ascii c in
      if ((48 <=? n) && (n <=? 57))%N then digits s' (10 * acc + Z.of_N (n - 48))
      else None
  | EmptyString => Some acc
  end.

(** [q s] is [s] between double quotes, for writing JSON text. *)
Definition q (s : string) : string :=
  String (ascii_of_nat 34) s +:+ String (ascii_of_nat 34) "".

(** A host whose JSON parser knows the finitely many response bodies of
    an example, listed with their parsed form in [docs]. *)
Definition host (docs : list (string * Value)) : Host :=
  {| toLowerCase := lower;
     trim := trim_ascii;
     encodeURIComponent := percent_encode;
     JSON_parse := λ body, own_get body docs;
     StringToNumber := λ s, digits s 0 |}.

(** A server that answers the [n]-th request of the run with the [n]-th
    response of [responses], whatever the URL, and fails afterwards. *)
Definition script (responses : list Response) : nat → string → Response :=
  λ n _, nth n responses NetworkError.

(** A server that answers by URL. *)
Definition site (pages : list (string * Response)) : nat → string → Response :=
  λ _ url, match own_get url pages with
           | Some r => r
           | None => HttpResponse 404 ""
           end.

(** A card entry with the given name, quantity, set code and foil
    status, and no other printing detail. *)
Definition entry (name : string) (qty : Z) (set : string) (foil : bool)
  : RawCardEntry.t :=
  {| RawCardEntry.name := name;
     RawCardEntry.qty := VNum qty;
     RawCardEntry.set := VStr set;
     RawCardEntry.setName := VStr "";
     RawCardEntry.collectorNumber := VStr "";
     RawCardEntry.finishes := VArr (if foil then [VStr "foil"] else []);
     RawCardEntry.isFoil := foil;
     RawCardEntry.scryfallId := VStr "" |}.

(** [JSON.stringify] on values whose strings need no escaping. *)
Fixpoint stringify (v : Value) : string :=
  match v with
  | VUndefined | VNull | VNaN => "null"
  | VBool true => "true"
  | VBool false => "false"
  | VNum z => if is_infinity z then "null" else number_text z
  | VStr s => q s
  | VArr items =>
      "["
      +:+ (fix join (l : list Value) : string :=
             match l with
             | [] => ""
             | x :: l' =>
                 stringify x +:+ match l' with [] => "" | _ => "," +:+ join l' end
             end) items
      +:+ "]"
  | VObj props =>
      "{"
      +:+ (fix join (l : list (string * Value)) : string :=
             match l with
             | [] => ""
             | (k, x) :: l' =>
                 q k +:+ ":" +:+ stringify x
                 +:+ match l' with [] => "" | _ => "," +:+ join l' end
             end) props
      +:+ "}"
  end.

(** A host whose JSON parser knows the text of the documents [docs]. *)
Definition host_of (docs : list Value) : Host :=
  host (map (λ doc, (stringify doc, doc)) docs).

(** The deck document of the specification's scenario: a mainboard with
    four foil Lightning Bolts from set [lea]. *)
Definition deck_doc : Value :=
  VObj [("mainboard",
         VObj [("Lightning Bolt",
                VObj [("quantity", VNum 4);
                      ("card", VObj [("set", VStr "lea"); ("cn", VStr "1");
                                     ("finishes", VArr [VStr "foil"])])])])].

(** A deck whose only card is named like a member of
    [Object.prototype]. *)
Definition constructor_doc : Value :=
  VObj [("mainboard",
         VObj [("Constructor",
                VObj [("quantity", VNum 1);
                      ("card", VObj [("set", VStr "lea"); ("cn", VStr "7")])])])].

(** A collection of three cards on two pages. *)
Definition collection_entry (name : string) (quantity : Z) (set : string)
  : Value :=
  VObj [("quantity", VNum quantity);
        ("card", VObj [("name", VStr name); ("set", VStr set)])].

Definition page_1 : Value :=
  VObj [("totalPages", VNum 2);
        ("data", VArr [collection_entry "Counterspell" 2 "lea";
                       collection_entry "Dark Ritual" 1 "lea"])].

Definition page_2 : Value :=
  VObj [("totalPages", VNum 2);
        ("data", VArr [collection_entry "Giant Growth" 3 "lea"])].

End Demo.

(** * Notions used to state the properties *)

Module Notions.

(** A match of [lit<token>] at the head of [s]. *)
Definition here (lit s tok : string) : Prop :=
  ∃ post, s = lit +:+ tok +:+ post ∧ tok ≠ "" ∧ all_token tok = true.

(** The URL a price query asks for. *)
Definition price_url (scryfallId set collectorNumber : Value) : string :=
  if truthy scryfallId then
    "https://api.scryfall.com/cards/" +:+ ToString scryfallId
  else
    "https://api.scryfall.com/cards/" +:+ ToString set +:+ "/"
    +:+ ToString collectorNumber.

(** The price [fetchPrice] reads from a response document. *)
Definition price_of (data : Value) : Value :=
  or (or (get_opt (get_opt data "prices") "usd_foil")
         (get_opt (get_opt data "prices") "usd")) VNull.

(** The skip test at the top of [fetchPrice]: no Scryfall id, and no
    complete pair of set and collector number. *)
Definition skipped (scryfallId set collectorNumber : Value) : bool :=
  negb (truthy scryfallId)
  && (negb (truthy set) || negb (truthy collectorNumber)).

Definition is_request (e : Event) : bool :=
  match e with
  | Request _ => true
  | _ => false
  end.

(** The number of HTTP requests in a trace. *)
Definition requests (t : list Event) : nat :=
  length (List.filter is_request t).

(** The assignment [printing.price = parseFloat(price)], made unless the
    price is null. *)
Definition set_price (price : Value) (p : Printing.t) : Printing.t :=
  match price with
  | VNull => p
  | _ =>
      {| Printing.qty := Printing.qty p;
         Printing.set := Printing.set p;
         Printing.setName := Printing.setName p;
         Printing.isFoil := Printing.isFoil p;
         Printing.collectorNumber := Printing.collectorNumber p;
         Printing.scryfallId := Printing.scryfallId p;
         Printing.price := Printing.parseFloat price |}
  end.

(** What a returned price adds to [pricesFetched]. *)
Definition fetched_one (price : Value) : nat :=
  match price with
  | VNull => 0
  | _ => 1
  end.

(** A printing the price pass has nothing to query with. *)
Definition unpriceable (p : Printing.t) : bool :=
  skipped (Printing.scryfallId p) (Printing.set p) (Printing.collectorNumber p).

(** A printing and what the price pass makes of it: at most its price
    changes, and nothing changes when it is unpriceable. *)
Definition priced_from (p p' : Printing.t) : Prop :=
  (∃ price, p' = set_price price p) ∧ (unpriceable p = true → p' = p).

Definition owner_priced_from (o o' : string * list Printing.t) : Prop :=
  o.1 = o'.1 ∧ Forall2 priced_from o.2 o'.2.

Definition card_priced_from (c c' : string * CardAggregate.t) : Prop :=
  c.1 = c'.1 ∧ CardAggregate.name c.2 = CardAggregate.name c'.2
  ∧ Forall2 owner_priced_from (CardAggregate.owners c.2)
      (CardAggregate.owners c'.2).

(** The printings of an aggregate, in the order the price pass visits
    them. *)
Definition all_printings (cardsMap : list (string * CardAggregate.t))
  : list Printing.t :=
  concat (map (λ c, concat (map snd (CardAggregate.owners c.2))) cardsMap).

(** The printings the price pass queries for. *)
Definition attempted (ps : list Printing.t) : nat :=
  length (List.filter (λ p, negb (unpriceable p)) ps).

(** ** The aggregation engine *)

(** An entry merged for an owner: the loop body of [main] runs once per
    pair of an owner and a card fetched for that owner. *)
Abbreviation Merged := (string * RawCardEntry.t)%type.

(** The entries a list of cards fetched for [owner] stands for. *)
Definition merged_for (owner : string) (cards : list RawCardEntry.t)
  : list Merged :=
  map (pair owner) cards.

(** The merge loop of [main], run on the lists fetched for a sequence of
    owners, as the URL loop runs it on one list after the other. *)
Fixpoint merge_lists `{Host} (fetched : list (string * list RawCardEntry.t))
    (cardsMap : list (string * CardAggregate.t))
  : Outcome (list (string * CardAggregate.t)) :=
  match fetched with
  | [] => Ok cardsMap
  | (owner, cards) :: fetched' =>
      match Script.merge_cards owner cardsMap cards with
      | Ok cardsMap' => merge_lists fetched' cardsMap'
      | Throw e => Throw e
      end
  end.

(** The entries of the fetched lists, in the order they are merged. *)
Definition entries_of (fetched : list (string * list RawCardEntry.t))
  : list Merged :=
  flat_map (λ b, merged_for b.1 b.2) fetched.

(** An entry the merge loop takes without raising: neither its key nor
    its owner is a member of [Object.prototype]. *)
Definition clean `{Host} (op : Merged) : bool :=
  negb (proto_member (toLowerCase (RawCardEntry.name op.2)))
  && negb (proto_member op.1).

(** What the loop body makes of [cardsMap] when it raises nothing. *)
Definition merged `{Host} (owner : string)
    (cardsMap : list (string * CardAggregate.t)) (card : RawCardEntry.t)
  : list (string * CardAggregate.t) :=
  let key := toLowerCase (RawCardEntry.name card) in
  let entry :=
    match own_get key cardsMap with
    | Some e => e
    | None => {| CardAggregate.name := RawCardEntry.name card;
                 CardAggregate.owners := [] |}
    end in
  let printings :=
    match own_get owner (CardAggregate.owners entry) with
    | Some ps => ps
    | None => []
    end in
  obj_set key
    {| CardAggregate.name := CardAggregate.name entry;
       CardAggregate.owners :=
         obj_set owner (Script.merge_printing card printings)
           (CardAggregate.owners entry) |}
    cardsMap.

Definition merge_all `{Host} (ops : list Merged)
    (cardsMap : list (string * CardAggregate.t))
  : list (string * CardAggregate.t) :=
  fold_left (λ cm op, merged op.1 cm op.2) ops cardsMap.

(** The own property [cardsMap[key].owners[owner]], empty when either
    property is missing. *)
Definition printings_of (cardsMap : list (string * CardAggregate.t))
    (key owner : string) : list Printing.t :=
  match own_get key cardsMap with
  | Some agg =>
      match own_get owner (CardAggregate.owners agg) with
      | Some ps => ps
      | None => []
      end
  | None => []
  end.

(** The printings of set [s] and foil status [f]. *)
Definition is_printing (s : Value) (f : bool) (p : Printing.t) : bool :=
  strict_eq (Printing.set p) s && Bool.eqb (Printing.isFoil p) f.

(** The quantities of the printings of set [s] and foil status [f]. *)
Definition qtys (s : Value) (f : bool) (ps : list Printing.t) : list Value :=
  map Printing.qty (List.filter (is_printing s f) ps).

(** The entries merged for [owner] under [key] with set [s] and foil
    status [f]. *)
Definition is_entry `{Host} (owner key : string) (s : Value) (f : bool)
    (op : Merged) : bool :=
  String.eqb op.1 owner
  && String.eqb (toLowerCase (RawCardEntry.name op.2)) key
  && strict_eq (RawCardEntry.set op.2) s
  && Bool.eqb (RawCardEntry.isFoil op.2) f.

(** The entries merged under [key]. *)
Definition has_key `{Host} (key : string) (op : Merged) : bool :=
  String.eqb (toLowerCase (RawCardEntry.name op.2)) key.

(** The entries merged for [owner] under [key], in order. *)
Definition entries_for `{Host} (owner key : string) (ops : list Merged)
  : list RawCardEntry.t :=
  map snd
    (List.filter
       (λ op : Merged,
          String.eqb (toLowerCase (RawCardEntry.name op.2)) key
          && String.eqb op.1 owner) ops).

(** [q1 + q2 + ... + qn], associated as repeated [+=] computes it. *)
Definition total_qty (qs : list Value) : option Value :=
  match qs with
  | [] => None
  | q :: qs' => Some (fold_left plus qs' q)
  end.

(** The quantity [q] of the printing that the entry [e], one of [ops], was
    merged into: the sum [+=] computes over the entries of [e]'s owner,
    key, set and foil status.  A set that is an array or an object is
    [===] to no other, so its entry shares its printing with none. *)
Definition own_quantity `{Host} (owner key : string) (e : RawCardEntry.t)
    (ops : list Merged) (q : Value) : Prop :=
  if strict_eq (RawCardEntry.set e) (RawCardEntry.set e) then
    Some q
    = total_qty
        (map (λ op : Merged, RawCardEntry.qty op.2)
           (List.filter
              (is_entry owner key (RawCardEntry.set e) (RawCardEntry.isFoil e))
              ops))
  else q = RawCardEntry.qty e.

(** [+=] on the first of a list of quantities, or a first quantity. *)
Definition bump (q : Value) (qs : list Value) : list Value :=
  match qs with
  | [] => [q]
  | x :: qs' => plus x q :: qs'
  end.

(** The group-by step written as one pass over the printings. *)
Fixpoint merge_printing_pass (card : RawCardEntry.t) (ps : list Printing.t)
  : list Printing.t :=
  match ps with
  | [] => [Script.new_printing card]
  | p :: ps' =>
      if Script.same_printing card p
      then Script.add_qty (RawCardEntry.qty card) p :: ps'
      else p :: merge_printing_pass card ps'
  end.

(** The position of the printing a card is merged into: that of the
    printing [find] returns, or the end of the list, where a new printing
    is pushed. *)
Definition landing (card : RawCardEntry.t) (ps : list Printing.t) : nat :=
  match list_find (λ p, Script.same_printing card p = true) ps with
  | Some (i, _) => i
  | None => length ps
  end.

(** Integers that add up without rounding. *)
Definition exact_sum (zs : list Z) : Prop :=
  fold_right (λ z acc, Z.abs z + acc) 0 zs <= two53.

(** ** main *)

(** What a source URL contributes when it is processed after [n] requests:
    the cards fetched, or nothing when the URL does not classify or the
    fetch fails. *)
Definition contribution `{Host} (net : nat → string → Response)
    (url : string) (n : nat) : option (list RawCardEntry.t) :=
  match parseMoxfieldUrl url with
  | None => None
  | Some parsed =>
      match Script.fetch_cards net parsed n with
      | (Ok cards, _, _) => Some cards
      | (Throw _, _, _) => None
      end
  end.

(** The number of requests issued when a URL met after [n] requests has
    been processed. *)
Definition after_url `{Host} (net : nat → string → Response) (url : string)
    (n : nat) : nat :=
  match parseMoxfieldUrl url with
  | None => n
  | Some parsed => (Script.fetch_cards net parsed n).1.2
  end.

Definition after_urls `{Host} (net : nat → string → Response)
    (urls : list string) (n : nat) : nat :=
  fold_left (λ k url, after_url net url k) urls n.

(** A URL of an owner, and the number of requests issued when the run
    comes to it. *)
Abbreviation Visit := (string * string * nat)%type.

Fixpoint url_visits `{Host} (net : nat → string → Response) (owner : string)
    (urls : list string) (n : nat) : list Visit :=
  match urls with
  | [] => []
  | url :: urls' =>
      (owner, url, n) :: url_visits net owner urls' (after_url net url n)
  end.

(** The URLs a run started after [n] requests comes to, source after
    source, as long as no merge raises. *)
Fixpoint visits `{Host} (net : nat → string → Response)
    (sources : list Source.t) (n : nat) : list Visit :=
  match sources with
  | [] => []
  | src :: sources' =>
      url_visits net (Source.owner src) (Script.source_urls src) n
      ++ visits net sources' (after_urls net (Script.source_urls src) n)
  end.

(** What a visit contributes. *)
Definition visit_cards `{Host} (net : nat → string → Response) (v : Visit)
  : option (list RawCardEntry.t) :=
  contribution net v.1.2 v.2.

(** The lists fetched on a sequence of visits, each for its owner. *)
Definition lists_of `{Host} (net : nat → string → Response)
    (vs : list Visit) : list (string * list RawCardEntry.t) :=
  omap (λ v : Visit, pair v.1.1 <$> visit_cards net v) vs.

(** The lists a run fetches, in order. *)
Definition run_lists `{Host} (net : nat → string → Response)
    (sources : list Source.t) (n : nat)
  : list (string * list RawCardEntry.t) :=
  lists_of net (visits net sources n).

(** An aggregate none of whose own keys and owners is a member of
    [Object.prototype]. *)
Definition plain_keys (cardsMap : list (string * CardAggregate.t)) : Prop :=
  Forall (λ c : string * CardAggregate.t,
            proto_member c.1 = false
            ∧ Forall (λ o : string * list Printing.t, proto_member o.1 = false)
                (CardAggregate.owners c.2)) cardsMap.

(** The entries a run fetches, in the order it merges them. *)
Definition run_entries `{Host} (net : nat → string → Response)
    (sources : list Source.t) (n : nat) : list Merged :=
  entries_of (run_lists net sources n).

(** An owner to whom the run contributes nothing: every URL the run
    visits for the owner fails to classify or to fetch; so it is for an
    owner without URLs. *)
Definition owner_fails `{Host} (net : nat → string → Response)
    (sources : list Source.t) (n : nat) (owner : string) : Prop :=
  ∀ v : Visit,
    In v (visits net sources n) → v.1.1 = owner → visit_cards net v = None.

(** The record [main] creates for an owner, before any card is counted. *)
Definition fresh_owner (config : Config.t) (env : gmap string string)
    (owner : string) : Owner.t :=
  {| Owner.name := owner;
     Owner.phone := Script.resolve_phone config env owner;
     Owner.cardCount := 0 |}.

(** How many of the merged entries were fetched for [owner]. *)
Definition merged_count (owner : string) (ops : list Merged) : nat :=
  length (List.filter (λ op : Merged, String.eqb op.1 owner) ops).

(** What [main] maintains of [ownersMap] while [ops] are the entries
    fetched so far: every record sits under its own name, which is no
    member of [Object.prototype], carries the phone resolved for that name
    and has counted the entries fetched for it; every owner an entry was
    fetched for is registered, unless [Object.prototype] has a member of
    its name; and no name is listed twice. *)
Definition owners_ok (config : Config.t) (env : gmap string string)
    (ops : list Merged) (ownersMap : list (string * Owner.t)) : Prop :=
  (∀ o rec,
     own_get o ownersMap = Some rec →
     proto_member o = false
     ∧ Owner.name rec = o
     ∧ Owner.phone rec = Script.resolve_phone config env o
     ∧ Owner.cardCount rec = merged_count o ops)
  ∧ (∀ op : Merged,
       In op ops → proto_member op.1 = false → is_Some (own_get op.1 ownersMap))
  ∧ NoDup ownersMap.*1.

(** An entry that a URL of one of the sources contributed for the
    source's owner. *)
Definition fetched_from `{Host} (net : nat → string → Response)
    (sources : list Source.t) (op : Merged) : Prop :=
  ∃ src url n cards,
    In src sources ∧ Source.owner src = op.1
    ∧ In url (Script.source_urls src)
    ∧ contribution net url n = Some cards ∧ In op.2 cards.

(** Every printing of the aggregate satisfies [P]. *)
Definition all_printings_are (P : Printing.t → Prop)
    (cardsMap : list (string * CardAggregate.t)) : Prop :=
  Forall (λ c, Forall (λ o : string * list Printing.t, Forall P o.2)
                 (CardAggregate.owners c.2)) cardsMap.

(** ** Deck reader *)

(** The extraction rule as the specification words it: a printing field
    is read from the nested card-detail object and, when the nested object
    lacks it, from the sibling top-level field of the entry; [dflt] stands
    in when both lack it. *)
Definition falls_back_to_sibling (field : string) (card dflt extracted : Value)
  : Prop :=
  extracted = or (or (get_opt (get_opt card "card") field) (get_opt card field))
                 dflt.

(** The rule the four other printing fields follow: the nested object or
    the default. *)
Definition nested_only (field : string) (card dflt extracted : Value) : Prop :=
  extracted = or (get_opt (get_opt card "card") field) dflt.

End Notions.

(** * Further notions: traces and shapes *)

Module Views.

(** The statuses [httpGet] retries on. *)
Definition retryable (statusCode : Z) : bool :=
  (statusCode =? 429) || (statusCode >=? 500).

(** The wait before the retry that follows a response. *)
Definition wait_for (statusCode : Z) : Z :=
  if statusCode =? 429 then 5000 else 2000.

(** The trace of a call of [httpGet] whose first attempts were answered
    with [statuses] and retried: each of them is a request, the log line of
    the retry and the wait; the last attempt is a request alone. *)
Definition retry_trace (url : string) (statuses : list Z) : list Event :=
  flat_map (λ s, [Request url; Log (LogRetry s (wait_for s)); Sleep (wait_for s)])
    statuses
  ++ [Request url].

(** What [httpGet] makes of the response to its last attempt. *)
Definition final_outcome `{Host} (url : string) (res : Response)
  : Outcome Value :=
  match res with
  | NetworkError => Throw TransportError
  | HttpResponse statusCode body =>
      if retryable statusCode then Throw (RetryExhausted statusCode)
      else if negb (statusCode =? 200) then Throw (HttpStatus statusCode url)
      else match JSON_parse body with
           | Some v => Ok v
           | None => Throw (MalformedResponse url)
           end
  end.

(** A response [httpGet] would retry on, had it a retry left. *)
Definition retryable_response (res : Response) : bool :=
  match res with
  | HttpResponse statusCode _ => retryable statusCode
  | NetworkError => false
  end.

Definition list_sum_Z (l : list Z) : Z := fold_right Z.add 0 l.

(** The milliseconds a trace spends in [sleep]. *)
Definition slept (t : list Event) : Z :=
  fold_right (λ e acc, match e with Sleep ms => ms + acc | _ => acc end) 0 t.

(** A trace without its log lines: the requests and the sleeps, in
    order. *)
Definition timeline (t : list Event) : list Event :=
  List.filter (λ e, match e with Log _ => false | _ => true end) t.

(** The URLs a trace requests, in order. *)
Definition requested (t : list Event) : list string :=
  flat_map (λ e, match e with Request url => [url] | _ => [] end) t.

(** How often a trace sleeps for exactly [ms]. *)
Definition sleeps_of (ms : Z) (t : list Event) : nat :=
  length (List.filter (λ e, match e with Sleep m => m =? ms | _ => false end) t).

(** The URL [fetchViaCF] asks the worker for. *)
Definition worker_url `{Host} (targetUrl : string) : string :=
  Script.WORKER_URL +:+ "?url=" +:+ encodeURIComponent targetUrl.

(** Every event a computation emits satisfies [P], wherever it starts. *)
Definition emits {A} (P : Event → Prop) (m : M A) : Prop :=
  ∀ n, Forall P (m n).2.

(** An event that, when it is a request, asks for a URL in [Q]. *)
Definition asks_only (Q : string → Prop) (e : Event) : Prop :=
  match e with
  | Request url => Q url
  | _ => True
  end.

(** The worker, asked for a page of the Moxfield API. *)
Definition via_worker `{Host} (url : string) : Prop :=
  ∃ rest, url = worker_url (Script.MOX_API +:+ rest).

(** The Scryfall card endpoint, asked directly. *)
Definition scryfall_card (url : string) : Prop :=
  ∃ rest, url = "https://api.scryfall.com/cards/" +:+ rest.

(** An event that, when it is a pause, lasts one of the [allowed] times. *)
Definition pauses_only (allowed : list Z) (e : Event) : Prop :=
  match e with
  | Sleep ms => In ms allowed
  | _ => True
  end.

(** A computation that, whenever it returns, returns a value in [Q]. *)
Definition returns {A} (Q : A → Prop) (m : M A) : Prop :=
  ∀ n a n' t, m n = (Ok a, n', t) → Q a.

(** The entries of one section of a deck document; a section that is
    missing, falsy or not an object has none. *)
Definition section_entries (data : Value) (sec : string)
  : list (string * Value) :=
  let obj := get_opt data sec in
  if truthy obj && typeof_object obj then Object_entries obj else [].

(** The entries of a deck document, section after section. *)
Definition deck_cards (data : Value) : list (string * Value) :=
  flat_map (section_entries data) Script.sections.

(** A field that defaults to the empty string: truthy, or that default. *)
Definition truthy_or_empty (v : Value) : Prop :=
  truthy v = true ∨ v = VStr "".

(** What both readers guarantee of every entry they build. *)
Definition well_formed (e : RawCardEntry.t) : Prop :=
  truthy (RawCardEntry.set e) = true
  ∧ nullish (RawCardEntry.qty e) = false
  ∧ includes_foil (RawCardEntry.finishes e) = Ok (RawCardEntry.isFoil e)
  ∧ truthy_or_empty (RawCardEntry.setName e)
  ∧ truthy_or_empty (RawCardEntry.collectorNumber e)
  ∧ truthy_or_empty (RawCardEntry.scryfallId e).

(** What the snapshot guarantees of every printing, whatever its price. *)
Definition printing_ok (p : Printing.t) : Prop :=
  truthy (Printing.set p) = true
  ∧ nullish (Printing.qty p) = false
  ∧ truthy_or_empty (Printing.setName p)
  ∧ truthy_or_empty (Printing.collectorNumber p)
  ∧ truthy_or_empty (Printing.scryfallId p).

(** A printing whose price was assigned. *)
Definition has_price (p : Printing.t) : bool :=
  match Printing.price p with
  | Printing.null => false
  | Printing.parseFloat _ => true
  end.

Definition priced (ps : list Printing.t) : nat :=
  length (List.filter has_price ps).

(** An assigned price was parsed from a truthy value. *)
Definition price_ok (p : Printing.t) : Prop :=
  match Printing.price p with
  | Printing.null => True
  | Printing.parseFloat src => truthy src = true
  end.

(** The names of [names] in the order of their first occurrence. *)
Definition distinct (names : list string) : list string :=
  fold_left (λ acc o, if existsb (String.eqb o) acc then acc else acc ++ [o])
    names [].

(** A key that is an array index. *)
Definition is_index (k : string) : bool :=
  match array_index k with
  | Some _ => true
  | None => false
  end.

(** Two keys in the order an object enumerates them: an array index
    before a larger one and before every other key. *)
Definition enumerates_before (a b : string) : Prop :=
  match array_index a, array_index b with
  | Some i, Some j => i < j
  | Some _, None => True
  | None, Some _ => False
  | None, None => True
  end.

(** [keys] lists every name of [names] once, as an object enumerates the
    keys written in the order of [names]: the array indices first, in
    ascending order, then the other names in the order of their first
    occurrence. *)
Definition enumerated (names keys : list string) : Prop :=
  keys ≡ₚ distinct names
  ∧ StronglySorted enumerates_before keys
  ∧ List.filter (λ k, negb (is_index k)) keys
    = List.filter (λ k, negb (is_index k)) (distinct names).

(** Every record of [ownersMap] sits under its own name. *)
Definition named (ownersMap : list (string * Owner.t)) : Prop :=
  Forall (λ kv : string * Owner.t, Owner.name kv.2 = kv.1) ownersMap.

(** What the snapshot guarantees of its cards when [known] are the
    registered owners: distinct keys, each the lower-cased display name of
    its card, and under each card at least one owner, no owner twice, each
    owner registered and holding at least one printing. *)
Definition cards_ok `{Host} (known : string → Prop)
    (cardsMap : list (string * CardAggregate.t)) : Prop :=
  NoDup cardsMap.*1
  ∧ Forall (λ c : string * CardAggregate.t,
              c.1 = toLowerCase (CardAggregate.name c.2)
              ∧ CardAggregate.owners c.2 ≠ []
              ∧ NoDup (CardAggregate.owners c.2).*1
              ∧ Forall (λ o : string * list Printing.t, known o.1 ∧ o.2 ≠ [])
                  (CardAggregate.owners c.2)) cardsMap.

(** What a printing records besides its quantity and its price. *)
Definition details (p : Printing.t) : Value * bool * Value * Value * Value :=
  (Printing.set p, Printing.isFoil p, Printing.setName p,
   Printing.collectorNumber p, Printing.scryfallId p).

Definition entry_details (e : RawCardEntry.t)
  : Value * bool * Value * Value * Value :=
  (RawCardEntry.set e, RawCardEntry.isFoil e, RawCardEntry.setName e,
   RawCardEntry.collectorNumber e, RawCardEntry.scryfallId e).

(** The owners listed under [key], in the order of the card's [owners]
    object. *)
Definition owners_of (cardsMap : list (string * CardAggregate.t))
    (key : string) : list string :=
  match own_get key cardsMap with
  | Some agg => (CardAggregate.owners agg).*1
  | None => []
  end.

(** A quantity that is an integer. *)
Definition numeric (v : Value) : Prop := ∃ z, v = VNum z.

Definition num_of (v : Value) : Z :=
  match v with
  | VNum z => z
  | _ => 0
  end.

(** The Moxfield API URL of one page of a collection. *)
Definition collection_url (id : string) (page : Z) : string :=
  Script.MOX_API +:+ "/v1/collections/search/" +:+ id
  +:+ "?sortType=cardName&sortDirection=ascending&pageNumber="
  +:+ ToString (VNum page) +:+ "&pageSize=50".

(** What the first page of a collection announces as its number of
    pages, [data.totalPages || 1], when the request numbered [n] starts
    reading it. *)
Definition announced_pages `{Host} (net : nat → string → Response)
    (id : string) (n : nat) : Value :=
  match (Script.fetchViaCF net (collection_url id 1) n).1.1 with
  | Ok data => or (get_opt data "totalPages") (VNum 1)
  | Throw _ => VNum 1
  end.

(** Whether something comes after. *)
Definition follows {A} (l : list A) : bool :=
  match l with
  | [] => false
  | _ :: _ => true
  end.

(** The trace of one page of a collection: the line that announces the
    page with the number of pages known so far, the attempts of the request
    for it of which [statuses] were retried, and the 300 ms pause when
    [pause] holds. *)
Definition page_block `{Host} (id : string) (page : Z) (shown : Value)
    (statuses : list Z) (pause : bool) : list Event :=
  Log (LogGetPage page shown)
  :: retry_trace (worker_url (collection_url id page)) statuses
  ++ (if pause then [Sleep 300] else []).

(** The trace of consecutive pages from [page] on, one list of retried
    statuses per page: a page is followed by the pause exactly when another
    page comes after it. *)
Fixpoint pages_trace `{Host} (id : string) (page : Z) (shown : Value)
    (attempts : list (list Z)) : list Event :=
  match attempts with
  | [] => []
  | statuses :: rest =>
      page_block id page shown statuses (follows rest)
      ++ pages_trace id (page + 1) shown rest
  end.

(** The requests a list of pages costs: one more than was retried, for
    each page. *)
Definition requests_of (attempts : list (list Z)) : nat :=
  sum_list (map (λ statuses : list Z, S (length statuses)) attempts).

End Views.

(** * The earlier revision of the script

    The earlier [fetch.js] keeps one quantity per owner and card and
    fetches no prices.  Its [httpGet] and [parseMoxfieldUrl] are those of
    the later revision; its worker URL has no trailing slash; its readers
    keep the name and the quantity of an entry only; its [main] reads the
    single [url] of a source and registers an owner after the fetch. *)

Module Legacy.

Definition WORKER_URL : string := "https://moxfield-proxy.faguaz.workers.dev".

(** [{ name, qty }] *)
Module Card.
Record t := {
  name : string;
  qty : Value;
}.
End Card.

(** [{ name, owners: { ownerName: qty } }] *)
Module Aggregate.
Record t := {
  name : string;
  owners : list (string * Value);
}.
End Aggregate.

(** An entry of [config.sources]: [type] is only printed; [url] is absent
    when the entry has no string under that name. *)
Module Source.
Record t := {
  owner : string;
  type : Value;
  url : option string;
}.
End Source.

Module Config.
Record t := {
  sources : list Source.t;
  phoneSecretNames : option (gmap string string);
}.
End Config.

Module Snapshot.
Record t := {
  lastUpdated : string;
  owners : list Owner.t;
  cards : list (string * Aggregate.t);
}.
End Snapshot.

Section Script.
Context `{Host}.
Variable net : nat → string → Response.

Local Open Scope js_scope.

Definition fetchViaCF (targetUrl : string) : M Value :=
  let workerCall := WORKER_URL +:+ "?url=" +:+ encodeURIComponent targetUrl in
  Script.httpGet net workerCall Script.default_retries.

(** [{ name: name.trim(), qty: details?.quantity ?? 1 }] *)
Definition deck_entry (name : string) (details : Value) : Card.t :=
  {| Card.name := trim name;
     Card.qty := coalesce (get_opt details "quantity") (VNum 1) |}.

(** [for (const sec of sections) { ... }] *)
Fixpoint deck_sections (data : Value) (secs : list string)
    (cards : list Card.t) : Outcome (list Card.t) :=
  match secs with
  | [] => Ok cards
  | sec :: secs' =>
      match get data sec with
      | Throw e => Throw e
      | Ok obj =>
          if negb (truthy obj) || negb (typeof_object obj) then
            deck_sections data secs' cards
          else
            deck_sections data secs'
              (cards ++ map (λ kv, deck_entry kv.1 kv.2) (Object_entries obj))
      end
  end.

Definition fetchDeck (id : string) : M (list Card.t) :=
  log (LogGetDeck id) ;;
  data <- fetchViaCF (Script.MOX_API +:+ "/v2/decks/all/" +:+ id) ;;
  cards <- lift (deck_sections data Script.sections []) ;;
  log (LogDeckDone (length cards)) ;;
  ret cards.

(** The body of [for (const item of data.data)]: [None] when the name is
    falsy and nothing is pushed. *)
Definition collection_item (item : Value) : Outcome (option Card.t) :=
  let name := get_opt (get_opt item "card") "name" in
  let qty := coalesce (get_opt item "quantity") (VNum 1) in
  if truthy name then
    match trim_value name with
    | Ok trimmed => Ok (Some {| Card.name := trimmed; Card.qty := qty |})
    | Throw e => Throw e
    end
  else Ok None.

Fixpoint collection_items (items : list Value) (allCards : list Card.t)
  : Outcome (list Card.t) :=
  match items with
  | [] => Ok allCards
  | item :: items' =>
      match collection_item item with
      | Throw e => Throw e
      | Ok None => collection_items items' allCards
      | Ok (Some c) => collection_items items' (allCards ++ [c])
      end
  end.

(** One turn of the [while (page <= totalPages)] loop, entered with the
    loop test already true. *)
Definition collection_page (id : string) (page : Z) (totalPages : Value)
    (allCards : list Card.t) : M (Value * list Card.t) :=
  let url := Script.MOX_API +:+ "/v1/collections/search/" +:+ id
             +:+ "?sortType=cardName&sortDirection=ascending&pageNumber="
             +:+ ToString (VNum page) +:+ "&pageSize=50" in
  log (LogGetPage page totalPages) ;;
  data <- fetchViaCF url ;;
  totalPages' <- (if page =? 1 then
                    total <- lift (get data "totalPages") ;;
                    ret (or total (VNum 1))
                  else ret totalPages) ;;
  items <- lift (get data "data") ;;
  allCards' <- lift (match items with
                     | VArr l => collection_items l allCards
                     | _ => Ok allCards
                     end) ;;
  (if le_value (page + 1) totalPages' then sleep 300 else ret tt) ;;
  ret (totalPages', allCards').

Fixpoint collection_rest (remaining : nat) (id : string) (page : Z)
    (totalPages : Value) (allCards : list Card.t) : M (list Card.t) :=
  match remaining with
  | O => ret allCards
  | S remaining' =>
      r <- collection_page id page totalPages allCards ;;
      collection_rest remaining' id (page + 1) (fst r) (snd r)
  end.

Definition fetchCollection (id : string) : M (list Card.t) :=
  r <- collection_page id 1 (VNum 1) [] ;;
  allCards <- collection_rest (Script.pages_after_first (fst r)) id 2
                (fst r) (snd r) ;;
  log (LogCollectionDone (length allCards)) ;;
  ret allCards.

Definition fetch_cards (parsed : ParsedReference) : M (list Card.t) :=
  match Classifier.type parsed with
  | deck => fetchDeck (id parsed)
  | collection => fetchCollection (id parsed)
  end.

Definition OwnersMap : Type := list (string * Owner.t).
Definition CardsMap : Type := list (string * Aggregate.t).

(** [secretKey ? (process.env[secretKey] || '') : ''] *)
Definition resolve_phone (config : Config.t) (env : gmap string string)
    (owner : string) : Owner.Phone :=
  match Config.phoneSecretNames config ≫= (λ names, names !! owner) with
  | Some secretKey =>
      if String.eqb secretKey "" then Owner.text ""
      else match env !! secretKey with
           | Some phone => Owner.text phone
           | None =>
               if proto_member secretKey then Owner.builtin secretKey
               else Owner.text ""
           end
  | None => Owner.text ""
  end.

(** [if (!ownersMap[src.owner]) ownersMap[src.owner] = { ... }]: an owner
    named like a member of [Object.prototype] is found there and gets no
    record. *)
Definition ensure_owner (config : Config.t) (env : gmap string string)
    (owner : string) (ownersMap : OwnersMap) : OwnersMap :=
  match obj_get owner ownersMap with
  | Own _ | Inherited => ownersMap
  | Missing =>
      obj_set owner
        {| Owner.name := owner;
           Owner.phone := resolve_phone config env owner;
           Owner.cardCount := 0 |}
        ownersMap
  end.

(** [owners[owner] = (owners[owner] || 0) + qty].  Under an owner that
    [owners] inherits, the inherited member is truthy and [+] joins its
    text with the quantity; the string becomes an own property, except
    under [__proto__], where assigning a string changes nothing. *)
Definition add_held (owner : string) (qty : Value)
    (owners : list (string * Value)) : list (string * Value) :=
  match obj_get owner owners with
  | Own v => obj_set owner (plus (or v (VNum 0)) qty) owners
  | Missing => obj_set owner (plus (VNum 0) qty) owners
  | Inherited =>
      if String.eqb owner "__proto__" then owners
      else obj_set owner (plus (VStr (builtin_text owner)) qty) owners
  end.

(** The body of [for (const { name, qty } of cards)].  Under a key that
    [cardsMap] inherits nothing is created and reading [.owners[...]] of
    the inherited member raises. *)
Definition merge_card (owner : string) (cardsMap : CardsMap) (card : Card.t)
  : Outcome CardsMap :=
  let key := toLowerCase (Card.name card) in
  match obj_get key cardsMap with
  | Inherited => Throw TypeError
  | found =>
      let entry :=
        match found with
        | Own e => e
        | _ => {| Aggregate.name := Card.name card; Aggregate.owners := [] |}
        end in
      Ok (obj_set key
            {| Aggregate.name := Aggregate.name entry;
               Aggregate.owners :=
                 add_held owner (Card.qty card) (Aggregate.owners entry) |}
            cardsMap)
  end.

(** [for (const { name, qty } of cards) { ... }] *)
Fixpoint merge_cards (owner : string) (cardsMap : CardsMap)
    (cards : list Card.t) : Outcome CardsMap :=
  match cards with
  | [] => Ok cardsMap
  | card :: cards' =>
      match merge_card owner cardsMap card with
      | Ok cardsMap' => merge_cards owner cardsMap' cards'
      | Throw e => Throw e
      end
  end.

(** The body of [for (const src of config.sources)].  Calling [match] on
    a [url] that is not a string raises; both [continue]s leave the
    accumulators as they are; what the merge loop raises ends the run.  The
    first line also prints the source's [type]; the failure line prints
    the error's message and no URL. *)
Definition process_source (config : Config.t) (env : gmap string string)
    (acc : OwnersMap * CardsMap) (src : Source.t) : M (OwnersMap * CardsMap) :=
  log (LogProcessing
         (Source.owner src +:+ " (" +:+ ToString (Source.type src) +:+ ")")) ;;
  url <- lift (match Source.url src with
               | Some url => Ok url
               | None => Throw TypeError
               end) ;;
  match parseMoxfieldUrl url with
  | None => log (LogUnparsable url) ;; ret acc
  | Some parsed =>
      fetched <- try_catch
                   (cards <- fetch_cards parsed ;; ret (Some cards))
                   (λ e, log (LogFetchFailed "" e) ;; ret None) ;;
      match fetched with
      | None => ret acc
      | Some cards =>
          let registered :=
            ensure_owner config env (Source.owner src) (fst acc) in
          ownersMap <- lift (Script.add_cardCount (Source.owner src)
                               (length cards) registered) ;;
          cardsMap <- lift (merge_cards (Source.owner src) (snd acc) cards) ;;
          sleep 1000 ;;
          ret (ownersMap, cardsMap)
      end
  end.

Definition main (config : Config.t) (env : gmap string string) (now : string)
  : M Snapshot.t :=
  acc <- foldM (process_source config env) ([], []) (Config.sources config) ;;
  let output := {| Snapshot.lastUpdated := now;
                   Snapshot.owners := Object_values (fst acc);
                   Snapshot.cards := snd acc |} in
  log (LogDone (length (snd acc)) (length (fst acc))) ;;
  log LogWritten ;;
  ret output.

End Script.

(** ** Notions for the earlier revision *)

(** The source is fetched when it is processed after [n] requests. *)
Definition fetched `{Host} (net : nat → string → Response) (src : Source.t)
    (n : nat) : Prop :=
  ∃ url parsed cards n' t,
    Source.url src = Some url ∧ parseMoxfieldUrl url = Some parsed
    ∧ fetch_cards net parsed n = (Ok cards, n', t).

(** The quantity listed for [owner] under [key]: the own property
    [cardsMap[key].owners[owner]]. *)
Definition held_by (cardsMap : CardsMap) (key owner : string) : option Value :=
  match own_get key cardsMap with
  | Some agg => own_get owner (Aggregate.owners agg)
  | None => None
  end.

(** The merge loop of [main], run on the lists fetched for a sequence of
    owners, one list after the other. *)
Fixpoint merge_lists `{Host} (fetched : list (string * list Card.t))
    (cardsMap : CardsMap) : Outcome CardsMap :=
  match fetched with
  | [] => Ok cardsMap
  | (owner, cards) :: fetched' =>
      match merge_cards owner cardsMap cards with
      | Ok cardsMap' => merge_lists fetched' cardsMap'
      | Throw e => Throw e
      end
  end.

(** The cards of the fetched lists that were fetched for [owner] and go
    under [key], in the order they are merged. *)
Definition cards_for `{Host} (key owner : string)
    (fetched : list (string * list Card.t)) : list Card.t :=
  flat_map
    (λ b : string * list Card.t,
       if String.eqb b.1 owner
       then List.filter
              (λ c, String.eqb (toLowerCase (Card.name c)) key) b.2
       else [])
    fetched.

(** The numeric quantities of those cards. *)
Definition quantities `{Host} (key owner : string)
    (fetched : list (string * list Card.t)) : list Z :=
  map (λ c, Views.num_of (Card.qty c)) (cards_for key owner fetched).


(** A request of the earlier revision: the worker, asked for a page of
    the Moxfield API. *)
Definition via_worker `{Host} (url : string) : Prop :=
  ∃ rest,
    url = WORKER_URL +:+ "?url="
          +:+ encodeURIComponent (Script.MOX_API +:+ rest).

End Legacy.

(** * Part II: properties *)

(** ** Source URL classifier *)

Module ClassifierFacts.
Import Classifier Notions.

Lemma append_nil_l (s : string) : "" +:+ s = s.
Proof. reflexivity. Qed.

Lemma append_cons (c : ascii) (s t : string) :
  String c s +:+ t = String c (s +:+ t).
Proof. reflexivity. Qed.

(** stdpp keeps [+:+] folded under [simpl]; unfold it by rewriting. *)
Ltac str_simpl :=
  repeat (rewrite ?append_nil_l, ?append_cons in *; simpl in * ).

Lemma strip_prefix_Some (p s rest : string) :
  strip_prefix p s = Some rest ↔ s = p +:+ rest.
Proof.
  revert s. induction p as [|a p IH]; intros s; str_simpl.
  - split; congruence.
  - destruct s as [|b s]; [split; discriminate|].
    destruct (Ascii.eqb_spec a b) as [->|Hne].
    + rewrite IH. split; congruence.
    + split; [discriminate | congruence].
Qed.

Lemma take_token_split (s : string) :
  ∃ post, s = take_token s +:+ post ∧ token_ends post.
Proof.
  induction s as [|c s [post [Hs Hp]]]; str_simpl.
  - exists "". split; str_simpl; trivial.
  - destruct (is_token_char c) eqn:Hc.
    + exists post. str_simpl. split; congruence.
    + exists (String c s). str_simpl. split; trivial.
Qed.

Lemma all_token_take_token (s : string) : all_token (take_token s) = true.
Proof.
  induction s as [|c s IH]; str_simpl; trivial.
  destruct (is_token_char c) eqn:Hc; str_simpl; trivial.
  now rewrite Hc.
Qed.

Lemma take_token_exact (tok post : string) :
  all_token tok = true → token_ends post → take_token (tok +:+ post) = tok.
Proof.
  induction tok as [|c tok IH]; str_simpl; intros Ht Hp.
  - destruct post as [|c post]; str_simpl; trivial. now rewrite Hp.
  - apply andb_true_iff in Ht as [Hc Ht]. rewrite Hc. f_equal. auto.
Qed.

Lemma take_token_nonempty (tok post : string) :
  tok ≠ "" → all_token tok = true → take_token (tok +:+ post) ≠ "".
Proof.
  destruct tok as [|c tok]; [congruence|]. str_simpl. intros _ Ht.
  apply andb_true_iff in Ht as [-> _]. discriminate.
Qed.

Lemma match_here_Some (lit s tok : string) :
  match_here lit s = Some tok →
  ∃ post, s = lit +:+ tok +:+ post ∧ tok ≠ "" ∧ all_token tok = true
          ∧ token_ends post.
Proof.
  unfold match_here. destruct (strip_prefix lit s) as [rest|] eqn:Hp; [|discriminate].
  apply strip_prefix_Some in Hp. subst s.
  destruct (take_token_split rest) as [post [Hr Hpost]].
  pose proof (all_token_take_token rest) as Hall.
  destruct (take_token rest) as [|c t] eqn:Ht; [discriminate|].
  intros [= <-]. exists post. repeat split; trivial; congruence.
Qed.

Lemma match_here_None (lit s : string) :
  match_here lit s = None → ∀ tok, ¬ here lit s tok.
Proof.
  unfold match_here. intros H tok [post [Hs [Hne Hall]]].
  apply strip_prefix_Some in Hs. rewrite Hs in H.
  pose proof (take_token_nonempty tok post Hne Hall) as Hn.
  destruct (take_token (tok +:+ post)); [congruence | discriminate].
Qed.

Lemma has_segment_cases (lit s : string) :
  has_segment lit s ↔
  (∃ tok, here lit s tok)
  ∨ (∃ c s', s = String c s' ∧ has_segment lit s').
Proof.
  split.
  - intros [pre [tok [post [Hs [Hne Hall]]]]]. destruct pre as [|c pre].
    + left. exists tok, post. auto.
    + right. str_simpl. exists c, (pre +:+ lit +:+ tok +:+ post).
      split; trivial. exists pre, tok, post. auto.
  - intros [[tok [post [Hs [Hne Hall]]]] | [c [s' [Hs [pre [tok [post [Hs' [Hne Hall]]]]]]]]].
    + exists "", tok, post. auto.
    + exists (String c pre), tok, post. str_simpl. repeat split; trivial. congruence.
Qed.

Lemma regex_match_None (lit s : string) :
  regex_match lit s = None → ¬ has_segment lit s.
Proof.
  induction s as [|c s IH]; str_simpl; intros H Hseg;
    destruct (match_here lit _) as [t|] eqn:Hh; try discriminate;
    apply has_segment_cases in Hseg as [[tok Hk] | [c' [s' [Hs Hseg]]]];
    try (eapply match_here_None; eassumption); try discriminate.
  injection Hs as <- <-. now apply IH.
Qed.

Lemma regex_match_Some (lit s tok : string) :
  regex_match lit s = Some tok → first_segment lit s tok.
Proof.
  induction s as [|c s IH]; str_simpl;
    destruct (match_here lit _) as [t|] eqn:Hh; try discriminate.
  - intros [= <-]. apply match_here_Some in Hh as [post [Hs [Hne [Hall Hend]]]].
    exists "", post. repeat split; trivial. str_simpl. intros. lia.
  - intros [= <-]. apply match_here_Some in Hh as [post [Hs [Hne [Hall Hend]]]].
    exists "", post. repeat split; trivial. str_simpl. intros. lia.
  - intros H. destruct (IH H) as [pre [post [Hs [Hne [Hall [Hend Hmin]]]]]].
    exists (String c pre), post. str_simpl. repeat split; trivial; [congruence|].
    intros pre' tok' post' Hs' Hne' Hall'. destruct pre' as [|c' pre'].
    + exfalso. eapply match_here_None; [exact Hh|]. exists post'. eauto.
    + str_simpl. injection Hs' as _ Hs'. simpl.
      specialize (Hmin pre' tok' post' Hs' Hne' Hall'). lia.
Qed.

Lemma first_segment_has (lit s tok : string) :
  first_segment lit s tok → has_segment lit s.
Proof. intros [pre [post [Hs [Hne [Hall _]]]]]. exists pre, tok, post. auto. Qed.

Lemma append_same_length (a b x y : string) :
  String.length a = String.length b → a +:+ x = b +:+ y → a = b ∧ x = y.
Proof.
  revert b. induction a as [|c a IH]; intros [|d b]; str_simpl; try discriminate; auto.
  intros [= Hl] [= -> He]. destruct (IH b Hl He) as [-> ->]. auto.
Qed.

Lemma first_segment_unique (lit s t1 t2 : string) :
  first_segment lit s t1 → first_segment lit s t2 → t1 = t2.
Proof.
  intros [p1 [q1 [H1 [N1 [A1 [E1 M1]]]]]] [p2 [q2 [H2 [N2 [A2 [E2 M2]]]]]].
  pose proof (M1 p2 t2 q2 H2 N2 A2). pose proof (M2 p1 t1 q1 H1 N1 A1).
  assert (String.length p1 = String.length p2) as Hl by lia.
  rewrite H1 in H2. destruct (append_same_length _ _ _ _ Hl H2) as [_ He].
  apply String.app_inj in He.
  rewrite <- (take_token_exact t1 q1 A1 E1), <- (take_token_exact t2 q2 A2 E2).
  congruence.
Qed.

Lemma regex_match_first (lit s tok : string) :
  regex_match lit s = Some tok ↔ first_segment lit s tok.
Proof.
  split; [apply regex_match_Some|]. intros Hf.
  destruct (regex_match lit s) as [t|] eqn:Hm.
  - f_equal. eapply first_segment_unique; [|exact Hf]. now apply regex_match_Some.
  - exfalso. eapply regex_match_None; [exact Hm|]. eapply first_segment_has; eauto.
Qed.

Lemma regex_match_has (lit s : string) :
  has_segment lit s ↔ ∃ tok, regex_match lit s = Some tok.
Proof.
  split.
  - intros Hs. destruct (regex_match lit s) as [t|] eqn:Hm; [eauto|].
    exfalso. eapply regex_match_None; eauto.
  - intros [tok Hm]. eapply first_segment_has, regex_match_Some; eauto.
Qed.

(** C7. For every URL: a [/decks/<token>] segment classifies it as a deck
    with the token of the leftmost such segment; otherwise a
    [/collection/<token>] segment classifies it as a collection; otherwise
    the classifier returns null.  A URL with both kinds of segment is a
    deck. *)
Theorem parseMoxfieldUrl_classifies (url : string) :
  (∀ tok, first_segment "/decks/" url tok →
     parseMoxfieldUrl url = Some {| type := deck; id := tok |})
  ∧ (has_segment "/decks/" url →
     ∃ tok, first_segment "/decks/" url tok
            ∧ parseMoxfieldUrl url = Some {| type := deck; id := tok |})
  ∧ (¬ has_segment "/decks/" url →
     ∀ tok, first_segment "/collection/" url tok →
       parseMoxfieldUrl url = Some {| type := collection; id := tok |})
  ∧ (¬ has_segment "/decks/" url → has_segment "/collection/" url →
     ∃ tok, first_segment "/collection/" url tok
            ∧ parseMoxfieldUrl url = Some {| type := collection; id := tok |})
  ∧ (¬ has_segment "/decks/" url → ¬ has_segment "/collection/" url →
     parseMoxfieldUrl url = None).
Proof.
  unfold parseMoxfieldUrl. repeat split.
  - intros tok Hf. apply regex_match_first in Hf. now rewrite Hf.
  - intros Hs. apply regex_match_has in Hs as [tok Hm]. exists tok.
    rewrite Hm. split; trivial. now apply regex_match_first.
  - intros Hd tok Hf. destruct (regex_match "/decks/" url) eqn:Hm.
    + exfalso. apply Hd, regex_match_has. eauto.
    + apply regex_match_first in Hf. now rewrite Hf.
  - intros Hd Hc. destruct (regex_match "/decks/" url) eqn:Hm.
    + exfalso. apply Hd, regex_match_has. eauto.
    + apply regex_match_has in Hc as [tok Hc]. exists tok. rewrite Hc.
      split; trivial. now apply regex_match_first.
  - intros Hd Hc. destruct (regex_match "/decks/" url) eqn:Hm.
    + exfalso. apply Hd, regex_match_has. eauto.
    + destruct (regex_match "/collection/" url) eqn:Hm'; trivial.
      exfalso. apply Hc, regex_match_has. eauto.
Qed.

(** C7 on a deck URL. *)
Lemma parseMoxfieldUrl_classifies_witness :
  ∃ tok,
    first_segment "/decks/" "https://www.moxfield.com/decks/aB3_x-9/primer" tok
    ∧ parseMoxfieldUrl "https://www.moxfield.com/decks/aB3_x-9/primer"
      = Some {| type := deck; id := tok |}.
Proof.
  apply (proj1 (proj2 (parseMoxfieldUrl_classifies
                         "https://www.moxfield.com/decks/aB3_x-9/primer"))).
  exists "https://www.moxfield.com", "aB3_x-9", "/primer".
  split; [reflexivity|split; [discriminate|reflexivity]].
Defined.

Example parseMoxfieldUrl_deck :
  parseMoxfieldUrl "https://www.moxfield.com/decks/aB3_x-9/primer"
  = Some {| type := deck; id := "aB3_x-9" |}.
Proof. reflexivity. Qed.

Example parseMoxfieldUrl_collection :
  parseMoxfieldUrl "https://www.moxfield.com/collection/Qw12?view=list"
  = Some {| type := collection; id := "Qw12" |}.
Proof. reflexivity. Qed.

Example parseMoxfieldUrl_both :
  parseMoxfieldUrl "https://www.moxfield.com/collection/Qw12/decks/aB3"
  = Some {| type := deck; id := "aB3" |}.
Proof. reflexivity. Qed.

Example parseMoxfieldUrl_neither :
  parseMoxfieldUrl "https://www.moxfield.com/decks/" = None.
Proof. reflexivity. Qed.

End ClassifierFacts.

(** ** Remote fetch client *)

Module FetchFacts.
Import Script Notions.

(** Normal form of a trace built by nested [bind]s. *)
Ltac trace_simpl :=
  simpl; repeat (rewrite <- ?app_assoc, ?app_nil_r; simpl).

Section Facts.
Context `{Host}.

Lemma httpGet_unfold (net : nat → string → Response) (url : string)
    (retries n : nat) :
  httpGet net url retries n =
  match net n url with
  | NetworkError => (Throw TransportError, S n, [Request url])
  | HttpResponse statusCode body =>
      if (statusCode =? 429) || (statusCode >=? 500) then
        match retries with
        | S retries' =>
            let wait := if statusCode =? 429 then 5000 else 2000 in
            let '(r, n', t) := httpGet net url retries' (S n) in
            (r, n', Request url :: Log (LogRetry statusCode wait)
                      :: Sleep wait :: t)
        | O => (Throw (RetryExhausted statusCode), S n, [Request url])
        end
      else if negb (statusCode =? 200) then
        (Throw (HttpStatus statusCode url), S n, [Request url])
      else
        match JSON_parse body with
        | Some v => (Ok v, S n, [Request url])
        | None => (Throw (MalformedResponse url), S n, [Request url])
        end
  end.
Proof.
  destruct retries; simpl; unfold bind, http_get, throw, ret, log, sleep, emit;
    destruct (net n url) as [statusCode body|]; trivial;
    destruct ((statusCode =? 429) || (statusCode >=? 500)); simpl; trivial.
  - destruct (negb (statusCode =? 200)); trivial.
    destruct (JSON_parse body); trivial.
  - destruct (httpGet net url retries (S n)) as [[r n'] t]. reflexivity.
  - destruct (negb (statusCode =? 200)); trivial.
    destruct (JSON_parse body); trivial.
Qed.

Lemma fetchPrice_skipped (net : nat → string → Response)
    (scryfallId set collectorNumber : Value) (cardName : string) (n : nat) :
  skipped scryfallId set collectorNumber = true →
  fetchPrice net scryfallId set collectorNumber cardName n
  = (Ok VNull, n, [Log (LogPriceSkipped cardName)]).
Proof. unfold fetchPrice, skipped. intros ->. reflexivity. Qed.

(** Every way an attempted price query can end. *)
Lemma fetchPrice_attempted (net : nat → string → Response)
    (scryfallId set collectorNumber : Value) (cardName : string) (n : nat) :
  skipped scryfallId set collectorNumber = false →
  fetchPrice net scryfallId set collectorNumber cardName n
  = match httpGet net (price_url scryfallId set collectorNumber)
            default_retries n with
    | (Ok data, n', t) =>
        if nullish data then
          (Ok VNull, n', t ++ [Log (LogPriceFailed cardName TypeError)])
        else if truthy (price_of data) then
          (Ok (price_of data), n',
           t ++ [Log (LogPrice cardName set (price_of data)); Sleep 100])
        else (Ok (price_of data), n', t ++ [Sleep 100])
    | (Throw e, n', t) =>
        (Ok VNull, n', t ++ [Log (LogPriceFailed cardName e)])
    end.
Proof.
  unfold fetchPrice, skipped. intros ->.
  unfold try_catch, bind at 1. fold (price_url scryfallId set collectorNumber).
  destruct (httpGet net _ default_retries n) as [[[data|e] n'] t]; [|reflexivity].
  unfold lift, get, bind, log, sleep, emit, ret.
  destruct (nullish data) eqn:Hd; [trace_simpl; reflexivity|].
  fold (price_of data).
  destruct (truthy (price_of data)); trace_simpl; reflexivity.
Qed.

(** [httpGet] issues at least one request and at most one per retry
    more, and each of them shows in the trace. *)
Lemma requests_app (t1 t2 : list Event) :
  requests (t1 ++ t2) = (requests t1 + requests t2)%nat.
Proof. unfold requests. now rewrite List.filter_app, length_app. Qed.

Lemma httpGet_requests (net : nat → string → Response) (url : string)
    (retries n : nat) :
  ∃ r n' t, httpGet net url retries n = (r, n', t)
            ∧ (n < n' ≤ n + retries + 1)%nat ∧ requests t = (n' - n)%nat.
Proof.
  revert n. induction retries as [|retries IH]; intros n;
    rewrite httpGet_unfold; destruct (net n url) as [statusCode body|];
    try destruct ((statusCode =? 429) || (statusCode >=? 500));
    try destruct (negb (statusCode =? 200));
    try destruct (JSON_parse body);
    try (eexists _, _, _; split; [reflexivity|]; split; [lia|];
         unfold requests; simpl; lia).
  all: destruct (IH (S n)) as [r [n' [t [-> [Hn Ht]]]]]; cbn zeta;
    eexists _, _, _; (split; [reflexivity|]); (split; [lia|]);
    change (Request url :: ?a :: ?b :: t) with ([Request url; a; b] ++ t);
    rewrite requests_app, Ht; unfold requests; simpl; lia.
Qed.

(** ** Price enrichment pass *)

Lemma fetchPrice_spec (net : nat → string → Response)
    (scryfallId set collectorNumber : Value) (cardName : string) (n : nat) :
  ∃ price n' t,
    fetchPrice net scryfallId set collectorNumber cardName n = (Ok price, n', t)
    ∧ (n ≤ n')%nat
    ∧ (n' ≤ n + if skipped scryfallId set collectorNumber then 0 else 3)%nat
    ∧ requests t = (n' - n)%nat
    ∧ (skipped scryfallId set collectorNumber = true →
       price = VNull ∧ t = [Log (LogPriceSkipped cardName)]).
Proof.
  destruct (skipped scryfallId set collectorNumber) eqn:Hs.
  - rewrite (fetchPrice_skipped _ _ _ _ _ _ Hs).
    eexists _, _, _. split; [reflexivity|]. unfold requests. simpl.
    repeat split; trivial; lia.
  - rewrite (fetchPrice_attempted _ _ _ _ _ _ Hs).
    destruct (httpGet_requests net (price_url scryfallId set collectorNumber)
                default_retries n) as [r [n' [t [-> [Hn Ht]]]]].
    unfold default_retries in Hn.
    destruct r as [data|e]; [destruct (nullish data);
                             [|destruct (truthy (price_of data))]|];
      (eexists _, _, _; split; [reflexivity|]);
      rewrite requests_app, Ht; unfold requests; simpl;
      repeat split; try lia; discriminate.
Qed.

Lemma price_printing_unfold (net : nat → string → Response)
    (cardName : string) (counts : Counts) (p : Printing.t) (n : nat) :
  price_printing net cardName counts p n
  = match fetchPrice net (Printing.scryfallId p) (Printing.set p)
            (Printing.collectorNumber p) cardName n with
    | (Ok price, n', t) =>
        (Ok ((fst counts + fetched_one price, S (snd counts))%nat,
             set_price price p), n', t)
    | (Throw e, n', t) => (Throw e, n', t)
    end.
Proof.
  unfold price_printing, bind.
  destruct (fetchPrice net _ _ _ cardName n) as [[[price|e] n'] t]; trivial.
  destruct price; unfold ret; simpl; rewrite app_nil_r, ?Nat.add_0_r, ?Nat.add_1_r;
    reflexivity.
Qed.

Lemma price_printing_spec (net : nat → string → Response) (cardName : string)
    (counts : Counts) (p : Printing.t) (n : nat) :
  ∃ f p' n' t,
    price_printing net cardName counts p n
    = (Ok ((fst counts + f, S (snd counts))%nat, p'), n', t)
    ∧ (f ≤ 1)%nat ∧ priced_from p p'
    ∧ (n ≤ n' ≤ n + 3 * attempted [p])%nat ∧ requests t = (n' - n)%nat
    ∧ (unpriceable p = true →
       f = 0%nat ∧ n' = n ∧ t = [Log (LogPriceSkipped cardName)]).
Proof.
  rewrite price_printing_unfold.
  destruct (fetchPrice_spec net (Printing.scryfallId p) (Printing.set p)
              (Printing.collectorNumber p) cardName n)
    as [price [n' [t [-> [Hn [Hn' [Ht Hs]]]]]]].
  exists (fetched_one price), (set_price price p), n', t.
  unfold priced_from, attempted, unpriceable in *. cbn [List.filter].
  destruct (skipped _ _ _); simpl.
  - destruct Hs as [-> ->]; trivial. simpl. rewrite Nat.add_0_r.
    repeat split; trivial; try lia. now exists VNull.
  - repeat split; trivial; try lia; try discriminate; eauto.
    destruct price; simpl; lia.
Qed.

Lemma attempted_app (l1 l2 : list Printing.t) :
  attempted (l1 ++ l2) = (attempted l1 + attempted l2)%nat.
Proof. unfold attempted. now rewrite List.filter_app, length_app. Qed.

(** A loop of the price pass over a list whose elements each hold the
    printings [prints a]: the counters, the request count and the trace add
    up, and the elements are updated in place. *)
Lemma mapAccumM_priced {A} (f : Counts → A → M (Counts * A))
    (R : A → A → Prop) (prints : A → list Printing.t) :
  (∀ counts a n, ∃ k a' n' t,
      f counts a n
      = (Ok ((fst counts + k, snd counts + length (prints a))%nat, a'), n', t)
      ∧ (k ≤ length (prints a))%nat ∧ R a a'
      ∧ (n ≤ n' ≤ n + 3 * attempted (prints a))%nat
      ∧ requests t = (n' - n)%nat) →
  ∀ l counts n, ∃ k l' n' t,
      mapAccumM f counts l n
      = (Ok ((fst counts + k,
              snd counts + length (concat (map prints l)))%nat, l'), n', t)
      ∧ (k ≤ length (concat (map prints l)))%nat ∧ Forall2 R l l'
      ∧ (n ≤ n' ≤ n + 3 * attempted (concat (map prints l)))%nat
      ∧ requests t = (n' - n)%nat.
Proof.
  intros Hf. induction l as [|a l IH]; intros counts n.
  - exists 0%nat, [], n, []. simpl. unfold ret. rewrite !Nat.add_0_r.
    destruct counts. unfold attempted, requests. simpl.
    repeat split; trivial; lia.
  - destruct (Hf counts a n) as [k [a' [n1 [t1 [Ha [Hk [HR [Hn Ht]]]]]]]].
    destruct (IH (fst counts + k, snd counts + length (prints a))%nat n1)
      as [k' [l' [n2 [t2 [Hl [Hk' [HR' [Hn' Ht']]]]]]]].
    exists (k + k')%nat, (a' :: l'), n2, (t1 ++ t2).
    cbn [mapAccumM map concat]. unfold bind at 1. rewrite Ha.
    unfold bind at 1. rewrite Hl. unfold ret. cbn [fst snd] in *.
    rewrite length_app, attempted_app, requests_app, app_nil_r.
    split; [now rewrite <- !Nat.add_assoc|].
    repeat split; trivial; try lia. now constructor.
Qed.

Lemma concat_singletons {A} (l : list A) : concat (map (λ a, [a]) l) = l.
Proof. induction l as [|a l IH]; simpl; congruence. Qed.

Lemma price_owner_spec (net : nat → string → Response) (cardName : string)
    (counts : Counts) (o : string * list Printing.t) (n : nat) :
  ∃ k o' n' t,
    price_owner net cardName counts o n
    = (Ok ((fst counts + k, snd counts + length o.2)%nat, o'), n', t)
    ∧ (k ≤ length o.2)%nat ∧ owner_priced_from o o'
    ∧ (n ≤ n' ≤ n + 3 * attempted o.2)%nat ∧ requests t = (n' - n)%nat.
Proof.
  destruct (mapAccumM_priced (price_printing net cardName) priced_from
              (λ p, [p])) with (l := o.2) (counts := counts) (n := n)
    as [k [ps' [n' [t [Hm [Hk [HR [Hn Ht]]]]]]]].
  { intros c p m.
    destruct (price_printing_spec net cardName c p m)
      as [f [p' [m' [t [-> [Hf [Hp [Hm [Ht _]]]]]]]]].
    exists f, p', m', t. rewrite Nat.add_1_r. simpl. auto. }
  rewrite concat_singletons in *.
  exists k, (o.1, ps'), n', t. unfold price_owner, bind. rewrite Hm.
  unfold ret, owner_priced_from. simpl. rewrite app_nil_r.
  repeat split; trivial; lia.
Qed.

Lemma price_card_spec (net : nat → string → Response) (counts : Counts)
    (c : string * CardAggregate.t) (n : nat) :
  let prints := concat (map snd (CardAggregate.owners c.2)) in
  ∃ k c' n' t,
    price_card net counts c n
    = (Ok ((fst counts + k, snd counts + length prints)%nat, c'), n', t)
    ∧ (k ≤ length prints)%nat ∧ card_priced_from c c'
    ∧ (n ≤ n' ≤ n + 3 * attempted prints)%nat ∧ requests t = (n' - n)%nat.
Proof.
  intros prints. subst prints.
  destruct (mapAccumM_priced (price_owner net (CardAggregate.name c.2))
              owner_priced_from snd)
    with (l := CardAggregate.owners c.2) (counts := counts) (n := n)
    as [k [os' [n' [t [Hm [Hk [HR [Hn Ht]]]]]]]].
  { intros cs o m.
    destruct (price_owner_spec net (CardAggregate.name c.2) cs o m)
      as [f [o' [m' [t [-> H']]]]]. exists f, o', m', t. auto. }
  exists k, (c.1, {| CardAggregate.name := CardAggregate.name c.2;
                     CardAggregate.owners := os' |}), n', t.
  unfold price_card, bind. rewrite Hm.
  unfold ret, card_priced_from. simpl. rewrite app_nil_r.
  repeat split; trivial; lia.
Qed.

(** The price pass always completes: it updates prices in place, counts
    every printing, and issues at most three requests for each printing it
    can query. *)
Lemma price_pass_spec (net : nat → string → Response) (cardsMap : CardsMap)
    (n : nat) :
  ∃ pricesFetched cardsMap' n' t,
    price_pass net cardsMap n
    = (Ok ((pricesFetched, length (all_printings cardsMap)), cardsMap'), n', t)
    ∧ (pricesFetched ≤ length (all_printings cardsMap))%nat
    ∧ Forall2 card_priced_from cardsMap cardsMap'
    ∧ (n ≤ n' ≤ n + 3 * attempted (all_printings cardsMap))%nat
    ∧ requests t = (n' - n)%nat.
Proof.
  destruct (mapAccumM_priced (price_card net) card_priced_from
              (λ c, concat (map snd (CardAggregate.owners c.2))))
    with (l := cardsMap) (counts := (0%nat, 0%nat)) (n := n)
    as [k [cm' [n' [t [Hm H']]]]].
  { intros cs c m. apply price_card_spec. }
  exists k, cm', n', t. unfold price_pass. now rewrite Hm.
Qed.

(** [httpGet] only ever waits 5000 or 2000 ms. *)
Lemma httpGet_sleeps (net : nat → string → Response) (url : string)
    (retries n : nat) (ms : Z) :
  In (Sleep ms) (httpGet net url retries n).2 → ms = 5000 ∨ ms = 2000.
Proof.
  revert n. induction retries as [|retries IH]; intros n;
    rewrite httpGet_unfold; destruct (net n url) as [statusCode body|];
    try destruct ((statusCode =? 429) || (statusCode >=? 500));
    try destruct (negb (statusCode =? 200));
    try destruct (JSON_parse body);
    try (simpl; intros [Hin|[]]; discriminate).
  all: specialize (IH (S n));
    destruct (httpGet net url retries (S n)) as [[r n'] t]; cbn zeta;
    simpl; intros [Hin|[Hin|[Hin|Hin]]]; try discriminate; auto;
    injection Hin as <-; destruct (statusCode =? 429); auto.
Qed.

(** The 100 ms pause of [fetchPrice] follows exactly the queries whose
    request succeeded with a document that is not null. *)
Lemma fetchPrice_pause_iff (net : nat → string → Response)
    (scryfallId set collectorNumber : Value) (cardName : string) (n : nat) :
  skipped scryfallId set collectorNumber = false →
  In (Sleep 100) (fetchPrice net scryfallId set collectorNumber cardName n).2
  ↔ ∃ data, (httpGet net (price_url scryfallId set collectorNumber)
               default_retries n).1.1 = Ok data
            ∧ nullish data = false.
Proof.
  intros Hs. rewrite (fetchPrice_attempted _ _ _ _ _ _ Hs).
  pose proof (httpGet_sleeps net (price_url scryfallId set collectorNumber)
                default_retries n 100) as Hsl.
  destruct (httpGet net _ default_retries n) as [[[data|e] n'] t]; simpl in *.
  - destruct (nullish data) eqn:Hd; [|destruct (truthy (price_of data))];
      simpl; rewrite in_app_iff; simpl.
    + split; [intros [Hin|[Hin|[]]]; [destruct (Hsl Hin)|]; discriminate|].
      intros [d [[= <-] Hd']]. congruence.
    + split; eauto.
    + split; eauto.
  - rewrite in_app_iff; simpl.
    split; [intros [Hin|[Hin|[]]]; [destruct (Hsl Hin)|]; discriminate|].
    intros [d [[=] _]].
Qed.

(** C3. With a retry budget of 2, the responses 503, 503, 200 make
    [httpGet] return the parsed body of the 200 response (a body that is
    not JSON is a malformed-response failure), and the responses 503, 503,
    503 make it fail with the retries-exhausted error that carries the last
    status code, 503.  Whenever a retry remains, a 429 response is followed
    by a 5000 ms wait and a response of 500 or more by a 2000 ms wait, and
    then by the next attempt with one retry less. *)
Theorem httpGet_retry_accounting (url b1 b2 b3 : string) :
  let waited :=
    [Request url; Log (LogRetry 503 2000); Sleep 2000;
     Request url; Log (LogRetry 503 2000); Sleep 2000; Request url] in
  httpGet (Demo.script [HttpResponse 503 b1; HttpResponse 503 b2;
                        HttpResponse 200 b3]) url default_retries 0%nat
  = (match JSON_parse b3 with
     | Some payload => Ok payload
     | None => Throw (MalformedResponse url)
     end, 3%nat, waited)
  ∧ httpGet (Demo.script [HttpResponse 503 b1; HttpResponse 503 b2;
                          HttpResponse 503 b3]) url default_retries 0%nat
    = (Throw (RetryExhausted 503), 3%nat, waited)
  ∧ (∀ net n retries body,
       net n url = HttpResponse 429 body →
       httpGet net url (S retries) n
       = let '(r, n', t) := httpGet net url retries (S n) in
         (r, n', Request url :: Log (LogRetry 429 5000) :: Sleep 5000 :: t))
  ∧ (∀ net n retries statusCode body,
       500 <= statusCode → net n url = HttpResponse statusCode body →
       httpGet net url (S retries) n
       = let '(r, n', t) := httpGet net url retries (S n) in
         (r, n', Request url :: Log (LogRetry statusCode 2000)
                   :: Sleep 2000 :: t)).
Proof.
  intros waited. split; [|split; [|split]].
  - unfold default_retries. do 3 (rewrite httpGet_unfold; cbn -[httpGet]).
    destruct (JSON_parse b3); reflexivity.
  - unfold default_retries. do 3 (rewrite httpGet_unfold; cbn -[httpGet]).
    reflexivity.
  - intros net n retries body Hnet. rewrite httpGet_unfold, Hnet. reflexivity.
  - intros net n retries statusCode body Hs Hnet.
    rewrite httpGet_unfold, Hnet.
    assert ((statusCode >=? 500) = true) as -> by lia.
    assert ((statusCode =? 429) = false) as -> by lia.
    reflexivity.
Qed.

End Facts.

(** The waits of C3 on a server that answers 429, then 500, then 200. *)
Lemma httpGet_retry_accounting_witness :
  httpGet (H := Demo.host [("{}", VObj [])])
    (Demo.script [HttpResponse 429 ""; HttpResponse 500 ""; HttpResponse 200 "{}"])
    "https://api.scryfall.com/cards/lea/1" 2%nat 0%nat
  = (Ok (VObj []), 3%nat,
     [Request "https://api.scryfall.com/cards/lea/1"; Log (LogRetry 429 5000);
      Sleep 5000;
      Request "https://api.scryfall.com/cards/lea/1"; Log (LogRetry 500 2000);
      Sleep 2000;
      Request "https://api.scryfall.com/cards/lea/1"]).
Proof.
  pose proof (httpGet_retry_accounting (H := Demo.host [("{}", VObj [])])
                "https://api.scryfall.com/cards/lea/1" "" "" "")
    as [_ [_ [H429 H5xx]]].
  rewrite (H429 _ 0%nat 1%nat "" eq_refl).
  rewrite (H5xx _ 1%nat 0%nat 500 "" ltac:(lia) eq_refl).
  reflexivity.
Defined.

(** C5, where the script departs from it: a price query that fails gets no
    pause.  The query for the printing [abc] is answered 404; [fetchPrice]
    logs the failure and returns null, and its trace holds the request and
    the log line but no 100 ms sleep.  In a pass over two printings the
    request for the second therefore follows the failed one at once, while
    the pause does follow the query that succeeded. *)
Theorem fetchPrice_failure_skips_pause :
  let printing id :=
    {| Printing.qty := VNum 1; Printing.set := VStr "lea";
       Printing.setName := VStr "Limited Edition Alpha";
       Printing.isFoil := false; Printing.collectorNumber := VStr "161";
       Printing.scryfallId := VStr id; Printing.price := Printing.null |} in
  let abc := "https://api.scryfall.com/cards/abc" in
  let def := "https://api.scryfall.com/cards/def" in
  let doc := VObj [("prices", VObj [("usd", VStr "1.50")])] in
  let body := Demo.stringify doc in
  let host := Demo.host_of [doc] in
  fetchPrice (H := host) (Demo.script [HttpResponse 404 ""])
    (VStr "abc") (VStr "lea") (VStr "161") "Lightning Bolt" 0%nat
  = (Ok VNull, 1%nat,
     [Request abc; Log (LogPriceFailed "Lightning Bolt" (HttpStatus 404 abc))])
  ∧ price_pass (H := host)
      (Demo.script [HttpResponse 404 ""; HttpResponse 200 body])
      [("lightning bolt",
        {| CardAggregate.name := "Lightning Bolt";
           CardAggregate.owners := [("Fausto", [printing "abc"; printing "def"])] |})]
      0%nat
    = (Ok ((1%nat, 2%nat),
           [("lightning bolt",
             {| CardAggregate.name := "Lightning Bolt";
                CardAggregate.owners :=
                  [("Fausto",
                    [printing "abc";
                     set_price (VStr "1.50") (printing "def")])] |})]),
       2%nat,
       [Request abc; Log (LogPriceFailed "Lightning Bolt" (HttpStatus 404 abc));
        Request def; Log (LogPrice "Lightning Bolt" (VStr "lea") (VStr "1.50"));
        Sleep 100]).
Proof. split; reflexivity. Qed.

End FetchFacts.

(** ** Aggregation engine *)

Module MergeFacts.
Import Script Notions.

(** ** Dictionaries *)

Lemma own_get_replace {V} (k k' : string) (v : V) (obj : list (string * V)) :
  own_get k' (replace k v obj)
  = if String.eqb k' k then (λ _, v) <$> own_get k obj else own_get k' obj.
Proof.
  induction obj as [|[k0 v0] obj IH]; simpl.
  - now destruct (String.eqb k' k).
  - destruct (String.eqb_spec k k0) as [->|Hk]; simpl.
    + destruct (String.eqb_spec k' k0) as [->|Hk']; reflexivity.
    + rewrite IH. destruct (String.eqb_spec k' k) as [->|Hk'].
      * destruct (String.eqb_spec k k0); [congruence|reflexivity].
      * reflexivity.
Qed.

Lemma own_get_insert_index {V} (i : Z) (k k' : string) (v : V)
    (obj : list (string * V)) :
  own_get k obj = None →
  own_get k' (insert_index i k v obj)
  = if String.eqb k' k then Some v else own_get k' obj.
Proof.
  induction obj as [|[k0 v0] obj IH]; simpl; intros Hnone.
  - reflexivity.
  - destruct (String.eqb_spec k k0) as [->|Hk]; [discriminate|].
    destruct (goes_before i k0); simpl.
    + destruct (String.eqb_spec k' k) as [->|Hk']; reflexivity.
    + rewrite (IH Hnone). destruct (String.eqb_spec k' k) as [->|Hk'].
      * destruct (String.eqb_spec k k0); [congruence|reflexivity].
      * reflexivity.
Qed.

Lemma own_get_app {V} (k k' : string) (v : V) (obj : list (string * V)) :
  own_get k obj = None →
  own_get k' (obj ++ [(k, v)])
  = if String.eqb k' k then Some v else own_get k' obj.
Proof.
  induction obj as [|[k0 v0] obj IH]; simpl; intros Hnone.
  - reflexivity.
  - destruct (String.eqb_spec k k0) as [->|Hk]; [discriminate|].
    rewrite (IH Hnone). destruct (String.eqb_spec k' k) as [->|Hk'].
    + destruct (String.eqb_spec k k0); [congruence|reflexivity].
    + reflexivity.
Qed.

(** Reading after writing. *)
Lemma own_get_set {V} (k k' : string) (v : V) (obj : list (string * V)) :
  own_get k' (obj_set k v obj)
  = if String.eqb k' k then Some v else own_get k' obj.
Proof.
  unfold obj_set. destruct (own_get k obj) as [v0|] eqn:Hget.
  - rewrite own_get_replace, Hget. reflexivity.
  - destruct (array_index k) as [i|].
    + now apply own_get_insert_index.
    + now apply own_get_app.
Qed.

Lemma own_get_set_eq {V} (k : string) (v : V) (obj : list (string * V)) :
  own_get k (obj_set k v obj) = Some v.
Proof. now rewrite own_get_set, String.eqb_refl. Qed.

Lemma own_get_set_ne {V} (k k' : string) (v : V) (obj : list (string * V)) :
  k ≠ k' → own_get k' (obj_set k v obj) = own_get k' obj.
Proof.
  intros Hne. rewrite own_get_set.
  destruct (String.eqb_spec k' k); congruence.
Qed.

Lemma Forall_obj_set {V} (P : string * V → Prop) (k : string) (v : V)
    (obj : list (string * V)) :
  Forall P obj → P (k, v) → Forall P (obj_set k v obj).
Proof.
  intros Hall Hv. unfold obj_set.
  destruct (own_get k obj); [|destruct (array_index k) as [i|]].
  - induction Hall as [|[k' v'] obj Hx Hall IH]; simpl; [constructor|].
    destruct (String.eqb k k'); constructor; auto.
  - induction Hall as [|[k' v'] obj Hx Hall IH]; simpl.
    + constructor; [exact Hv|constructor].
    + destruct (goes_before i k'); constructor; auto.
  - apply Forall_app. split; [exact Hall|]. constructor; [exact Hv|constructor].
Qed.

Lemma replace_keys {V} (k : string) (v : V) (obj : list (string * V)) :
  (replace k v obj).*1 = obj.*1.
Proof.
  induction obj as [|[k' v'] obj IH]; cbn [replace]; [reflexivity|].
  destruct (String.eqb_spec k k') as [->|Hk]; rewrite !fmap_cons;
    [reflexivity|].
  now rewrite IH.
Qed.

Lemma insert_index_keys {V} (i : Z) (k : string) (v : V)
    (obj : list (string * V)) :
  (insert_index i k v obj).*1 ≡ₚ k :: obj.*1.
Proof.
  induction obj as [|[k' v'] obj IH]; cbn [insert_index]; [reflexivity|].
  destruct (goes_before i k'); rewrite !fmap_cons; [reflexivity|].
  rewrite IH. apply Permutation_swap.
Qed.

Lemma own_get_None_keys {V} (k : string) (obj : list (string * V)) :
  own_get k obj = None ↔ k ∉ obj.*1.
Proof.
  induction obj as [|[k' v'] obj IH]; cbn [own_get].
  - split; [intros _; apply not_elem_of_nil|trivial].
  - rewrite fmap_cons, not_elem_of_cons. cbn [fst].
    destruct (String.eqb_spec k k') as [->|Hk].
    + split; [discriminate|]. intros [Hne _]. now elim Hne.
    + rewrite IH. tauto.
Qed.

(** The own keys after writing: an existing key keeps the list as it
    is, a new one joins it. *)
Lemma obj_set_keys {V} (k : string) (v : V) (obj : list (string * V)) :
  (obj_set k v obj).*1
  ≡ₚ if decide (k ∈ obj.*1) then obj.*1 else k :: obj.*1.
Proof.
  unfold obj_set. destruct (own_get k obj) as [v0|] eqn:Hget.
  - rewrite replace_keys.
    destruct (decide (k ∈ obj.*1)) as [_|Hn]; [reflexivity|].
    apply own_get_None_keys in Hn. congruence.
  - pose proof (proj1 (own_get_None_keys k obj) Hget) as Hn.
    destruct (decide (k ∈ obj.*1)) as [Hin|_]; [now elim Hn|].
    destruct (array_index k) as [i|].
    + apply insert_index_keys.
    + rewrite fmap_app. simpl. symmetry. apply Permutation_cons_append.
Qed.

Lemma NoDup_obj_set {V} (k : string) (v : V) (obj : list (string * V)) :
  NoDup obj.*1 → NoDup (obj_set k v obj).*1.
Proof.
  intros Hnd. rewrite obj_set_keys.
  destruct (decide (k ∈ obj.*1)); [exact Hnd|]. now apply NoDup_cons.
Qed.

Lemma own_get_NoDup {V} (k : string) (v : V) (obj : list (string * V)) :
  NoDup obj.*1 → In (k, v) obj → own_get k obj = Some v.
Proof.
  induction obj as [|[k' v'] obj IH]; cbn [own_get]; [intros _ []|].
  rewrite fmap_cons. cbn [fst].
  intros [Hk Hnd]%NoDup_cons [[= -> ->]|Hin].
  - now rewrite String.eqb_refl.
  - destruct (String.eqb_spec k k') as [->|_]; [|now apply IH].
    elim Hk. apply list_elem_of_fmap. exists (k', v).
    split; [reflexivity|]. now apply list_elem_of_In.
Qed.

Lemma own_get_In {V} (k : string) (v : V) (obj : list (string * V)) :
  own_get k obj = Some v → In (k, v) obj.
Proof.
  induction obj as [|[k' v'] obj IH]; simpl; [discriminate|].
  destruct (String.eqb_spec k k') as [->|Hk];
    [intros [= ->]; now left | intros Hget; right; auto].
Qed.

(** A key that is no member of [Object.prototype] is found among the own
    properties or not at all. *)
Lemma obj_get_plain {V} (k : string) (obj : list (string * V)) :
  proto_member k = false →
  obj_get k obj = match own_get k obj with
                  | Some v => Own v
                  | None => Missing
                  end.
Proof. intros Hk. unfold obj_get. now rewrite Hk. Qed.


Lemma strict_eq_eq (a b : Value) : strict_eq a b = true → a = b.
Proof.
  destruct a, b; simpl; try discriminate; trivial.
  - intros E. f_equal. now apply Bool.eqb_prop.
  - intros E. f_equal. lia.
  - intros E. f_equal. now apply String.eqb_eq.
Qed.

Lemma strict_eq_sym (a b : Value) : strict_eq a b = strict_eq b a.
Proof.
  destruct a, b; simpl; trivial.
  - now destruct b, b0.
  - apply Z.eqb_sym.
  - apply String.eqb_sym.
Qed.

(** A value that is not [===] to itself is [===] to nothing. *)
Lemma strict_eq_never (a b : Value) :
  strict_eq a a = false → strict_eq b a = false.
Proof.
  destruct a; simpl; try (now destruct b).
  - now destruct b0.
  - rewrite Z.eqb_refl. discriminate.
  - rewrite String.eqb_refl. discriminate.
Qed.

(** ** Sums of doubles *)

Lemma two53_lt_infinity : two53 < infinity.
Proof. vm_compute. reflexivity. Qed.

Lemma double_add_exact (x y : Z) :
  Z.abs x + Z.abs y <= two53 → double_add x y = VNum (x + y).
Proof.
  intros Hb. pose proof two53_lt_infinity as Hinf.
  unfold double_add, is_infinity, round_double.
  destruct (Z.leb_spec infinity (Z.abs x)); [lia|].
  destruct (Z.leb_spec infinity (Z.abs y)); [lia|].
  destruct (Z.leb_spec (Z.abs (x + y)) two53); [reflexivity|lia].
Qed.

Lemma plus_exact (x y : Z) :
  Z.abs x + Z.abs y <= two53 → plus (VNum x) (VNum y) = VNum (x + y).
Proof. intros Hb. cbn [plus ToPrimitive number_of_prim]. now apply double_add_exact. Qed.

Lemma merge_printing_pass_eq (card : RawCardEntry.t) (ps : list Printing.t) :
  merge_printing card ps = merge_printing_pass card ps.
Proof.
  unfold merge_printing. induction ps as [|p ps IH]; simpl; trivial.
  destruct (decide (same_printing card p = true)) as [E|E].
  - now rewrite E.
  - apply not_true_is_false in E. rewrite E, <- IH.
    destruct (list_find _ ps) as [[i q]|]; reflexivity.
Qed.

Section Facts.
Context `{Host}.

(** ** The loop body and what it raises *)

(** Whenever the loop body returns, it returns [merged]. *)
Lemma merge_card_ok (owner : string) (cardsMap cardsMap' : CardsMap)
    (card : RawCardEntry.t) :
  merge_card owner cardsMap card = Ok cardsMap' →
  cardsMap' = merged owner cardsMap card.
Proof.
  unfold merge_card, merged, obj_get.
  destruct (own_get (toLowerCase (RawCardEntry.name card)) cardsMap)
    as [e|]; simpl.
  - destruct (own_get owner (CardAggregate.owners e)) as [ps|]; simpl;
      [now intros [= <-]|].
    destruct (proto_member owner); [discriminate|now intros [= <-]].
  - destruct (proto_member (toLowerCase (RawCardEntry.name card)));
      [discriminate|]. simpl.
    destruct (proto_member owner); [discriminate|now intros [= <-]].
Qed.

(** It returns when neither the key nor the owner is a member of
    [Object.prototype]. *)
Lemma merge_card_clean (owner : string) (cardsMap : CardsMap)
    (card : RawCardEntry.t) :
  clean (owner, card) = true →
  merge_card owner cardsMap card = Ok (merged owner cardsMap card).
Proof.
  unfold clean. cbn [fst snd]. intros [Hk Ho]%andb_true_iff.
  apply negb_true_iff in Hk, Ho.
  unfold merge_card, merged. rewrite (obj_get_plain _ cardsMap Hk).
  destruct (own_get _ cardsMap) as [e|]; cbn zeta.
  - rewrite (obj_get_plain _ (CardAggregate.owners e) Ho).
    now destruct (own_get owner (CardAggregate.owners e)).
  - cbn [CardAggregate.owners]. rewrite (obj_get_plain owner [] Ho).
    reflexivity.
Qed.

Lemma merge_cards_ok (owner : string) (cards : list RawCardEntry.t)
    (cardsMap cardsMap' : CardsMap) :
  merge_cards owner cardsMap cards = Ok cardsMap' →
  cardsMap' = merge_all (merged_for owner cards) cardsMap.
Proof.
  unfold merge_all, merged_for. revert cardsMap.
  induction cards as [|c cards IH]; intros cm; simpl.
  - now intros [= <-].
  - destruct (merge_card owner cm c) as [cm1|e] eqn:Hc; [|discriminate].
    apply merge_card_ok in Hc as ->. apply IH.
Qed.

Lemma merge_cards_clean (owner : string) (cards : list RawCardEntry.t)
    (cardsMap : CardsMap) :
  forallb clean (merged_for owner cards) = true →
  merge_cards owner cardsMap cards
  = Ok (merge_all (merged_for owner cards) cardsMap).
Proof.
  unfold merge_all, merged_for. revert cardsMap.
  induction cards as [|c cards IH]; intros cm; simpl; [reflexivity|].
  intros [Hc Hrest]%andb_true_iff.
  rewrite (merge_card_clean owner cm c Hc). now apply IH.
Qed.

Lemma merge_all_app (ops1 ops2 : list Merged) (cardsMap : CardsMap) :
  merge_all (ops1 ++ ops2) cardsMap = merge_all ops2 (merge_all ops1 cardsMap).
Proof. unfold merge_all. apply fold_left_app. Qed.

Lemma merge_lists_ok (fetched : list (string * list RawCardEntry.t))
    (cardsMap cardsMap' : CardsMap) :
  merge_lists fetched cardsMap = Ok cardsMap' →
  cardsMap' = merge_all (entries_of fetched) cardsMap.
Proof.
  unfold entries_of. revert cardsMap.
  induction fetched as [|[o cards] fetched IH]; intros cm; simpl.
  - now intros [= <-].
  - destruct (merge_cards o cm cards) as [cm1|e] eqn:Hc; [|discriminate].
    apply merge_cards_ok in Hc as ->. rewrite merge_all_app. apply IH.
Qed.

Lemma merge_lists_clean (fetched : list (string * list RawCardEntry.t))
    (cardsMap : CardsMap) :
  forallb clean (entries_of fetched) = true →
  merge_lists fetched cardsMap = Ok (merge_all (entries_of fetched) cardsMap).
Proof.
  unfold entries_of. revert cardsMap.
  induction fetched as [|[o cards] fetched IH]; intros cm; simpl;
    [reflexivity|].
  rewrite forallb_app. intros [Hc Hrest]%andb_true_iff.
  rewrite (merge_cards_clean o cards cm Hc), merge_all_app. now apply IH.
Qed.

Lemma merge_lists_app (f1 f2 : list (string * list RawCardEntry.t))
    (cardsMap : CardsMap) :
  merge_lists (f1 ++ f2) cardsMap
  = match merge_lists f1 cardsMap with
    | Ok cardsMap1 => merge_lists f2 cardsMap1
    | Throw e => Throw e
    end.
Proof.
  revert cardsMap. induction f1 as [|[o cards] f1 IH]; intros cm; simpl;
    [reflexivity|].
  destruct (merge_cards o cm cards); [apply IH|reflexivity].
Qed.

Lemma entries_of_app (f1 f2 : list (string * list RawCardEntry.t)) :
  entries_of (f1 ++ f2) = entries_of f1 ++ entries_of f2.
Proof. unfold entries_of. apply flat_map_app. Qed.

(** From an aggregate whose keys are plain, the loop body raises exactly
    on the entries whose key or owner is a member of [Object.prototype],
    and what it raises is a type error. *)
Lemma merged_plain (owner : string) (cardsMap : CardsMap)
    (card : RawCardEntry.t) :
  plain_keys cardsMap → clean (owner, card) = true →
  plain_keys (merged owner cardsMap card).
Proof.
  unfold clean, plain_keys. cbn [fst snd].
  intros Hall [Hk Ho]%andb_true_iff. apply negb_true_iff in Hk, Ho.
  unfold merged. apply Forall_obj_set; [exact Hall|]. cbn [fst snd].
  split; [exact Hk|]. cbn [CardAggregate.owners].
  apply Forall_obj_set; [|exact Ho].
  destruct (own_get _ cardsMap) as [e|] eqn:Hget; [|constructor].
  apply own_get_In in Hget.
  exact (proj2 (proj1 (List.Forall_forall _ _) Hall _ Hget)).
Qed.

Lemma merge_card_outcome (owner : string) (cardsMap : CardsMap)
    (card : RawCardEntry.t) :
  plain_keys cardsMap →
  merge_card owner cardsMap card
  = if clean (owner, card) then Ok (merged owner cardsMap card)
    else Throw TypeError.
Proof.
  intros Hall. destruct (clean (owner, card)) eqn:Hc;
    [now apply merge_card_clean|].
  unfold clean in Hc. cbn [fst snd] in Hc.
  unfold merge_card, obj_get.
  destruct (own_get (toLowerCase (RawCardEntry.name card)) cardsMap)
    as [e|] eqn:Hget.
  - apply own_get_In in Hget.
    destruct (proj1 (List.Forall_forall _ _) Hall _ Hget) as [Hk Ho].
    cbn [fst snd] in Hk, Ho. rewrite Hk in Hc. cbn [negb andb] in Hc.
    apply negb_false_iff in Hc.
    destruct (own_get owner (CardAggregate.owners e)) as [ps|] eqn:Hown.
    + apply own_get_In in Hown.
      pose proof (proj1 (List.Forall_forall _ _) Ho _ Hown) as Hp.
      cbn [fst] in Hp. congruence.
    + now rewrite Hc.
  - destruct (proto_member (toLowerCase (RawCardEntry.name card)));
      [reflexivity|].
    cbn [negb andb] in Hc. apply negb_false_iff in Hc.
    cbn [CardAggregate.owners own_get]. now rewrite Hc.
Qed.

Lemma merge_all_plain (ops : list Merged) (cardsMap : CardsMap) :
  plain_keys cardsMap → forallb clean ops = true →
  plain_keys (merge_all ops cardsMap).
Proof.
  unfold merge_all. revert cardsMap.
  induction ops as [|[o c] ops IH]; intros cm Hall; simpl; [trivial|].
  intros [Hc Hrest]%andb_true_iff. apply IH; [|exact Hrest].
  now apply merged_plain.
Qed.

Lemma merge_cards_outcome (owner : string) (cards : list RawCardEntry.t)
    (cardsMap : CardsMap) :
  plain_keys cardsMap →
  merge_cards owner cardsMap cards
  = if forallb clean (merged_for owner cards)
    then Ok (merge_all (merged_for owner cards) cardsMap)
    else Throw TypeError.
Proof.
  unfold merge_all, merged_for. revert cardsMap.
  induction cards as [|c cards IH]; intros cm Hall; simpl; [reflexivity|].
  rewrite (merge_card_outcome owner cm c Hall).
  destruct (clean (owner, c)) eqn:Hc; [|reflexivity]. simpl.
  apply IH. now apply merged_plain.
Qed.

Lemma merge_lists_outcome (fetched : list (string * list RawCardEntry.t))
    (cardsMap : CardsMap) :
  plain_keys cardsMap →
  merge_lists fetched cardsMap
  = if forallb clean (entries_of fetched)
    then Ok (merge_all (entries_of fetched) cardsMap)
    else Throw TypeError.
Proof.
  unfold entries_of. revert cardsMap.
  induction fetched as [|[o cards] fetched IH]; intros cm Hall; simpl;
    [reflexivity|].
  rewrite (merge_cards_outcome o cards cm Hall), forallb_app. cbn [fst snd].
  destruct (forallb clean (merged_for o cards)) eqn:Hc; [|reflexivity].
  simpl. rewrite merge_all_app. apply IH. now apply merge_all_plain.
Qed.

(** ** The printings of one owner under one key *)

(** The merge step only touches the printings of the card's key and of
    the owner it runs for. *)
Lemma printings_of_merged (owner : string) (cardsMap : CardsMap)
    (card : RawCardEntry.t) (key' owner' : string) :
  printings_of (merged owner cardsMap card) key' owner'
  = if String.eqb (toLowerCase (RawCardEntry.name card)) key'
       && String.eqb owner owner'
    then merge_printing card (printings_of cardsMap key' owner')
    else printings_of cardsMap key' owner'.
Proof.
  unfold merged, printings_of.
  destruct (String.eqb_spec (toLowerCase (RawCardEntry.name card)) key')
    as [<-|Hk]; simpl.
  - rewrite own_get_set_eq. simpl.
    destruct (String.eqb_spec owner owner') as [<-|Ho].
    + rewrite own_get_set_eq.
      destruct (own_get _ cardsMap) as [e|]; reflexivity.
    + rewrite own_get_set_ne by trivial.
      destruct (own_get _ cardsMap) as [e|]; reflexivity.
  - now rewrite own_get_set_ne.
Qed.

Lemma printings_of_merge_all (ops : list Merged) (cardsMap : CardsMap)
    (key owner : string) :
  printings_of (merge_all ops cardsMap) key owner
  = fold_left (λ ps e, merge_printing e ps) (entries_for owner key ops)
      (printings_of cardsMap key owner).
Proof.
  unfold merge_all, entries_for. revert cardsMap.
  induction ops as [|[o card] ops IH]; intros cm; simpl; [reflexivity|].
  rewrite IH, printings_of_merged.
  destruct (String.eqb _ key && String.eqb o owner); reflexivity.
Qed.

Lemma qtys_merge_printing_hit (card : RawCardEntry.t) (s : Value) (f : bool)
    (ps : list Printing.t) :
  strict_eq (RawCardEntry.set card) s && Bool.eqb (RawCardEntry.isFoil card) f
  = true →
  qtys s f (merge_printing card ps) = bump (RawCardEntry.qty card) (qtys s f ps).
Proof.
  intros Hm. rewrite merge_printing_pass_eq. unfold qtys.
  pose proof Hm as Hm'. apply andb_true_iff in Hm' as [Hs Hf].
  apply strict_eq_eq in Hs. apply Bool.eqb_prop in Hf.
  assert (∀ p, same_printing card p = is_printing s f p) as Hsame
    by (intros p; unfold same_printing, is_printing; now rewrite Hs, Hf).
  induction ps as [|p ps IH]; simpl.
  - unfold is_printing. simpl. now rewrite Hm.
  - rewrite Hsame. destruct (is_printing s f p) eqn:Hp; simpl.
    + unfold is_printing in *. simpl. now rewrite Hp.
    + now rewrite Hp.
Qed.

Lemma qtys_merge_printing_miss (card : RawCardEntry.t) (s : Value) (f : bool)
    (ps : list Printing.t) :
  strict_eq (RawCardEntry.set card) s && Bool.eqb (RawCardEntry.isFoil card) f
  = false →
  qtys s f (merge_printing card ps) = qtys s f ps.
Proof.
  intros Hm. rewrite merge_printing_pass_eq. unfold qtys.
  induction ps as [|p ps IH]; simpl.
  - unfold is_printing. simpl. now rewrite Hm.
  - destruct (same_printing card p) eqn:Hp; simpl.
    + unfold same_printing in Hp. apply andb_true_iff in Hp as [Hs Hf].
      apply strict_eq_eq in Hs. apply Bool.eqb_prop in Hf.
      unfold is_printing. simpl. now rewrite Hs, Hf, Hm.
    + destruct (is_printing s f p); simpl; now rewrite IH.
Qed.

Lemma qtys_merged (owner : string) (cardsMap : CardsMap)
    (card : RawCardEntry.t) (key' owner' : string) (s : Value) (f : bool) :
  qtys s f (printings_of (merged owner cardsMap card) key' owner')
  = if is_entry owner' key' s f (owner, card)
    then bump (RawCardEntry.qty card) (qtys s f (printings_of cardsMap key' owner'))
    else qtys s f (printings_of cardsMap key' owner').
Proof.
  rewrite printings_of_merged. unfold is_entry. simpl.
  rewrite (andb_comm (String.eqb owner owner')), <- !andb_assoc.
  destruct (String.eqb _ key'); simpl; trivial.
  destruct (String.eqb owner owner'); simpl; trivial.
  destruct (strict_eq _ s && Bool.eqb _ f) eqn:Hm.
  - now apply qtys_merge_printing_hit.
  - now apply qtys_merge_printing_miss.
Qed.

Lemma qtys_merge_all (ops : list Merged) (cardsMap : CardsMap)
    (key owner : string) (s : Value) (f : bool) :
  qtys s f (printings_of (merge_all ops cardsMap) key owner)
  = fold_left (λ acc q, bump q acc)
      (map (λ op, RawCardEntry.qty op.2)
         (List.filter (is_entry owner key s f) ops))
      (qtys s f (printings_of cardsMap key owner)).
Proof.
  revert cardsMap. induction ops as [|[o card] ops IH]; intros cm; simpl; trivial.
  unfold merge_all in *. simpl. rewrite IH, qtys_merged.
  destruct (is_entry owner key s f (o, card)); reflexivity.
Qed.

Lemma fold_bump (qs : list Value) (x : Value) :
  fold_left (λ acc q, bump q acc) qs [x] = [fold_left plus qs x].
Proof. revert x. induction qs as [|q qs IH]; intros x; simpl; auto. Qed.

(** Merging from the empty aggregate: the printings of one set and foil
    status in an owner's list number one when an entry was merged for them
    and none otherwise, and the quantity of that printing is the sum of
    the entries' quantities. *)
Lemma merge_all_qtys (ops : list Merged) (key owner : string) (s : Value)
    (f : bool) :
  qtys s f (printings_of (merge_all ops []) key owner)
  = match total_qty (map (λ op, RawCardEntry.qty op.2)
                       (List.filter (is_entry owner key s f) ops)) with
    | Some q => [q]
    | None => []
    end.
Proof.
  rewrite qtys_merge_all. change (qtys s f (printings_of [] key owner)) with (@nil Value).
  destruct (map _ _) as [|q qs]; simpl; trivial. apply fold_bump.
Qed.

Lemma filter_singleton_qty (s : Value) (f : bool) (ps : list Printing.t)
    (q : Value) :
  qtys s f ps = [q] →
  ∃ p, List.filter (is_printing s f) ps = [p] ∧ Printing.qty p = q.
Proof.
  unfold qtys. destruct (List.filter _ ps) as [|p [|p' l]]; try discriminate.
  intros [= <-]. eauto.
Qed.

(** C1. Two entries among the lists the merge loop has merged, fetched
    for one owner with the same lowercased name, the same set and the same
    foil status, and no third entry like them: the owner's list for that
    card holds exactly one printing of that set and foil status, and its
    quantity is what [+=] makes of the two entries' quantities, which is
    their integer sum when both are integers whose magnitudes add up to at
    most 2^53.  But the loop does not get that far on every pair: on two
    copies of a card named Constructor it raises a type error at the first
    copy, and no printing results. *)
Theorem equal_printings_are_summed :
  (∀ (fetched : list (string * list RawCardEntry.t)) (cardsMap : CardsMap)
     (owner : string) (e1 e2 : RawCardEntry.t),
     let key := toLowerCase (RawCardEntry.name e1) in
     let s := RawCardEntry.set e1 in
     let f := RawCardEntry.isFoil e1 in
     merge_lists fetched [] = Ok cardsMap →
     toLowerCase (RawCardEntry.name e2) = key →
     strict_eq (RawCardEntry.set e2) s = true →
     RawCardEntry.isFoil e2 = f →
     List.filter (is_entry owner key s f) (entries_of fetched)
     = [(owner, e1); (owner, e2)] →
     ∃ p,
       List.filter (is_printing s f) (printings_of cardsMap key owner) = [p]
       ∧ Printing.qty p = plus (RawCardEntry.qty e1) (RawCardEntry.qty e2)
       ∧ ∀ q1 q2,
           RawCardEntry.qty e1 = VNum q1 → RawCardEntry.qty e2 = VNum q2 →
           Z.abs q1 + Z.abs q2 <= two53 →
           Printing.qty p = VNum (q1 + q2))
  ∧ merge_lists (H := Demo.host [])
      [("Fausto", [Demo.entry "Constructor" 1 "lea" false;
                   Demo.entry "Constructor" 2 "lea" false])] []
    = Throw TypeError.
Proof.
  split; [|reflexivity].
  intros fetched cardsMap owner e1 e2 key s f Hrun _ _ _ Hops.
  apply merge_lists_ok in Hrun as ->.
  pose proof (merge_all_qtys (entries_of fetched) key owner s f) as Hq.
  rewrite Hops in Hq.
  simpl in Hq. apply filter_singleton_qty in Hq as [p [Hp Hqty]].
  exists p. split; [exact Hp|]. split; [exact Hqty|].
  intros q1 q2 H1 H2 Hb. rewrite Hqty, H1, H2. now apply plus_exact.
Qed.

Lemma filter_In_nonempty {A} (P : A → bool) (l : list A) (a : A) :
  In a l → P a = true → List.filter P l ≠ [].
Proof.
  intros Hin HP Hnil. assert (In a (List.filter P l)) as Hf
    by (apply filter_In; auto). now rewrite Hnil in Hf.
Qed.

Lemma merged_entry_has_printing (ops : list Merged) (owner : string)
    (e : RawCardEntry.t) :
  let key := toLowerCase (RawCardEntry.name e) in
  let s := RawCardEntry.set e in
  let f := RawCardEntry.isFoil e in
  In (owner, e) ops → strict_eq s s = true →
  ∃ p,
    List.filter (is_printing s f) (printings_of (merge_all ops []) key owner)
    = [p]
    ∧ Some (Printing.qty p)
      = total_qty (map (λ op, RawCardEntry.qty op.2)
                     (List.filter (is_entry owner key s f) ops)).
Proof.
  intros key s f Hin Hs. subst key s f.
  pose proof (merge_all_qtys ops (toLowerCase (RawCardEntry.name e)) owner
                (RawCardEntry.set e) (RawCardEntry.isFoil e)) as Hq.
  assert (is_entry owner (toLowerCase (RawCardEntry.name e))
            (RawCardEntry.set e) (RawCardEntry.isFoil e) (owner, e) = true)
    as He.
  { unfold is_entry. simpl.
    now rewrite !String.eqb_refl, Hs, Bool.eqb_reflx. }
  pose proof (filter_In_nonempty _ _ _ Hin He) as Hne.
  destruct (List.filter (is_entry owner _ _ _) ops) as [|op l];
    [now elim Hne|].
  simpl in Hq. apply filter_singleton_qty in Hq as [p [Hp Hqty]].
  exists p. split; trivial. simpl. now rewrite Hqty.
Qed.

(** ** Where an entry lands *)

Lemma landing_cases (card : RawCardEntry.t) (ps : list Printing.t) :
  (∃ p, ps !! landing card ps = Some p ∧ same_printing card p = true
        ∧ merge_printing card ps
          = <[landing card ps := add_qty (RawCardEntry.qty card) p]> ps)
  ∨ (landing card ps = length ps
     ∧ Forall (λ p, same_printing card p = false) ps
     ∧ merge_printing card ps = ps ++ [new_printing card]).
Proof.
  unfold landing, merge_printing.
  destruct (list_find _ ps) as [[i p]|] eqn:Hfind.
  - left. apply list_find_Some in Hfind as [Hi [Hp _]]. eauto.
  - right. apply list_find_None in Hfind. split; [reflexivity|].
    split; [|reflexivity].
    eapply List.Forall_impl; [|exact Hfind].
    intros p Hp. now apply not_true_is_false.
Qed.

(** The printing an entry lands in carries the entry's set and foil
    status. *)
Lemma merge_printing_at (card : RawCardEntry.t) (ps : list Printing.t) :
  ∃ p,
    merge_printing card ps !! landing card ps = Some p
    ∧ Printing.set p = RawCardEntry.set card
    ∧ Printing.isFoil p = RawCardEntry.isFoil card
    ∧ (strict_eq (RawCardEntry.set card) (RawCardEntry.set card) = false →
       p = new_printing card).
Proof.
  destruct (landing_cases card ps) as [[p [Hi [Hp ->]]]|[Hl [Hall ->]]].
  - exists (add_qty (RawCardEntry.qty card) p).
    split; [apply list_lookup_insert_eq; eapply lookup_lt_Some; eauto|].
    unfold same_printing in Hp. apply andb_true_iff in Hp as [Hs Hf].
    pose proof Hs as Hs'.
    apply strict_eq_eq in Hs. apply Bool.eqb_prop in Hf. simpl.
    split; [exact Hs|]. split; [exact Hf|]. intros Hnever.
    rewrite (strict_eq_never _ (Printing.set p) Hnever) in Hs'. discriminate.
  - exists (new_printing card). rewrite Hl.
    split; [|auto].
    rewrite lookup_app_r by lia. now rewrite Nat.sub_diag.
Qed.

(** Every printing keeps its place, its set and its foil status, and it is
    left as it is unless the entry lands in it. *)
Lemma merge_printing_keeps (card : RawCardEntry.t) (ps : list Printing.t)
    (k : nat) (p : Printing.t) :
  ps !! k = Some p →
  ∃ p',
    merge_printing card ps !! k = Some p'
    ∧ Printing.set p' = Printing.set p
    ∧ Printing.isFoil p' = Printing.isFoil p
    ∧ (k ≠ landing card ps → p' = p)
    ∧ (same_printing card p = false → p' = p).
Proof.
  intros Hk.
  destruct (landing_cases card ps) as [[p0 [Hi [Hp ->]]]|[Hl [Hall ->]]].
  - destruct (decide (k = landing card ps)) as [->|Hne].
    + assert (p0 = p) as -> by congruence.
      exists (add_qty (RawCardEntry.qty card) p).
      split; [apply list_lookup_insert_eq; eapply lookup_lt_Some; eauto|].
      split; [reflexivity|]. split; [reflexivity|].
      split; [congruence|]. rewrite Hp. discriminate.
    + exists p. rewrite list_lookup_insert_ne by congruence. auto.
  - exists p. rewrite lookup_app_l by (eapply lookup_lt_Some; eauto). auto.
Qed.

Lemma same_printing_details (card : RawCardEntry.t) (p p' : Printing.t) :
  Printing.set p' = Printing.set p → Printing.isFoil p' = Printing.isFoil p →
  same_printing card p' = same_printing card p.
Proof. unfold same_printing. now intros -> ->. Qed.

Lemma merge_loop_keeps (es : list RawCardEntry.t) (ps : list Printing.t)
    (k : nat) (p : Printing.t) :
  ps !! k = Some p →
  ∃ p',
    fold_left (λ ps e, merge_printing e ps) es ps !! k = Some p'
    ∧ Printing.set p' = Printing.set p
    ∧ Printing.isFoil p' = Printing.isFoil p
    ∧ (Forall (λ e, same_printing e p = false) es → p' = p).
Proof.
  revert ps p. induction es as [|e es IH]; intros ps p Hk; simpl.
  - exists p. auto.
  - destruct (merge_printing_keeps e ps k p Hk) as [p1 [Hk1 [Hs1 [Hf1 [_ Hq1]]]]].
    destruct (IH _ _ Hk1) as [p2 [Hk2 [Hs2 [Hf2 Hq2]]]].
    exists p2. split; [exact Hk2|]. split; [congruence|]. split; [congruence|].
    intros Hall. apply Forall_cons in Hall as [He Hes].
    rewrite <- (Hq1 He). apply Hq2.
    eapply List.Forall_impl; [|exact Hes]. intros e' He'.
    now rewrite (same_printing_details e' p p1).
Qed.

(** An entry merged after another one of a different set or foil status
    lands in another printing. *)
Lemma later_entry_lands_apart (pre mid post : list RawCardEntry.t)
    (e1 e2 : RawCardEntry.t) :
  strict_eq (RawCardEntry.set e1) (RawCardEntry.set e2) = false
  ∨ RawCardEntry.isFoil e1 ≠ RawCardEntry.isFoil e2 →
  let final :=
    fold_left (λ ps e, merge_printing e ps)
      (pre ++ e1 :: mid ++ e2 :: post) [] in
  ∃ i j p1 p2,
    i ≠ j ∧ final !! i = Some p1 ∧ final !! j = Some p2
    ∧ Printing.set p1 = RawCardEntry.set e1
    ∧ Printing.isFoil p1 = RawCardEntry.isFoil e1
    ∧ Printing.set p2 = RawCardEntry.set e2
    ∧ Printing.isFoil p2 = RawCardEntry.isFoil e2
    ∧ (strict_eq (RawCardEntry.set e1) (RawCardEntry.set e1) = false →
       Printing.qty p1 = RawCardEntry.qty e1)
    ∧ (strict_eq (RawCardEntry.set e2) (RawCardEntry.set e2) = false →
       Printing.qty p2 = RawCardEntry.qty e2).
Proof.
  intros Hdiff final. subst final.
  rewrite fold_left_app. cbn [fold_left]. rewrite fold_left_app.
  cbn [fold_left].
  set (ps0 := fold_left (λ ps e, merge_printing e ps) pre []).
  set (ps1 := merge_printing e1 ps0).
  destruct (merge_printing_at e1 ps0) as [a [Ha [Has [Haf Hanew]]]].
  fold ps1 in Ha.
  set (ps2 := fold_left (λ ps e, merge_printing e ps) mid ps1).
  destruct (merge_loop_keeps mid ps1 _ a Ha) as [b [Hb [Hbs [Hbf Hbq]]]].
  fold ps2 in Hb.
  set (ps3 := merge_printing e2 ps2).
  destruct (merge_printing_at e2 ps2) as [c [Hc [Hcs [Hcf Hcnew]]]].
  fold ps3 in Hc.
  assert (same_printing e2 b = false) as Hsame.
  { unfold same_printing. rewrite Hbs, Hbf, Has, Haf.
    destruct Hdiff as [-> | Hf]; [reflexivity|].
    destruct (strict_eq (RawCardEntry.set e1) (RawCardEntry.set e2));
      [|reflexivity]. simpl.
    now destruct (RawCardEntry.isFoil e1), (RawCardEntry.isFoil e2). }
  assert (landing e1 ps0 ≠ landing e2 ps2) as Hne.
  { intros E.
    destruct (landing_cases e2 ps2) as [[p0 [Hi [Hp _]]]|[Hl _]].
    - rewrite <- E in Hi. congruence.
    - apply lookup_lt_Some in Hb. lia. }
  destruct (merge_printing_keeps e2 ps2 _ b Hb) as [b' [Hb' [Hbs' [Hbf' [_ Hbq']]]]].
  fold ps3 in Hb'. rewrite (Hbq' Hsame) in Hb'. clear b' Hbs' Hbf' Hbq'.
  destruct (merge_loop_keeps post ps3 _ b Hb') as [p1 [Hp1 [Hp1s [Hp1f Hp1q]]]].
  destruct (merge_loop_keeps post ps3 _ c Hc) as [p2 [Hp2 [Hp2s [Hp2f Hp2q]]]].
  exists (landing e1 ps0), (landing e2 ps2), p1, p2.
  split; [exact Hne|]. split; [exact Hp1|]. split; [exact Hp2|].
  split; [congruence|]. split; [congruence|].
  split; [congruence|]. split; [congruence|].
  assert (∀ (p : Printing.t) (l : list RawCardEntry.t),
            strict_eq (Printing.set p) (Printing.set p) = false →
            Forall (λ e', same_printing e' p = false) l) as Hnever.
  { intros p l Hp. apply Forall_forall. intros e' _.
    unfold same_printing.
    now rewrite strict_eq_sym, (strict_eq_never _ (RawCardEntry.set e') Hp). }
  split.
  - intros Hobj. pose proof (Hanew Hobj) as Ea. subst a.
    assert (b = new_printing e1) as -> by (apply Hbq, Hnever; exact Hobj).
    rewrite Hp1q; [reflexivity|]. apply Hnever. exact Hobj.
  - intros Hobj. pose proof (Hcnew Hobj) as Ec. subst c.
    rewrite Hp2q; [reflexivity|]. apply Hnever. exact Hobj.
Qed.

Lemma entries_for_app (owner key : string) (ops1 ops2 : list Merged) :
  entries_for owner key (ops1 ++ ops2)
  = entries_for owner key ops1 ++ entries_for owner key ops2.
Proof. unfold entries_for. now rewrite List.filter_app, map_app. Qed.

Lemma entries_for_cons (owner key : string) (e : RawCardEntry.t)
    (ops : list Merged) :
  toLowerCase (RawCardEntry.name e) = key →
  entries_for owner key ((owner, e) :: ops) = e :: entries_for owner key ops.
Proof.
  intros Hk. unfold entries_for. cbn [List.filter fst snd].
  now rewrite Hk, !String.eqb_refl.
Qed.

Lemma own_quantity_of (ops : list Merged) (owner : string)
    (e : RawCardEntry.t) (p : Printing.t) :
  let key := toLowerCase (RawCardEntry.name e) in
  In (owner, e) ops →
  In p (printings_of (merge_all ops []) key owner) →
  Printing.set p = RawCardEntry.set e →
  Printing.isFoil p = RawCardEntry.isFoil e →
  (strict_eq (RawCardEntry.set e) (RawCardEntry.set e) = false →
   Printing.qty p = RawCardEntry.qty e) →
  own_quantity owner key e ops (Printing.qty p).
Proof.
  intros key Hin Hp Hs Hf Hobj. unfold own_quantity.
  destruct (strict_eq (RawCardEntry.set e) (RawCardEntry.set e)) eqn:Hself;
    [|now apply Hobj].
  destruct (merged_entry_has_printing ops owner e Hin Hself) as [p' [Hp' Hq]].
  assert (In p (List.filter (is_printing (RawCardEntry.set e)
                               (RawCardEntry.isFoil e))
                  (printings_of (merge_all ops []) key owner))) as Hpin.
  { apply filter_In. split; [exact Hp|]. unfold is_printing.
    now rewrite Hs, Hf, Hself, Bool.eqb_reflx. }
  fold key in Hp'. rewrite Hp' in Hpin. destruct Hpin as [<-|[]]. exact Hq.
Qed.

Lemma stay_apart_in_order (ops pre mid post : list Merged) (owner : string)
    (e1 e2 : RawCardEntry.t) :
  let key := toLowerCase (RawCardEntry.name e1) in
  let printings := printings_of (merge_all ops []) key owner in
  ops = pre ++ (owner, e1) :: mid ++ (owner, e2) :: post →
  toLowerCase (RawCardEntry.name e2) = key →
  strict_eq (RawCardEntry.set e1) (RawCardEntry.set e2) = false
  ∨ RawCardEntry.isFoil e1 ≠ RawCardEntry.isFoil e2 →
  ∃ i j p1 p2,
    i ≠ j ∧ printings !! i = Some p1 ∧ printings !! j = Some p2
    ∧ Printing.set p1 = RawCardEntry.set e1
    ∧ Printing.isFoil p1 = RawCardEntry.isFoil e1
    ∧ Printing.set p2 = RawCardEntry.set e2
    ∧ Printing.isFoil p2 = RawCardEntry.isFoil e2
    ∧ own_quantity owner key e1 ops (Printing.qty p1)
    ∧ own_quantity owner key e2 ops (Printing.qty p2).
Proof.
  intros key printings Hops Hkey Hdiff. subst printings.
  assert (In (owner, e1) ops) as Hin1
    by (rewrite Hops, in_app_iff; right; now left).
  assert (In (owner, e2) ops) as Hin2
    by (rewrite Hops, in_app_iff; right; right; rewrite in_app_iff;
        right; now left).
  pose proof (printings_of_merge_all ops [] key owner) as Hfold.
  rewrite Hops in Hfold at 2.
  rewrite entries_for_app, entries_for_cons, entries_for_app,
    entries_for_cons in Hfold by trivial.
  change (printings_of [] key owner) with (@nil Printing.t) in Hfold.
  destruct (later_entry_lands_apart (entries_for owner key pre)
              (entries_for owner key mid) (entries_for owner key post)
              e1 e2 Hdiff)
    as [i [j [p1 [p2 [Hne [H1 [H2 [H1s [H1f [H2s [H2f [H1q H2q]]]]]]]]]]]].
  rewrite <- Hfold in H1, H2.
  exists i, j, p1, p2.
  split; [exact Hne|]. split; [exact H1|]. split; [exact H2|].
  split; [exact H1s|]. split; [exact H1f|].
  split; [exact H2s|]. split; [exact H2f|]. split.
  - apply own_quantity_of; trivial.
    apply list_elem_of_In. eapply list_elem_of_lookup_2, H1.
  - pose proof (own_quantity_of ops owner e2 p2) as Hq. cbn zeta in Hq.
    rewrite Hkey in Hq. apply Hq; trivial.
    apply list_elem_of_In. eapply list_elem_of_lookup_2, H2.
Qed.

(** C2. Two entries among the lists the merge loop has merged, fetched
    for one owner with the same lowercased name, that differ in set or in
    foil status: the owner's list for that card holds a printing for each,
    with the entry's set and foil status, at two different positions; the
    quantity of each is the sum over the entries of its own set and foil
    status only, among which the other entry is not.  A set that is an
    array or an object differs from every other, and the printing of its
    entry keeps the quantity of that entry alone.  But the loop does not
    get that far on every pair: on a foil and a plain copy of a card named
    Constructor it raises a type error at the first copy, and no printing
    results. *)
Theorem different_printings_stay_apart :
  (∀ (fetched : list (string * list RawCardEntry.t)) (cardsMap : CardsMap)
     (pre mid post : list Merged) (a b : Merged) (owner : string)
     (e1 e2 : RawCardEntry.t),
     let key := toLowerCase (RawCardEntry.name e1) in
     let s1 := RawCardEntry.set e1 in
     let f1 := RawCardEntry.isFoil e1 in
     let s2 := RawCardEntry.set e2 in
     let f2 := RawCardEntry.isFoil e2 in
     let printings := printings_of cardsMap key owner in
     merge_lists fetched [] = Ok cardsMap →
     entries_of fetched = pre ++ a :: mid ++ b :: post →
     a = (owner, e1) ∧ b = (owner, e2) ∨ a = (owner, e2) ∧ b = (owner, e1) →
     toLowerCase (RawCardEntry.name e2) = key →
     strict_eq s1 s2 = false ∨ f1 ≠ f2 →
     ∃ i j p1 p2,
       i ≠ j ∧ printings !! i = Some p1 ∧ printings !! j = Some p2
       ∧ Printing.set p1 = s1 ∧ Printing.isFoil p1 = f1
       ∧ Printing.set p2 = s2 ∧ Printing.isFoil p2 = f2
       ∧ own_quantity owner key e1 (entries_of fetched) (Printing.qty p1)
       ∧ own_quantity owner key e2 (entries_of fetched) (Printing.qty p2)
       ∧ is_entry owner key s1 f1 (owner, e2) = false
       ∧ is_entry owner key s2 f2 (owner, e1) = false)
  ∧ merge_lists (H := Demo.host [])
      [("Fausto", [Demo.entry "Constructor" 1 "lea" true;
                   Demo.entry "Constructor" 2 "lea" false])] []
    = Throw TypeError.
Proof.
  split; [|reflexivity].
  intros fetched cardsMap pre mid post a b owner e1 e2.
  intros key s1 f1 s2 f2 printings Hrun Hops Hab Hkey Hdiff.
  subst printings. apply merge_lists_ok in Hrun as ->.
  assert (strict_eq s2 s1 && Bool.eqb f2 f1 = false) as Hm21.
  { rewrite strict_eq_sym. destruct Hdiff as [-> | Hd]; [reflexivity|].
    destruct (strict_eq s1 s2); [|reflexivity]. simpl.
    now destruct f1, f2. }
  assert (strict_eq s1 s2 && Bool.eqb f1 f2 = false) as Hm12.
  { destruct Hdiff as [-> | Hd]; [reflexivity|].
    destruct (strict_eq s1 s2); [|reflexivity]. simpl.
    now destruct f1, f2. }
  assert (is_entry owner key s1 f1 (owner, e2) = false) as Hno2.
  { unfold is_entry. cbn [fst snd]. fold s2 f2.
    now rewrite Hkey, !String.eqb_refl. }
  assert (is_entry owner key s2 f2 (owner, e1) = false) as Hno1.
  { unfold is_entry. cbn [fst snd]. fold key s1 f1.
    now rewrite !String.eqb_refl. }
  destruct Hab as [[-> ->]|[-> ->]].
  - destruct (stay_apart_in_order _ pre mid post owner e1 e2 Hops Hkey Hdiff)
      as [i [j [p1 [p2 [Hne H']]]]].
    exists i, j, p1, p2. fold key in H'. tauto.
  - assert (strict_eq s2 s1 = false ∨ f2 ≠ f1) as Hdiff'.
    { destruct Hdiff as [Hs | Hf]; [left; now rewrite strict_eq_sym|].
      right. congruence. }
    destruct (stay_apart_in_order _ pre mid post owner e2 e1 Hops
                (eq_sym Hkey) Hdiff')
      as [j [i [p2 [p1 [Hne H']]]]].
    cbn zeta in H'. rewrite Hkey in H'. fold key in H'.
    exists i, j, p1, p2. split; [congruence|]. tauto.
Qed.

(** ** Display names *)

(** The display name under a key after one merge step. *)
Lemma name_merged (owner : string) (cardsMap : CardsMap)
    (card : RawCardEntry.t) (key' : string) :
  CardAggregate.name <$> own_get key' (merged owner cardsMap card)
  = if has_key key' (owner, card)
    then Some (match own_get key' cardsMap with
               | Some agg => CardAggregate.name agg
               | None => RawCardEntry.name card
               end)
    else CardAggregate.name <$> own_get key' cardsMap.
Proof.
  unfold merged, has_key. simpl.
  destruct (String.eqb_spec (toLowerCase (RawCardEntry.name card)) key')
    as [<-|Hk].
  - rewrite own_get_set_eq. simpl.
    destruct (own_get _ cardsMap); reflexivity.
  - now rewrite own_get_set_ne.
Qed.

Lemma name_merge_all (ops : list Merged) (cardsMap : CardsMap) (key : string) :
  CardAggregate.name <$> own_get key (merge_all ops cardsMap)
  = match own_get key cardsMap with
    | Some agg => Some (CardAggregate.name agg)
    | None =>
        (λ op : Merged, RawCardEntry.name op.2)
          <$> head (List.filter (has_key key) ops)
    end.
Proof.
  revert cardsMap. induction ops as [|[o card] ops IH]; intros cm; simpl.
  - destruct (own_get key cm); reflexivity.
  - unfold merge_all in *. simpl. rewrite IH.
    pose proof (name_merged o cm card key) as Hn.
    destruct (has_key key (o, card)); simpl.
    + destruct (own_get key (merged o cm card)) as [agg'|];
        [|discriminate]. injection Hn as ->.
      destruct (own_get key cm); reflexivity.
    + destruct (own_get key (merged o cm card)) as [agg'|],
        (own_get key cm) as [agg|]; try discriminate; trivial;
        try (now injection Hn as ->).
Qed.

(** C8. When the merge loop has merged the fetched lists, the display
    name stored under a key of the aggregate is the name, in its original
    casing, of the first entry merged under that key, and a key under
    which no entry was merged is not in the aggregate; and a loop step
    that merges an entry under a key that is already there leaves the
    stored name as it was, whatever the casing of the entry's name. *)
Theorem display_name_is_first_seen
    (fetched : list (string * list RawCardEntry.t)) (cardsMap : CardsMap)
    (key : string) :
  merge_lists fetched [] = Ok cardsMap →
  CardAggregate.name <$> own_get key cardsMap
  = (λ op : Merged, RawCardEntry.name op.2)
      <$> head (List.filter (has_key key) (entries_of fetched))
  ∧ ∀ owner cardsMap0 cardsMap1 card agg,
      toLowerCase (RawCardEntry.name card) = key →
      own_get key cardsMap0 = Some agg →
      merge_card owner cardsMap0 card = Ok cardsMap1 →
      CardAggregate.name <$> own_get key cardsMap1
      = Some (CardAggregate.name agg).
Proof.
  intros Hrun. apply merge_lists_ok in Hrun as ->. split.
  - apply name_merge_all.
  - intros owner cm cm1 card agg Hk Hget Hstep.
    apply merge_card_ok in Hstep as ->. rewrite name_merged.
    unfold has_key. simpl. now rewrite Hk, String.eqb_refl, Hget.
Qed.

End Facts.

(** Two copies of one printing, listed with different casing, become one
    printing of five. *)
Example merge_lists_sums_copies :
  merge_lists (H := Demo.host [])
    [("Fausto", [Demo.entry "Lightning Bolt" 2 "lea" false;
                 Demo.entry "LIGHTNING BOLT" 3 "lea" false])] []
  = Ok [("lightning bolt",
         {| CardAggregate.name := "Lightning Bolt";
            CardAggregate.owners :=
              [("Fausto", [new_printing
                             (Demo.entry "Lightning Bolt" 5 "lea" false)])] |})].
Proof. vm_compute. reflexivity. Qed.

(** A plain and a foil copy of one card, fetched from two URLs, stay two
    printings. *)
Example merge_lists_keeps_foil_apart :
  merge_lists (H := Demo.host [])
    [("Fausto", [Demo.entry "Lightning Bolt" 2 "lea" false]);
     ("Fausto", [Demo.entry "Lightning Bolt" 1 "lea" true])] []
  = Ok [("lightning bolt",
         {| CardAggregate.name := "Lightning Bolt";
            CardAggregate.owners :=
              [("Fausto",
                [{| Printing.qty := VNum 2; Printing.set := VStr "lea";
                    Printing.setName := VStr ""; Printing.isFoil := false;
                    Printing.collectorNumber := VStr "";
                    Printing.scryfallId := VStr "";
                    Printing.price := Printing.null |};
                 {| Printing.qty := VNum 1; Printing.set := VStr "lea";
                    Printing.setName := VStr ""; Printing.isFoil := true;
                    Printing.collectorNumber := VStr "";
                    Printing.scryfallId := VStr "";
                    Printing.price := Printing.null |}])] |})].
Proof. vm_compute. reflexivity. Qed.

(** C8 on a card fetched in title case and then in capitals. *)
Lemma display_name_is_first_seen_witness :
  let fetched :=
    [("Vallhay", [Demo.entry "Lightning Bolt" 4 "lea" false]);
     ("Fausto", [Demo.entry "LIGHTNING BOLT" 1 "mh3" true])] in
  ∃ cardsMap,
    merge_lists (H := Demo.host []) fetched [] = Ok cardsMap
    ∧ CardAggregate.name <$> own_get "lightning bolt" cardsMap
      = Some "Lightning Bolt".
Proof.
  intros fetched. eexists. split; [vm_compute; reflexivity|].
  exact (proj1 (display_name_is_first_seen (H := Demo.host []) fetched _
                  "lightning bolt" eq_refl)).
Defined.

End MergeFacts.

(** ** main *)

Module MainFacts.
Import Script Notions MergeFacts FetchFacts.

Section Facts.
Context `{Host}.
Variable net : nat → string → Response.

(** One URL: either it contributes nothing and the accumulators stay, or
    its cards are counted and merged, and what the merge loop raises ends
    the step. *)
Lemma process_url_spec (owner : string) (acc : OwnersMap * CardsMap)
    (url : string) (n : nat) :
  ∃ t,
    process_url net owner acc url n
    = (match contribution net url n with
       | None => Ok acc
       | Some cards =>
           match add_cardCount owner (length cards) acc.1 with
           | Ok ownersMap =>
               match merge_cards owner acc.2 cards with
               | Ok cardsMap => Ok (ownersMap, cardsMap)
               | Throw e => Throw e
               end
           | Throw e => Throw e
           end
       end, after_url net url n, t).
Proof.
  unfold process_url, contribution, after_url.
  destruct (parseMoxfieldUrl url) as [parsed|]; [|eexists; reflexivity].
  unfold bind, try_catch, lift, ret, log, sleep, emit. cbn beta.
  destruct (fetch_cards net parsed n) as [[[cards|e] n1] t1]; cbn.
  - destruct (add_cardCount owner (length cards) acc.1);
      [|eexists; reflexivity].
    destruct (merge_cards owner acc.2 cards); eexists; reflexivity.
  - eexists; reflexivity.
Qed.

Lemma lists_of_app (vs1 vs2 : list Visit) :
  lists_of net (vs1 ++ vs2) = lists_of net vs1 ++ lists_of net vs2.
Proof.
  unfold lists_of. apply omap_app.
Qed.

Lemma lists_of_cons (owner url : string) (n : nat) (vs : list Visit) :
  lists_of net ((owner, url, n) :: vs)
  = match contribution net url n with
    | Some cards => (owner, cards) :: lists_of net vs
    | None => lists_of net vs
    end.
Proof.
  unfold lists_of, visit_cards. cbn [omap list_omap fst snd].
  now destruct (contribution net url n).
Qed.

Variable config : Config.t.
Variable env : gmap string string.

Lemma merged_count_app (o : string) (ops1 ops2 : list Merged) :
  merged_count o (ops1 ++ ops2) = (merged_count o ops1 + merged_count o ops2)%nat.
Proof. unfold merged_count. now rewrite List.filter_app, length_app. Qed.

Lemma merged_count_for (owner o : string) (cards : list RawCardEntry.t) :
  merged_count o (merged_for owner cards)
  = if String.eqb owner o then length cards else 0%nat.
Proof.
  unfold merged_count, merged_for.
  induction cards as [|c cards IH]; simpl.
  - now destruct (String.eqb owner o).
  - destruct (String.eqb owner o); simpl; congruence.
Qed.

Lemma merged_count_none (o : string) (ops : list Merged) :
  (∀ op : Merged, In op ops → op.1 ≠ o) → merged_count o ops = 0%nat.
Proof.
  unfold merged_count. induction ops as [|op ops IH]; intros Hne; simpl; trivial.
  destruct (String.eqb_spec op.1 o) as [E|_].
  - exfalso. apply (Hne op); [now left | exact E].
  - apply IH. intros op' Hin. apply Hne. now right.
Qed.

(** Registration: a missing owner gets a fresh record, an owner that is
    there or that [Object.prototype] has a member for gets none. *)
Lemma owners_ok_ensure (ops : list Merged) (owner : string)
    (ownersMap : OwnersMap) :
  owners_ok config env ops ownersMap →
  owners_ok config env ops (ensure_owner config env owner ownersMap)
  ∧ (proto_member owner = false →
     is_Some (own_get owner (ensure_owner config env owner ownersMap)))
  ∧ (∀ o, is_Some (own_get o ownersMap) →
          is_Some (own_get o (ensure_owner config env owner ownersMap)))
  ∧ (obj_get owner ownersMap = Missing →
     own_get owner (ensure_owner config env owner ownersMap)
     = Some (fresh_owner config env owner)).
Proof.
  intros [Hrec [Hreg Hnd]]. unfold ensure_owner, obj_get.
  destruct (own_get owner ownersMap) as [rec|] eqn:Hget.
  - split; [now split|]. split; [rewrite Hget; eauto|].
    split; [trivial|discriminate].
  - destruct (proto_member owner) eqn:Hproto.
    + split; [now split|]. split; [discriminate|].
      split; [trivial|discriminate].
    + assert (∀ o, is_Some (own_get o ownersMap) →
                   is_Some (own_get o (obj_set owner
                                         (fresh_owner config env owner)
                                         ownersMap))) as Hmono.
      { intros o Ho. destruct (String.eqb_spec owner o) as [<-|Hne].
        - rewrite own_get_set_eq. eauto.
        - now rewrite own_get_set_ne. }
      fold (fresh_owner config env owner). rewrite own_get_set_eq.
      split; [|split; [eauto|split; [exact Hmono|trivial]]].
      split; [|split; [|now apply NoDup_obj_set]].
      * intros o rec. destruct (String.eqb_spec owner o) as [<-|Hne].
        -- rewrite own_get_set_eq. intros [= <-]. simpl.
           split; [exact Hproto|]. split; [trivial|]. split; [trivial|].
           symmetry. apply merged_count_none. intros op Hin E.
           destruct (Hreg op Hin) as [r Hr]; congruence.
        -- rewrite own_get_set_ne by trivial. apply Hrec.
      * intros op Hin Hp. apply Hmono, Hreg; trivial.
Qed.

(** Counting: the count of a registered owner grows by the number of
    cards; an owner that [Object.prototype] has a member for leaves
    [ownersMap] as it is. *)
Lemma add_cardCount_run (ops0 : list Merged) (owner : string)
    (cards : list RawCardEntry.t) (ownersMap : OwnersMap) :
  owners_ok config env ops0 ownersMap →
  (proto_member owner = false → is_Some (own_get owner ownersMap)) →
  ∃ ownersMap',
    add_cardCount owner (length cards) ownersMap = Ok ownersMap'
    ∧ owners_ok config env (ops0 ++ merged_for owner cards) ownersMap'
    ∧ (∀ o, is_Some (own_get o ownersMap) → is_Some (own_get o ownersMap')).
Proof.
  intros [Hrec [Hreg Hnd]] Hin. unfold add_cardCount, obj_get.
  destruct (own_get owner ownersMap) as [rec|] eqn:Hget.
  - eexists. split; [reflexivity|].
    assert (∀ o, is_Some (own_get o ownersMap) →
                 is_Some (own_get o
                   (obj_set owner
                      {| Owner.name := Owner.name rec;
                         Owner.phone := Owner.phone rec;
                         Owner.cardCount := Owner.cardCount rec + length cards |}
                      ownersMap))) as Hmono.
    { intros o Ho. destruct (String.eqb_spec owner o) as [<-|Hne].
      - rewrite own_get_set_eq. eauto.
      - now rewrite own_get_set_ne. }
    split; [split; [|split; [|now apply NoDup_obj_set]]|exact Hmono].
    + intros o r. rewrite merged_count_app, merged_count_for.
      destruct (String.eqb_spec owner o) as [<-|Hne].
      * rewrite own_get_set_eq. intros [= <-]. simpl.
        destruct (Hrec _ _ Hget) as [Hp [Hn [Hph Hcount]]]. rewrite Hcount.
        auto.
      * rewrite own_get_set_ne by trivial. intros Hr.
        destruct (Hrec _ _ Hr) as [Hp [Hn [Hph Hcount]]]. rewrite Hcount.
        auto.
    + intros op [Hop|Hop]%in_app_iff Hp; [apply Hmono, Hreg; trivial|].
      unfold merged_for in Hop. apply in_map_iff in Hop as [c [<- _]].
      simpl. apply Hmono. eauto.
  - destruct (proto_member owner) eqn:Hproto.
    + exists ownersMap. split; [reflexivity|].
      split; [split; [|split; [|exact Hnd]]|trivial].
      * intros o r Hr. rewrite merged_count_app, merged_count_for.
        destruct (String.eqb_spec owner o) as [<-|Hne]; [congruence|].
        destruct (Hrec _ _ Hr) as [Hp [Hn [Hph Hcount]]]. rewrite Hcount.
        auto.
      * intros op [Hop|Hop]%in_app_iff Hp; [apply Hreg; trivial|].
        unfold merged_for in Hop. apply in_map_iff in Hop as [c [<- _]].
        simpl in Hp. congruence.
    + destruct (Hin eq_refl) as [r Hr]. discriminate.
Qed.

(** The URLs of one source, for an owner that is registered unless
    [Object.prototype] has a member of its name: the loop returns exactly
    when the merge loop does on the lists fetched, with their merge. *)
Lemma urls_loop_run (owner : string) (urls : list string) (ops0 : list Merged)
    (acc : OwnersMap * CardsMap) (n : nat) :
  owners_ok config env ops0 acc.1 →
  (proto_member owner = false → is_Some (own_get owner acc.1)) →
  match merge_lists (lists_of net (url_visits net owner urls n)) acc.2 with
  | Ok cardsMap =>
      ∃ ownersMap t,
        foldM (process_url net owner) acc urls n
        = (Ok (ownersMap, cardsMap), after_urls net urls n, t)
        ∧ owners_ok config env
            (ops0 ++ entries_of (lists_of net (url_visits net owner urls n)))
            ownersMap
        ∧ (∀ o, is_Some (own_get o acc.1) → is_Some (own_get o ownersMap))
  | Throw e =>
      ∃ n' t, foldM (process_url net owner) acc urls n = (Throw e, n', t)
  end.
Proof.
  revert ops0 acc n.
  induction urls as [|url urls IH]; intros ops0 acc n Hok Hin.
  - cbn. exists acc.1, []. rewrite app_nil_r. destruct acc.
    split; [reflexivity|]. split; [exact Hok|trivial].
  - cbn [url_visits foldM after_urls fold_left]. rewrite lists_of_cons.
    destruct (process_url_spec owner acc url n) as [t1 Hurl].
    unfold bind. rewrite Hurl. clear Hurl.
    destruct (contribution net url n) as [cards|].
    + destruct (add_cardCount_run ops0 owner cards acc.1 Hok Hin)
        as [om1 [-> [Hok1 Hmono1]]].
      cbn [merge_lists].
      destruct (merge_cards owner acc.2 cards) as [cm1|e]; [|eauto].
      specialize (IH (ops0 ++ merged_for owner cards) (om1, cm1)
                    (after_url net url n) Hok1
                    (λ Hp, Hmono1 _ (Hin Hp))).
      cbn [fst snd] in IH.
      destruct (merge_lists _ cm1) as [cm2|e].
      * destruct IH as [om2 [t2 [-> [Hok2 Hmono2]]]].
        exists om2, (t1 ++ t2). split; [reflexivity|].
        unfold entries_of in *. cbn [flat_map fst snd].
        rewrite app_assoc. split; [exact Hok2|].
        intros o Ho. apply Hmono2, Hmono1, Ho.
      * destruct IH as [n2 [t2 ->]]. eauto.
    + specialize (IH ops0 acc (after_url net url n) Hok Hin).
      destruct (merge_lists _ acc.2) as [cm2|e].
      * destruct IH as [om2 [t2 [-> [Hok2 Hmono2]]]].
        exists om2, (t1 ++ t2). auto.
      * destruct IH as [n2 [t2 ->]]. eauto.
Qed.

Lemma process_source_run (ops0 : list Merged) (acc : OwnersMap * CardsMap)
    (src : Source.t) (n : nat) :
  let vs := url_visits net (Source.owner src) (source_urls src) n in
  owners_ok config env ops0 acc.1 →
  match merge_lists (lists_of net vs) acc.2 with
  | Ok cardsMap =>
      ∃ ownersMap t,
        process_source net config env acc src n
        = (Ok (ownersMap, cardsMap), after_urls net (source_urls src) n, t)
        ∧ owners_ok config env (ops0 ++ entries_of (lists_of net vs)) ownersMap
        ∧ (∀ o, is_Some (own_get o acc.1) → is_Some (own_get o ownersMap))
        ∧ (proto_member (Source.owner src) = false →
           is_Some (own_get (Source.owner src) ownersMap))
  | Throw e =>
      ∃ n' t, process_source net config env acc src n = (Throw e, n', t)
  end.
Proof.
  intros vs Hok. subst vs.
  destruct (owners_ok_ensure ops0 (Source.owner src) acc.1 Hok)
    as [Hok1 [Hin1 [Hmono1 _]]].
  pose proof (urls_loop_run (Source.owner src) (source_urls src) ops0
                (ensure_owner config env (Source.owner src) acc.1, acc.2) n
                Hok1 Hin1) as Hloop.
  cbn [fst snd] in Hloop. unfold process_source, bind, log, emit.
  destruct (merge_lists _ acc.2) as [cm|e].
  - destruct Hloop as [om [t [-> [Hok2 Hmono2]]]].
    exists om, (Log (LogProcessing (Source.owner src)) :: t).
    split; [reflexivity|]. split; [exact Hok2|]. split.
    + intros o Ho. apply Hmono2, Hmono1, Ho.
    + intros Hp. apply Hmono2, Hin1, Hp.
  - destruct Hloop as [n' [t ->]]. eauto.
Qed.

(** The source loop returns exactly when the merge loop does on the lists
    the run fetches, with their merge. *)
Lemma sources_loop_run (sources : list Source.t) (ops0 : list Merged)
    (acc : OwnersMap * CardsMap) (n : nat) :
  owners_ok config env ops0 acc.1 →
  match merge_lists (lists_of net (visits net sources n)) acc.2 with
  | Ok cardsMap =>
      ∃ ownersMap n' t,
        foldM (process_source net config env) acc sources n
        = (Ok (ownersMap, cardsMap), n', t)
        ∧ owners_ok config env
            (ops0 ++ entries_of (lists_of net (visits net sources n)))
            ownersMap
        ∧ (∀ o, is_Some (own_get o acc.1) → is_Some (own_get o ownersMap))
        ∧ (∀ src, In src sources → proto_member (Source.owner src) = false →
                  is_Some (own_get (Source.owner src) ownersMap))
  | Throw e =>
      ∃ n' t,
        foldM (process_source net config env) acc sources n = (Throw e, n', t)
  end.
Proof.
  revert ops0 acc n.
  induction sources as [|src sources IH]; intros ops0 acc n Hok.
  - cbn. exists acc.1, n, []. rewrite app_nil_r. destruct acc.
    split; [reflexivity|]. split; [exact Hok|]. split; [trivial|].
    intros src [].
  - cbn [visits foldM]. rewrite lists_of_app, merge_lists_app.
    pose proof (process_source_run ops0 acc src n Hok) as Hsrc.
    cbn zeta in Hsrc. unfold bind.
    destruct (merge_lists _ acc.2) as [cm1|e].
    + destruct Hsrc as [om1 [t1 [-> [Hok1 [Hmono1 Hin1]]]]].
      specialize (IH _ (om1, cm1) (after_urls net (source_urls src) n) Hok1).
      cbn [fst snd] in IH.
      destruct (merge_lists _ cm1) as [cm2|e].
      * destruct IH as [om2 [n2 [t2 [-> [Hok2 [Hmono2 Hin2]]]]]].
        exists om2, n2, (t1 ++ t2). split; [reflexivity|].
        rewrite entries_of_app, app_assoc. split; [exact Hok2|]. split.
        -- intros o Ho. apply Hmono2, Hmono1, Ho.
        -- intros src' [<-|Hs] Hp; [apply Hmono2, Hin1, Hp | now apply Hin2].
      * destruct IH as [n2 [t2 ->]]. eauto.
    + destruct Hsrc as [n1 [t1 ->]]. eauto.
Qed.

Lemma own_get_In_values {V} (k : string) (v : V) (obj : list (string * V)) :
  own_get k obj = Some v → In v (Object_values obj).
Proof.
  unfold Object_values. induction obj as [|[k' v'] obj IH]; simpl; [discriminate|].
  destruct (String.eqb k k'); [intros [= ->]; now left | auto].
Qed.

Lemma Forall2_priced_length (ps ps' : list Printing.t) :
  Forall2 priced_from ps ps' → length ps' = length ps.
Proof. intros Hp. symmetry. eapply Forall2_length, Hp. Qed.

Lemma owners_priced_length (os os' : list (string * list Printing.t)) :
  Forall2 owner_priced_from os os' →
  length (concat (map snd os')) = length (concat (map snd os)).
Proof.
  induction 1 as [|o o' os os' [_ Hp] _ IH]; simpl; trivial.
  rewrite !length_app, IH. f_equal. now apply Forall2_priced_length.
Qed.

(** The price pass keeps the number of printings. *)
Lemma all_printings_priced_length (cardsMap cardsMap' : CardsMap) :
  Forall2 card_priced_from cardsMap cardsMap' →
  length (all_printings cardsMap') = length (all_printings cardsMap).
Proof.
  unfold all_printings.
  induction 1 as [|c c' cm cm' [_ [_ Ho]] _ IH]; simpl; trivial.
  rewrite !length_app, IH. f_equal. now apply owners_priced_length.
Qed.

(** A run of [main] returns exactly when the merge loop returns on the
    lists the run fetches, and raises what that loop raises otherwise.
    When it returns it has registered every configured owner that is no
    member of [Object.prototype] and counted the entries fetched for it,
    merged the fetched lists, priced the printings in place, and logged
    the summary line between the traces of the two phases and the closing
    lines. *)
Lemma main_spec (now : string) (n : nat) :
  match merge_lists (run_lists net (Config.sources config) n) [] with
  | Ok cardsMap =>
      ∃ ownersMap counts cards n1 n' t1 t2,
        foldM (process_source net config env) ([], [])
          (Config.sources config) n
        = (Ok (ownersMap, cardsMap), n1, t1)
        ∧ price_pass net cardsMap n1 = (Ok (counts, cards), n', t2)
        ∧ main net config env now n
          = (Ok {| Snapshot.lastUpdated := now;
                   Snapshot.owners := Object_values ownersMap;
                   Snapshot.cards := cards |}, n',
             t1 ++ [Log LogPricing] ++ t2
             ++ [Log (LogSummary counts.1 counts.2
                        (summary_percent counts.1 counts.2));
                 Log (LogDone (length cards) (length ownersMap));
                 Log LogWritten])
        ∧ owners_ok config env (run_entries net (Config.sources config) n)
            ownersMap
        ∧ (∀ src, In src (Config.sources config) →
                  proto_member (Source.owner src) = false →
                  is_Some (own_get (Source.owner src) ownersMap))
        ∧ Forall2 card_priced_from cardsMap cards
        ∧ counts.2 = length (all_printings cards)
        ∧ (counts.1 ≤ counts.2)%nat
  | Throw e => ∃ n' t, main net config env now n = (Throw e, n', t)
  end.
Proof.
  pose proof (sources_loop_run (Config.sources config) [] ([], []) n) as Hloop.
  unfold run_lists, run_entries.
  cbn [fst snd] in Hloop.
  destruct (merge_lists _ []) as [cm|e].
  - destruct Hloop as [om [n1 [t1 [Hrun [Hok [_ Hin]]]]]].
    { split; [intros o rec; discriminate|].
      split; [intros op [] | constructor]. }
    destruct (price_pass_spec net cm n1)
      as [f [cm' [n2 [t2 [Hpass [Hf [Hpriced _]]]]]]].
    pose proof (all_printings_priced_length _ _ Hpriced) as Hlen.
    exists om, (f, length (all_printings cm)), cm', n1, n2, t1, t2.
    split; [exact Hrun|]. split; [exact Hpass|].
    split; [|split; [exact Hok|split; [exact Hin|split;
              [exact Hpriced|split; [now rewrite Hlen|exact Hf]]]]].
    unfold main, bind. rewrite Hrun. unfold log, emit. cbn [fst snd].
    rewrite Hpass. unfold ret. cbn [fst snd]. trace_simpl. reflexivity.
  - destruct Hloop as [n1 [t1 Hrun]].
    { split; [intros o rec; discriminate|].
      split; [intros op [] | constructor]. }
    exists n1, t1. unfold main, bind. now rewrite Hrun.
Qed.

(** What a run that returns has done. *)
Lemma main_returns (now : string) (n : nat) (out : Snapshot.t) (n' : nat)
    (t : list Event) :
  main net config env now n = (Ok out, n', t) →
  ∃ ownersMap cardsMap counts n1 t1 t2,
    merge_lists (run_lists net (Config.sources config) n) [] = Ok cardsMap
    ∧ foldM (process_source net config env) ([], [])
        (Config.sources config) n
      = (Ok (ownersMap, cardsMap), n1, t1)
    ∧ price_pass net cardsMap n1 = (Ok (counts, Snapshot.cards out), n', t2)
    ∧ Snapshot.lastUpdated out = now
    ∧ Snapshot.owners out = Object_values ownersMap
    ∧ t = t1 ++ [Log LogPricing] ++ t2
          ++ [Log (LogSummary counts.1 counts.2
                     (summary_percent counts.1 counts.2));
              Log (LogDone (length (Snapshot.cards out)) (length ownersMap));
              Log LogWritten]
    ∧ owners_ok config env (run_entries net (Config.sources config) n)
        ownersMap
    ∧ (∀ src, In src (Config.sources config) →
              proto_member (Source.owner src) = false →
              is_Some (own_get (Source.owner src) ownersMap))
    ∧ Forall2 card_priced_from cardsMap (Snapshot.cards out)
    ∧ counts.2 = length (all_printings (Snapshot.cards out))
    ∧ (counts.1 ≤ counts.2)%nat.
Proof.
  intros Hmain. pose proof (main_spec now n) as Hspec.
  destruct (merge_lists _ []) as [cm|e].
  - destruct Hspec
      as [om [counts [cards [n1 [n2 [t1 [t2 [Hrun [Hpass [Hm H']]]]]]]]]].
    rewrite Hmain in Hm. injection Hm as -> -> ->.
    exists om, cm, counts, n1, t1, t2. cbn [Snapshot.cards Snapshot.owners
      Snapshot.lastUpdated]. tauto.
  - destruct Hspec as [n2 [t2 Hm]]. congruence.
Qed.

(** ** Prices of the merged aggregate *)

Lemma all_printings_are_get {V} (P : V → Prop) (k : string) (v : V)
    (obj : list (string * V)) :
  Forall (λ kv, P kv.2) obj → own_get k obj = Some v → P v.
Proof.
  intros Hall Hget. apply own_get_In in Hget.
  exact (proj1 (List.Forall_forall _ _) Hall _ Hget).
Qed.

Lemma merge_printing_are (P : Printing.t → Prop) (card : RawCardEntry.t)
    (ps : list Printing.t) :
  P (new_printing card) → (∀ p, P p → P (add_qty (RawCardEntry.qty card) p)) →
  Forall P ps → Forall P (merge_printing card ps).
Proof.
  intros Hnew Hadd. rewrite merge_printing_pass_eq.
  induction 1 as [|p ps Hp Hps IH]; simpl.
  - repeat constructor. exact Hnew.
  - destruct (same_printing card p); constructor; auto.
Qed.

Lemma merged_are (P : Printing.t → Prop) (owner : string)
    (cardsMap : CardsMap) (card : RawCardEntry.t) :
  P (new_printing card) → (∀ p, P p → P (add_qty (RawCardEntry.qty card) p)) →
  all_printings_are P cardsMap →
  all_printings_are P (merged owner cardsMap card).
Proof.
  unfold all_printings_are, merged. intros Hnew Hadd Hall.
  apply Forall_obj_set; [exact Hall|]. cbn [snd CardAggregate.owners].
  assert (Forall (λ o : string * list Printing.t, Forall P o.2)
            (CardAggregate.owners
               match own_get (toLowerCase (RawCardEntry.name card)) cardsMap with
               | Some e => e
               | None => {| CardAggregate.name := RawCardEntry.name card;
                            CardAggregate.owners := [] |}
               end)) as Hown.
  { destruct (own_get _ cardsMap) as [e|] eqn:Hget; [|constructor].
    exact (all_printings_are_get
             (λ agg, Forall (λ o : string * list Printing.t, Forall P o.2)
                       (CardAggregate.owners agg)) _ _ _ Hall Hget). }
  apply Forall_obj_set; [exact Hown|]. cbn [snd].
  apply merge_printing_are; trivial.
  destruct (own_get owner _) as [ps|] eqn:Hps; [|constructor].
  exact (all_printings_are_get (Forall P) _ _ _ Hown Hps).
Qed.

Lemma merge_all_are (P : Printing.t → Prop) (ops : list Merged)
    (cardsMap : CardsMap) :
  Forall (λ op : Merged,
            P (new_printing op.2)
            ∧ ∀ p, P p → P (add_qty (RawCardEntry.qty op.2) p)) ops →
  all_printings_are P cardsMap → all_printings_are P (merge_all ops cardsMap).
Proof.
  unfold merge_all. intros Hops. revert cardsMap.
  induction Hops as [|[o c] ops [Hnew Hadd] _ IH]; intros cm Hall; simpl;
    trivial.
  apply IH, merged_are; trivial.
Qed.

(** Merging leaves every price null: only the price pass assigns one. *)
Lemma merge_all_null (ops : list Merged) (cardsMap : CardsMap) :
  all_printings_are (λ p, Printing.price p = Printing.null) cardsMap →
  all_printings_are (λ p, Printing.price p = Printing.null)
    (merge_all ops cardsMap).
Proof.
  apply merge_all_are. apply Forall_forall. intros op _. split; [reflexivity|].
  now intros p Hp.
Qed.

Lemma priced_from_unpriceable (p p' : Printing.t) :
  priced_from p p' → unpriceable p' = true →
  Printing.price p = Printing.null → Printing.price p' = Printing.null.
Proof.
  intros [[price ->] Hkeep] Hun Hnull.
  assert (unpriceable (set_price price p) = unpriceable p) as E
    by (destruct price; reflexivity).
  rewrite E in Hun. now rewrite (Hkeep Hun).
Qed.

Lemma price_pass_keeps_null (cardsMap cardsMap' : CardsMap) :
  Forall2 card_priced_from cardsMap cardsMap' →
  all_printings_are (λ p, Printing.price p = Printing.null) cardsMap →
  all_printings_are
    (λ p, unpriceable p = true → Printing.price p = Printing.null) cardsMap'.
Proof.
  unfold all_printings_are.
  induction 1 as [|c c' cm cm' [_ [_ Ho]] _ IH]; intros Hall;
    [constructor|].
  apply Forall_cons in Hall as [Hc Hall]. constructor; [|now apply IH].
  clear IH Hall. induction Ho as [|o o' os os' [_ Hp] _ IH]; [constructor|].
  apply Forall_cons in Hc as [Hps Hc]. constructor; [|now apply IH].
  clear IH Hc. induction Hp as [|p p' ps ps' Hpp _ IH]; [constructor|].
  apply Forall_cons in Hps as [Hnull Hps]. constructor; [|now apply IH].
  intros Hun. eapply priced_from_unpriceable; eauto.
Qed.

(** An owner to whom the run contributes nothing has no fetched entry. *)
Lemma owner_fails_no_entries (vs : list Visit) (owner : string) :
  (∀ v : Visit, In v vs → v.1.1 = owner → visit_cards net v = None) →
  merged_count owner (entries_of (lists_of net vs)) = 0%nat.
Proof.
  intros Hfails. apply merged_count_none. intros op Hin Ho.
  unfold entries_of, lists_of in Hin.
  apply in_flat_map in Hin as [[o cards] [Hb Hop]].
  apply list_elem_of_In, list_elem_of_omap in Hb as [v [Hv Hf]].
  apply list_elem_of_In in Hv.
  destruct (visit_cards net v) as [cs|] eqn:Hc; [|discriminate].
  injection Hf as <- <-.
  unfold merged_for in Hop. apply in_map_iff in Hop as [c [<- _]].
  cbn [fst snd] in *. rewrite (Hfails v Hv Ho) in Hc. discriminate.
Qed.

End Facts.

Section Run.
Context `{Host}.
Variable net : nat → string → Response.
Variable config : Config.t.
Variable env : gmap string string.

(** The merged aggregate and the snapshot hold the same printings up to
    their prices, under the same keys and owners. *)
Lemma own_get_related {V} (R : V → V → Prop) (k : string)
    (obj obj' : list (string * V)) :
  Forall2 (λ a b, a.1 = b.1 ∧ R a.2 b.2) obj obj' →
  match own_get k obj, own_get k obj' with
  | Some v, Some v' => R v v'
  | None, None => True
  | _, _ => False
  end.
Proof.
  induction 1 as [|[k1 v] [k2 v'] obj obj' [Hk Hv] _ IH]; simpl in *; trivial.
  subst k2. destruct (String.eqb k k1); [exact Hv | exact IH].
Qed.

Lemma printings_of_priced (cardsMap cardsMap' : CardsMap) (key owner : string) :
  Forall2 card_priced_from cardsMap cardsMap' →
  Forall2 priced_from (printings_of cardsMap key owner)
    (printings_of cardsMap' key owner).
Proof.
  intros Hc. unfold printings_of.
  pose proof (own_get_related
                (λ a b, CardAggregate.name a = CardAggregate.name b
                        ∧ Forall2 owner_priced_from (CardAggregate.owners a)
                            (CardAggregate.owners b)) key cardsMap cardsMap')
    as Hget.
  destruct (own_get key cardsMap) as [agg|], (own_get key cardsMap') as [agg'|];
    try (now exfalso; apply Hget); try constructor.
  destruct (Hget Hc) as [_ Ho].
  pose proof (own_get_related (Forall2 priced_from) owner
                (CardAggregate.owners agg) (CardAggregate.owners agg')) as Hown.
  destruct (own_get owner (CardAggregate.owners agg)) as [ps|],
    (own_get owner (CardAggregate.owners agg')) as [ps'|];
    try (now exfalso; apply Hown); try constructor.
  now apply Hown.
Qed.

Lemma qtys_priced (s : Value) (f : bool) (ps ps' : list Printing.t) :
  Forall2 priced_from ps ps' → qtys s f ps' = qtys s f ps.
Proof.
  unfold qtys. induction 1 as [|p p' ps ps' [[price ->] _] _ IH]; simpl; trivial.
  assert (is_printing s f (set_price price p) = is_printing s f p) as ->
    by (destruct price; reflexivity).
  assert (Printing.qty (set_price price p) = Printing.qty p) as Hq
    by (destruct price; reflexivity).
  destruct (is_printing s f p); simpl; congruence.
Qed.

Lemma names_priced (cardsMap cardsMap' : CardsMap) (key : string) :
  Forall2 card_priced_from cardsMap cardsMap' →
  CardAggregate.name <$> own_get key cardsMap'
  = CardAggregate.name <$> own_get key cardsMap.
Proof.
  intros Hc.
  pose proof (own_get_related
                (λ a b, CardAggregate.name a = CardAggregate.name b
                        ∧ Forall2 owner_priced_from (CardAggregate.owners a)
                            (CardAggregate.owners b)) key cardsMap cardsMap' Hc)
    as Hget.
  destruct (own_get key cardsMap) as [agg|], (own_get key cardsMap') as [agg'|];
    simpl; try (now exfalso); trivial.
  destruct Hget as [-> _]. reflexivity.
Qed.

(** X25. The snapshot of a run that returns is the merge of the lists
    the run fetched, priced: the merge loop returned on those lists, one
    after the other, and the snapshot holds its result with at most the
    prices changed.  So for every key, owner, set and foil status the
    owner's list holds one printing when the run fetched an entry for
    them and none otherwise, whose quantity is what [+=] makes of the
    entries' quantities in the order the run fetched them; and every
    display name is that of the first entry the run fetched under its
    key. *)
Theorem snapshot_merges_fetched_entries (now : string) (n : nat)
    (out : Snapshot.t) (n' : nat) (t : list Event) :
  main net config env now n = (Ok out, n', t) →
  let ops := run_entries net (Config.sources config) n in
  (∃ cardsMap,
     merge_lists (run_lists net (Config.sources config) n) [] = Ok cardsMap
     ∧ Forall2 card_priced_from cardsMap (Snapshot.cards out))
  ∧ (∀ key owner s f,
       qtys s f (printings_of (Snapshot.cards out) key owner)
       = match total_qty (map (λ op : Merged, RawCardEntry.qty op.2)
                            (List.filter (is_entry owner key s f) ops)) with
         | Some q => [q]
         | None => []
         end)
  ∧ ∀ key,
      CardAggregate.name <$> own_get key (Snapshot.cards out)
      = (λ op : Merged, RawCardEntry.name op.2)
          <$> head (List.filter (has_key key) ops).
Proof.
  intros Hmain ops.
  destruct (main_returns net config env now n out n' t Hmain)
    as [om [cm [counts [n1 [t1 [t2
         [Hmerge [_ [_ [_ [_ [_ [_ [_ [Hp _]]]]]]]]]]]]]]].
  split; [eauto|]. apply merge_lists_ok in Hmerge. subst cm. split.
  - intros key owner s f'.
    rewrite (qtys_priced s f' _ _ (printings_of_priced _ _ key owner Hp)).
    apply merge_all_qtys.
  - intros key. rewrite (names_priced _ _ key Hp).
    apply (name_merge_all ops [] key).
Qed.

(** C6. A printing without a Scryfall id and without a complete pair of
    set and collector number is skipped: [fetchPrice] returns null for it
    without a request (the request count stays where it was and the only
    event is the log line of the skip), and the pass step leaves the
    printing, price included, as it was and counts it as not fetched.  Over
    any aggregate the pass completes, keeps every such printing unchanged
    in its place, and issues at most three requests (one attempt, two
    retries) for each of the other printings.  In the snapshot of a run of
    [main] that returns, every such printing has a null price. *)
Theorem unpriceable_printing_not_queried (cardsMap : CardsMap)
    (now : string) (n : nat) :
  (∀ cardName counts p m,
     unpriceable p = true →
     fetchPrice net (Printing.scryfallId p) (Printing.set p)
       (Printing.collectorNumber p) cardName m
     = (Ok VNull, m, [Log (LogPriceSkipped cardName)])
     ∧ price_printing net cardName counts p m
       = (Ok ((fst counts, S (snd counts)), p), m,
          [Log (LogPriceSkipped cardName)]))
  ∧ (∃ counts cardsMap' n' t,
       price_pass net cardsMap n = (Ok (counts, cardsMap'), n', t)
       ∧ Forall2 card_priced_from cardsMap cardsMap'
       ∧ (n ≤ n' ≤ n + 3 * attempted (all_printings cardsMap))%nat
       ∧ requests t = (n' - n)%nat)
  ∧ ∀ out n' t,
      main net config env now n = (Ok out, n', t) →
      all_printings_are
        (λ p, unpriceable p = true → Printing.price p = Printing.null)
        (Snapshot.cards out).
Proof.
  split; [|split].
  - intros cardName counts p m Hp. split.
    + now apply fetchPrice_skipped.
    + rewrite price_printing_unfold, (fetchPrice_skipped _ _ _ _ _ _ Hp).
      simpl. now rewrite Nat.add_0_r.
  - destruct (price_pass_spec net cardsMap n)
      as [f [cm' [n' [t [Hp [_ H']]]]]]. eauto 10.
  - intros out n' t Hmain.
    destruct (main_returns net config env now n out n' t Hmain)
      as [om [cm [counts [n1 [t1 [t2
           [Hmerge [_ [_ [_ [_ [_ [_ [_ [Hpriced _]]]]]]]]]]]]]]].
    apply merge_lists_ok in Hmerge. subst cm.
    eapply price_pass_keeps_null; [exact Hpriced|].
    apply merge_all_null. constructor.
Qed.

(** C10. Processing a source starts by making sure its owner has a
    record, which for a new owner is the record with the owner's name, the
    phone resolved from the environment and a card count of 0; the URLs of
    the source are processed after that, on the owners map that holds the
    record.  When a run of [main] returns, the owners list of its snapshot
    holds, for every configured source, a record with the source's owner
    name and resolved phone, whose card count is 0 when every URL the run
    visits for the owner fails to classify or to fetch, or the owner has
    no URL.  All this holds for the owners that are not named like a
    member of [Object.prototype]: such an owner gets no record, and a
    configuration whose only source belongs to the owner toString, without
    URLs, yields a snapshot with no owner at all. *)
Theorem owner_registered_before_urls :
  (∀ acc src,
     ∃ ownersMap,
       process_source net config env acc src
       = bind (log (LogProcessing (Source.owner src)))
           (λ _, foldM (process_url net (Source.owner src))
                   (ownersMap, acc.2) (source_urls src))
       ∧ (proto_member (Source.owner src) = false →
          is_Some (own_get (Source.owner src) ownersMap))
       ∧ (obj_get (Source.owner src) acc.1 = Missing →
          own_get (Source.owner src) ownersMap
          = Some (fresh_owner config env (Source.owner src))))
  ∧ (∀ now n out n' t,
       main net config env now n = (Ok out, n', t) →
       ∀ src,
         In src (Config.sources config) →
         proto_member (Source.owner src) = false →
         ∃ rec,
           In rec (Snapshot.owners out)
           ∧ Owner.name rec = Source.owner src
           ∧ Owner.phone rec = resolve_phone config env (Source.owner src)
           ∧ (owner_fails net (Config.sources config) n (Source.owner src) →
              Owner.cardCount rec = 0%nat))
  ∧ ∀ now n,
      main net
        {| Config.sources :=
             [{| Source.owner := "toString"; Source.urls := Some [];
                 Source.url := None |}];
           Config.phoneSecretNames := None |}
        env now n
      = (Ok {| Snapshot.lastUpdated := now; Snapshot.owners := [];
               Snapshot.cards := [] |}, n,
         [Log (LogProcessing "toString"); Log LogPricing;
          Log (LogSummary 0 0 QNaN); Log (LogDone 0 0); Log LogWritten]).
Proof.
  split; [|split; [|reflexivity]].
  - intros acc src.
    exists (ensure_owner config env (Source.owner src) acc.1).
    split; [reflexivity|]. unfold ensure_owner, obj_get.
    destruct (own_get (Source.owner src) acc.1) as [rec|] eqn:Hget.
    + rewrite Hget. split; [eauto | discriminate].
    + destruct (proto_member (Source.owner src)) eqn:Hp.
      * split; discriminate.
      * rewrite own_get_set_eq. split; [eauto | reflexivity].
  - intros now n out n' t Hmain src Hsrc Hplain.
    destruct (main_returns net config env now n out n' t Hmain)
      as [om [cm [counts [n1 [t1 [t2
           [_ [_ [_ [_ [Hout [_ [[Hrec _] [Hin _]]]]]]]]]]]]]].
    destruct (Hin src Hsrc Hplain) as [rec Hget]. exists rec.
    destruct (Hrec _ _ Hget) as [_ [Hname [Hphone Hcount]]]. rewrite Hout.
    split; [eapply own_get_In_values; eauto|].
    split; [exact Hname|]. split; [exact Hphone|].
    intros Hfails. rewrite Hcount.
    now apply (owner_fails_no_entries net).
Qed.

(** X26. In the snapshot of a run that returns, the card count of every
    owner is the number of entries the run fetched for that owner, before
    any merging; and every configured owner that is not named like a
    member of [Object.prototype] is listed. *)
Theorem cardCount_counts_fetched_entries (now : string) (n : nat)
    (out : Snapshot.t) (n' : nat) (t : list Event) :
  main net config env now n = (Ok out, n', t) →
  (∀ rec,
     In rec (Snapshot.owners out) →
     Owner.cardCount rec
     = merged_count (Owner.name rec)
         (run_entries net (Config.sources config) n))
  ∧ ∀ src,
      In src (Config.sources config) →
      proto_member (Source.owner src) = false →
      ∃ rec, In rec (Snapshot.owners out) ∧ Owner.name rec = Source.owner src.
Proof.
  intros Hmain.
  destruct (main_returns net config env now n out n' t Hmain)
    as [om [cm [counts [n1 [t1 [t2
         [_ [_ [_ [_ [Hout [_ [[Hrec [_ Hnd]] [Hin _]]]]]]]]]]]]]].
  rewrite Hout. split.
  - intros rec Hrin. unfold Object_values in Hrin.
    apply in_map_iff in Hrin as [[o r] [Hr Hkv]]. cbn in Hr. subst r.
    apply (own_get_NoDup _ _ _ Hnd) in Hkv.
    destruct (Hrec _ _ Hkv) as [_ [Hname [_ Hcount]]].
    now rewrite Hname.
  - intros src Hsrc Hplain. destruct (Hin src Hsrc Hplain) as [rec Hget].
    exists rec. destruct (Hrec _ _ Hget) as [_ [Hname _]].
    split; [eapply own_get_In_values; eauto|exact Hname].
Qed.

(** C9. A run of [main] that reaches its end logs one summary line; the
    percentage of that line is the quotient of the fetched count by the
    number of printings of the snapshot, times 100, computed whatever the
    two counts are.  With no printing at all both counts are 0 and the
    quotient is 0/0, which is NaN. *)
Theorem summary_divides_unguarded (now : string) (n : nat)
    (out : Snapshot.t) (n' : nat) (t : list Event) :
  main net config env now n = (Ok out, n', t) →
  ∃ pricesFetched,
    let pricesTotal := length (all_printings (Snapshot.cards out)) in
    In (Log (LogSummary pricesFetched pricesTotal
               (times (div (Z.of_nat pricesFetched) (Z.of_nat pricesTotal))
                  100))) t
    ∧ (pricesTotal = 0%nat →
       div (Z.of_nat pricesFetched) (Z.of_nat pricesTotal) = QNaN
       ∧ In (Log (LogSummary 0 0 QNaN)) t).
Proof.
  intros Hmain.
  destruct (main_returns net config env now n out n' t Hmain)
    as [om [cm [[f total] [n1 [t1 [t2
         [_ [_ [_ [_ [_ [-> [_ [_ [_ [Htotal Hf]]]]]]]]]]]]]]]].
  cbn [fst snd] in *. subst total. exists f. cbn zeta.
  assert (∀ e, In e (t1 ++ [Log LogPricing] ++ t2
                     ++ [e; Log (LogDone (length (Snapshot.cards out))
                                   (length om));
                         Log LogWritten])) as Hlog.
  { intros e. rewrite !in_app_iff. right. right. right. now left. }
  split; [apply Hlog|]. intros Hzero. rewrite Hzero in *.
  assert (f = 0%nat) as -> by lia. split; [reflexivity|]. apply Hlog.
Qed.


End Run.

(** The scenario of the specification: one owner, one deck URL whose
    mainboard holds four foil Lightning Bolts.  The deck is fetched through
    the worker; the price query by set and collector number is answered
    404, so the price stays null. *)
Example main_lightning_bolt :
  main (H := Demo.host_of [Demo.deck_doc])
    (Demo.site
       [("https://moxfield-proxy.faguaz.workers.dev/?url="
         +:+ "https%3A%2F%2Fapi2.moxfield.com%2Fv2%2Fdecks%2Fall%2FaB3_x-9",
         HttpResponse 200 (Demo.stringify Demo.deck_doc))])
    {| Config.sources :=
         [{| Source.owner := "Fausto";
             Source.urls := Some ["https://www.moxfield.com/decks/aB3_x-9"];
             Source.url := None |}];
       Config.phoneSecretNames := None |}
    ∅ "2026-02-03T06:00:00Z" 0%nat
  = (Ok {| Snapshot.lastUpdated := "2026-02-03T06:00:00Z";
           Snapshot.owners :=
             [{| Owner.name := "Fausto"; Owner.phone := "";
                 Owner.cardCount := 1 |}];
           Snapshot.cards :=
             [("lightning bolt",
               {| CardAggregate.name := "Lightning Bolt";
                  CardAggregate.owners :=
                    [("Fausto",
                      [{| Printing.qty := VNum 4;
                          Printing.set := VStr "lea";
                          Printing.setName := VStr "";
                          Printing.isFoil := true;
                          Printing.collectorNumber := VStr "1";
                          Printing.scryfallId := VStr "";
                          Printing.price := Printing.null |}])] |})] |},
     2%nat,
     [Log (LogProcessing "Fausto"); Log (LogGetDeck "aB3_x-9");
      Request ("https://moxfield-proxy.faguaz.workers.dev/?url="
               +:+ "https%3A%2F%2Fapi2.moxfield.com%2Fv2%2Fdecks%2Fall%2FaB3_x-9");
      Log (LogDeckDone 1); Sleep 1000; Log LogPricing;
      Request "https://api.scryfall.com/cards/lea/1";
      Log (LogPriceFailed "Lightning Bolt"
             (HttpStatus 404 "https://api.scryfall.com/cards/lea/1"));
      Log (LogSummary 0 1 (QRatio 0 1)); Log (LogDone 1 1); Log LogWritten]).
Proof. vm_compute. reflexivity. Qed.

(** The same run on a deck whose only card is named Constructor: the
    deck is fetched and counted, the merge loop raises, and the run ends
    before the price pass. *)
Example main_constructor :
  main (H := Demo.host_of [Demo.constructor_doc])
    (Demo.site
       [("https://moxfield-proxy.faguaz.workers.dev/?url="
         +:+ "https%3A%2F%2Fapi2.moxfield.com%2Fv2%2Fdecks%2Fall%2FaB3_x-9",
         HttpResponse 200 (Demo.stringify Demo.constructor_doc))])
    {| Config.sources :=
         [{| Source.owner := "Fausto";
             Source.urls := Some ["https://www.moxfield.com/decks/aB3_x-9"];
             Source.url := None |}];
       Config.phoneSecretNames := None |}
    ∅ "2026-02-03T06:00:00Z" 0%nat
  = (Throw TypeError, 1%nat,
     [Log (LogProcessing "Fausto"); Log (LogGetDeck "aB3_x-9");
      Request ("https://moxfield-proxy.faguaz.workers.dev/?url="
               +:+ "https%3A%2F%2Fapi2.moxfield.com%2Fv2%2Fdecks%2Fall%2FaB3_x-9");
      Log (LogDeckDone 1)]).
Proof. vm_compute. reflexivity. Qed.

(** C6 on a printing of an unknown set with no collector number. *)
Lemma unpriceable_printing_not_queried_witness :
  let p := {| Printing.qty := VNum 4; Printing.set := VStr "unknown";
              Printing.setName := VStr ""; Printing.isFoil := false;
              Printing.collectorNumber := VStr "";
              Printing.scryfallId := VStr ""; Printing.price := Printing.null |} in
  price_printing (H := Demo.host []) (Demo.script []) "Lightning Bolt"
    (0%nat, 0%nat) p 0%nat
  = (Ok ((0%nat, 1%nat), p), 0%nat, [Log (LogPriceSkipped "Lightning Bolt")]).
Proof.
  intros p.
  apply (proj1 (unpriceable_printing_not_queried (H := Demo.host [])
                  (Demo.script [])
                  {| Config.sources := []; Config.phoneSecretNames := None |}
                  ∅ [] "2026-02-03T06:00:00Z" 0%nat)
           "Lightning Bolt" (0%nat, 0%nat) p 0%nat).
  reflexivity.
Defined.

(** An owner whose first URL does not classify and whose second cannot
    be fetched is listed with its phone and no card. *)
Example main_owner_without_cards :
  main (H := Demo.host []) (Demo.script [])
    {| Config.sources :=
         [{| Source.owner := "Fausto";
             Source.urls := Some ["https://example.com/my-cards";
                                  "https://www.moxfield.com/decks/aB3_x-9"];
             Source.url := None |}];
       Config.phoneSecretNames := Some {["Fausto" := "PHONE_FAUSTO"]} |}
    {["PHONE_FAUSTO" := "+54 11 5555"]} "2026-02-03T06:00:00Z" 0%nat
  = (Ok {| Snapshot.lastUpdated := "2026-02-03T06:00:00Z";
           Snapshot.owners :=
             [{| Owner.name := "Fausto"; Owner.phone := "+54 11 5555";
                 Owner.cardCount := 0 |}];
           Snapshot.cards := [] |},
     1%nat,
     [Log (LogProcessing "Fausto");
      Log (LogUnparsable "https://example.com/my-cards");
      Log (LogGetDeck "aB3_x-9");
      Request ("https://moxfield-proxy.faguaz.workers.dev/?url="
               +:+ "https%3A%2F%2Fapi2.moxfield.com%2Fv2%2Fdecks%2Fall%2FaB3_x-9");
      Log (LogFetchFailed "https://www.moxfield.com/decks/aB3_x-9"
             TransportError);
      Log LogPricing; Log (LogSummary 0 0 QNaN); Log (LogDone 0 1);
      Log LogWritten]).
Proof. vm_compute. reflexivity. Qed.

(** C9 on a configuration without sources. *)
Lemma summary_divides_unguarded_witness :
  let config := {| Config.sources := []; Config.phoneSecretNames := None |} in
  ∃ out n' t,
    main (H := Demo.host []) (Demo.script []) config ∅ "2026-02-03T06:00:00Z"
      0%nat
    = (Ok out, n', t)
    ∧ In (Log (LogSummary 0 0 QNaN)) t.
Proof.
  intros config. eexists _, _, _. split; [reflexivity|].
  destruct (summary_divides_unguarded (H := Demo.host []) (Demo.script [])
              config ∅ "2026-02-03T06:00:00Z" 0%nat _ _ _ eq_refl)
    as [f [_ Hzero]].
  apply Hzero. reflexivity.
Defined.

(** X25 on the run of the specification's scenario. *)
Lemma snapshot_merges_fetched_entries_witness :
  let net :=
    Demo.site
      [("https://moxfield-proxy.faguaz.workers.dev/?url="
        +:+ "https%3A%2F%2Fapi2.moxfield.com%2Fv2%2Fdecks%2Fall%2FaB3_x-9",
        HttpResponse 200 (Demo.stringify Demo.deck_doc))] in
  let config :=
    {| Config.sources :=
         [{| Source.owner := "Fausto";
             Source.urls := Some ["https://www.moxfield.com/decks/aB3_x-9"];
             Source.url := None |}];
       Config.phoneSecretNames := None |} in
  ∃ out n' t,
    main (H := Demo.host_of [Demo.deck_doc]) net config ∅
      "2026-02-03T06:00:00Z" 0%nat
    = (Ok out, n', t)
    ∧ qtys (VStr "lea") true
        (printings_of (Snapshot.cards out) "lightning bolt" "Fausto")
      = [VNum 4].
Proof.
  intros net config. eexists _, _, _. split; [vm_compute; reflexivity|].
  apply (proj1 (proj2 (snapshot_merges_fetched_entries
                         (H := Demo.host_of [Demo.deck_doc]) net config ∅
                         "2026-02-03T06:00:00Z" 0%nat _ _ _ eq_refl))
           "lightning bolt" "Fausto" (VStr "lea") true).
Defined.

(** X26 on the run of the specification's scenario. *)
Lemma cardCount_counts_fetched_entries_witness :
  let net :=
    Demo.site
      [("https://moxfield-proxy.faguaz.workers.dev/?url="
        +:+ "https%3A%2F%2Fapi2.moxfield.com%2Fv2%2Fdecks%2Fall%2FaB3_x-9",
        HttpResponse 200 (Demo.stringify Demo.deck_doc))] in
  let config :=
    {| Config.sources :=
         [{| Source.owner := "Fausto";
             Source.urls := Some ["https://www.moxfield.com/decks/aB3_x-9"];
             Source.url := None |}];
       Config.phoneSecretNames := None |} in
  ∃ out n' t,
    main (H := Demo.host_of [Demo.deck_doc]) net config ∅
      "2026-02-03T06:00:00Z" 0%nat
    = (Ok out, n', t)
    ∧ ∃ rec, In rec (Snapshot.owners out) ∧ Owner.name rec = "Fausto".
Proof.
  intros net config. eexists _, _, _. split; [vm_compute; reflexivity|].
  apply (proj2 (cardCount_counts_fetched_entries
                  (H := Demo.host_of [Demo.deck_doc]) net config ∅
                  "2026-02-03T06:00:00Z" 0%nat _ _ _ eq_refl)
           _ (or_introl eq_refl) eq_refl).
Defined.

End MainFacts.

(** ** Deck reader *)

Module ReaderFacts.
Import Script Notions.

Section Facts.
Context `{Host}.

(** C4, as amended.  For every deck entry the reader turns into a card:
    [set], [setName] and [collectorNumber] are read from the nested
    card-detail object alone and default to ["unknown"], [""] and [""] when
    the nested object lacks them; [scryfallId] is the nested [scryfall_id],
    else the nested [scryfallId], else [""]; only [finishes] falls back to
    the sibling top-level field of the entry, and to the empty list after
    that.  Hence two entries with the same nested object get the same set,
    set name, collector number and Scryfall id, whatever their top-level
    fields hold. *)
Theorem deck_entry_printing_fields (name : string) (card : Value)
    (e : RawCardEntry.t) :
  deck_entry name card = Ok e →
  nested_only "set" card (VStr "unknown") (RawCardEntry.set e)
  ∧ nested_only "setName" card (VStr "") (RawCardEntry.setName e)
  ∧ nested_only "cn" card (VStr "") (RawCardEntry.collectorNumber e)
  ∧ falls_back_to_sibling "finishes" card (VArr []) (RawCardEntry.finishes e)
  ∧ RawCardEntry.scryfallId e
    = or (or (get_opt (get_opt card "card") "scryfall_id")
             (get_opt (get_opt card "card") "scryfallId")) (VStr "")
  ∧ ∀ name' card' e',
      get_opt card' "card" = get_opt card "card" →
      deck_entry name' card' = Ok e' →
      RawCardEntry.set e' = RawCardEntry.set e
      ∧ RawCardEntry.setName e' = RawCardEntry.setName e
      ∧ RawCardEntry.collectorNumber e' = RawCardEntry.collectorNumber e
      ∧ RawCardEntry.scryfallId e' = RawCardEntry.scryfallId e.
Proof.
  unfold deck_entry, nested_only, falls_back_to_sibling.
  destruct (includes_foil _) as [foil|err]; [|discriminate].
  intros [= <-]. simpl. do 5 (split; [reflexivity|]).
  intros name' card' e' Hcard.
  destruct (includes_foil _) as [foil'|err']; [|discriminate].
  intros [= <-]. simpl. now rewrite Hcard.
Qed.

(** The page count that [fetchCollection]'s loop is unrolled with agrees
    with the loop test [page <= totalPages]: the test holds for each of the
    pages after the first that the count covers, and fails for the next. *)
Lemma pages_after_first_loop_test (totalPages : Value) :
  (∀ k, (k < pages_after_first totalPages)%nat →
        le_value (2 + Z.of_nat k) totalPages = true)
  ∧ le_value (2 + Z.of_nat (pages_after_first totalPages)) totalPages = false.
Proof.
  unfold pages_after_first, le_value.
  destruct (ToNumber totalPages) as [z|]; [|split; [intros k Hk; lia|trivial]].
  split; [intros k Hk; apply Z.leb_le | apply Z.leb_gt]; lia.
Qed.

End Facts.

(** A collection of two pages: the second page is fetched after a 300 ms
    pause, no pause follows the last page, and the cards of both pages come
    back in order. *)
Example fetchCollection_two_pages :
  let page n :=
    "https://moxfield-proxy.faguaz.workers.dev/?url="
    +:+ "https%3A%2F%2Fapi2.moxfield.com%2Fv1%2Fcollections%2Fsearch%2FQw12"
    +:+ "%3FsortType%3DcardName%26sortDirection%3Dascending%26pageNumber%3D"
    +:+ n +:+ "%26pageSize%3D50" in
  let card name quantity :=
    {| RawCardEntry.name := name; RawCardEntry.qty := VNum quantity;
       RawCardEntry.set := VStr "lea"; RawCardEntry.setName := VStr "";
       RawCardEntry.collectorNumber := VStr "";
       RawCardEntry.finishes := VArr []; RawCardEntry.isFoil := false;
       RawCardEntry.scryfallId := VStr "" |} in
  fetchCollection (H := Demo.host_of [Demo.page_1; Demo.page_2])
    (Demo.site [(page "1", HttpResponse 200 (Demo.stringify Demo.page_1));
                (page "2", HttpResponse 200 (Demo.stringify Demo.page_2))])
    "Qw12" 0%nat
  = (Ok [card "Counterspell" 2; card "Dark Ritual" 1; card "Giant Growth" 3],
     2%nat,
     [Log (LogGetPage 1 (VNum 1)); Request (page "1"); Sleep 300;
      Log (LogGetPage 2 (VNum 2)); Request (page "2");
      Log (LogCollectionDone 3)]).
Proof. vm_compute. reflexivity. Qed.

(** C4 as stated fails: an entry whose nested object has no set while the
    entry itself carries one gets the default set, not the sibling's. *)
Lemma deck_entry_ignores_sibling_set :
  let card := VObj [("quantity", VNum 4); ("set", VStr "lea");
                    ("card", VObj [("cn", VStr "161")])] in
  ∃ e,
    deck_entry (H := Demo.host []) "Lightning Bolt" card = Ok e
    ∧ RawCardEntry.set e = VStr "unknown"
    ∧ ¬ falls_back_to_sibling "set" card (VStr "unknown") (RawCardEntry.set e).
Proof.
  intros card. eexists. split; [reflexivity|]. split; [reflexivity|].
  unfold falls_back_to_sibling. simpl. discriminate.
Qed.

(** The amended C4 on the same entry. *)
Lemma deck_entry_printing_fields_witness :
  let card := VObj [("quantity", VNum 4); ("set", VStr "lea");
                    ("finishes", VArr [VStr "foil"]);
                    ("card", VObj [("cn", VStr "161")])] in
  ∃ e,
    deck_entry (H := Demo.host []) "Lightning Bolt" card = Ok e
    ∧ RawCardEntry.set e = VStr "unknown"
    ∧ RawCardEntry.collectorNumber e = VStr "161"
    ∧ RawCardEntry.finishes e = VArr [VStr "foil"].
Proof.
  intros card. eexists. split; [reflexivity|].
  destruct (deck_entry_printing_fields (H := Demo.host []) "Lightning Bolt"
              card _ eq_refl) as [Hset [_ [Hcn [Hfin _]]]].
  split; [exact Hset|]. split; [exact Hcn | exact Hfin].
Defined.

End ReaderFacts.

(** ** Remote fetch client: every run of [httpGet] *)

Module HttpProps.
Import Script Notions Views FetchFacts.

Section Facts.
Context `{Host}.
Variable net : nat → string → Response.

(** A call of [httpGet] retries on a run of retryable responses, as long
    as its budget lasts, and ends on the response after them. *)
Lemma httpGet_run (url : string) (retries n : nat) :
  ∃ statuses : list Z,
    (length statuses ≤ retries)%nat
    ∧ httpGet net url retries n
      = (final_outcome url (net (n + length statuses)%nat url),
         S (n + length statuses), retry_trace url statuses)
    ∧ (∀ i s, statuses !! i = Some s →
              retryable s = true
              ∧ ∃ body, net (n + i)%nat url = HttpResponse s body)
    ∧ (retryable_response (net (n + length statuses)%nat url) = true →
       length statuses = retries).
Proof.
  revert n. induction retries as [|retries IH]; intros n.
  - exists []. cbn [length]. rewrite Nat.add_0_r, httpGet_unfold.
    split; [lia|]. split; [|split; [intros i s; discriminate|trivial]].
    unfold final_outcome, retryable, retry_trace. simpl.
    destruct (net n url) as [s body|]; trivial.
    destruct ((s =? 429) || (s >=? 500)); trivial.
    destruct (negb (s =? 200)); trivial. destruct (JSON_parse body); trivial.
  - rewrite httpGet_unfold.
    destruct (net n url) as [s body|] eqn:Hnet.
    + destruct ((s =? 429) || (s >=? 500)) eqn:Hretry.
      * destruct (IH (S n)) as [statuses [Hlen [Hrun [Hall Hfull]]]].
        exists (s :: statuses). simpl length.
        replace (n + S (length statuses))%nat with (S n + length statuses)%nat
          by lia.
        rewrite Hrun. split; [lia|]. split; [reflexivity|]. split.
        -- intros [|i] s' Hi; simpl in Hi.
           ++ injection Hi as <-. rewrite Nat.add_0_r. eauto.
           ++ replace (n + S i)%nat with (S n + i)%nat by lia. now apply Hall.
        -- intros Hr. now rewrite (Hfull Hr).
      * exists []. cbn [length]. rewrite Nat.add_0_r, Hnet.
        split; [lia|]. split; [|split; [intros i s'; discriminate|]].
        -- unfold final_outcome, retryable, retry_trace. rewrite Hretry. simpl.
           destruct (negb (s =? 200)); trivial.
           destruct (JSON_parse body); trivial.
        -- unfold retryable_response, retryable. rewrite Hretry. discriminate.
    + exists []. cbn [length]. rewrite Nat.add_0_r, Hnet.
      split; [lia|]. split; [reflexivity|].
      split; [intros i s'; discriminate | discriminate].
Qed.

Lemma requests_retry_trace (url : string) (statuses : list Z) :
  requests (retry_trace url statuses) = S (length statuses)
  ∧ requested (retry_trace url statuses) = repeat url (S (length statuses))
  ∧ length (List.filter (λ e, match e with Sleep _ => true | _ => false end)
              (retry_trace url statuses)) = length statuses.
Proof.
  unfold retry_trace, requests, requested.
  induction statuses as [|s statuses [IH1 [IH2 IH3]]]; simpl; auto.
  simpl in *. rewrite IH1, IH2, IH3. auto.
Qed.

Lemma slept_retry_trace (url : string) (statuses : list Z) :
  slept (retry_trace url statuses) = list_sum_Z (map wait_for statuses).
Proof.
  unfold retry_trace, slept, list_sum_Z.
  induction statuses as [|s statuses IH]; simpl; trivial. now rewrite IH.
Qed.

Lemma requested_app (t1 t2 : list Event) :
  requested (t1 ++ t2) = requested t1 ++ requested t2.
Proof. unfold requested. apply flat_map_app. Qed.


Lemma waits_bounded (statuses : list Z) :
  2000 * Z.of_nat (length statuses) <= list_sum_Z (map wait_for statuses)
  <= 5000 * Z.of_nat (length statuses).
Proof.
  unfold list_sum_Z, wait_for.
  induction statuses as [|s statuses IH]; simpl length; simpl map;
    simpl fold_right; [lia|].
  destruct (s =? 429); lia.
Qed.

Lemma timeline_retry_trace (url : string) (statuses : list Z) :
  timeline (retry_trace url statuses)
  = flat_map (λ w, [Request url; Sleep w]) (map wait_for statuses)
    ++ [Request url].
Proof.
  unfold retry_trace, timeline.
  induction statuses as [|s statuses IH]; [reflexivity|].
  cbn [flat_map map]. rewrite <- !app_assoc. cbn [app List.filter].
  now rewrite IH.
Qed.

(** X1. A call of [httpGet] with a budget of [retries] issues at least one
    request and at most [retries + 1], all for the URL it was given.  Apart
    from its log lines, its trace is those requests with one sleep between
    every two consecutive requests, none before the first and none after
    the last; every sleep lasts 5 or 2 seconds. *)
Theorem httpGet_stays_in_budget (url : string) (retries n : nat) :
  let '(_, n', t) := httpGet net url retries n in
  ∃ waits,
    timeline t = flat_map (λ w, [Request url; Sleep w]) waits ++ [Request url]
    ∧ Forall (λ w, w = 5000 ∨ w = 2000) waits
    ∧ (length waits ≤ retries)%nat
    ∧ n' = (n + length waits + 1)%nat.
Proof.
  destruct (httpGet_run url retries n) as [statuses [Hlen [-> _]]].
  exists (map wait_for statuses).
  split; [apply timeline_retry_trace|]. rewrite length_map.
  split; [|split; [exact Hlen|lia]].
  apply Forall_forall. intros w [s [-> _]]%list_elem_of_fmap.
  unfold wait_for. destruct (s =? 429); auto.
Qed.

(** X2. The outcome of [httpGet] is decided by the response to its last
    request alone: a transport failure, a status other than 200, a body
    that is not JSON or the parsed body.  Every response before the last
    was a 429 or a status of 500 or more, and the call stops on such a
    response only when its budget is spent. *)
Theorem httpGet_outcome_is_last_response (url : string) (retries n : nat) :
  let '(r, n', t) := httpGet net url retries n in
  r = final_outcome url (net (n' - 1)%nat url)
  ∧ (∀ k, (n ≤ k < n' - 1)%nat → retryable_response (net k url) = true)
  ∧ (retryable_response (net (n' - 1)%nat url) = true →
     n' = (n + retries + 1)%nat)
  ∧ ∃ statuses,
      t = retry_trace url statuses
      ∧ length statuses = (n' - n - 1)%nat
      ∧ ∀ i s, statuses !! i = Some s →
               ∃ body, net (n + i)%nat url = HttpResponse s body.
Proof.
  destruct (httpGet_run url retries n) as [statuses [Hlen [-> [Hall Hfull]]]].
  replace (S (n + length statuses) - 1)%nat with (n + length statuses)%nat
    by lia.
  split; [reflexivity|]. split; [|split].
  - intros k Hk.
    destruct (lookup_lt_is_Some_2 statuses (k - n)) as [s Hs]; [lia|].
    destruct (Hall _ _ Hs) as [Hr [body Hnet]].
    replace (n + (k - n))%nat with k in Hnet by lia.
    rewrite Hnet. exact Hr.
  - intros Hr. rewrite (Hfull Hr). lia.
  - exists statuses. split; [reflexivity|]. split; [lia|].
    intros i s Hs. now destruct (Hall _ _ Hs).
Qed.

(** X3. Against a server that keeps answering with retryable statuses,
    [httpGet] spends its whole budget: it issues [retries + 1] requests,
    sleeps at least 2 seconds after each but the last, and fails with the
    retries-exhausted error that carries the status of the last response. *)
Theorem httpGet_exhausts_budget (url : string) (retries n : nat) :
  (∀ k, (n ≤ k)%nat → retryable_response (net k url) = true) →
  ∃ statusCode body t,
    net (n + retries)%nat url = HttpResponse statusCode body
    ∧ httpGet net url retries n
      = (Throw (RetryExhausted statusCode), S (n + retries), t)
    ∧ requested t = repeat url (S retries)
    ∧ 2000 * Z.of_nat retries <= slept t.
Proof.
  intros Hall.
  destruct (httpGet_run url retries n) as [statuses [Hlen [Hrun [_ Hfull]]]].
  assert (length statuses = retries) as Hk by (apply Hfull, Hall; lia).
  rewrite Hk in Hrun.
  specialize (Hall (n + retries)%nat ltac:(lia)).
  destruct (net (n + retries)%nat url) as [s body|] eqn:Hnet; [|discriminate].
  exists s, body, (retry_trace url statuses). split; [reflexivity|].
  simpl in Hall. unfold final_outcome in Hrun. rewrite Hall in Hrun.
  split; [exact Hrun|].
  destruct (requests_retry_trace url statuses) as [_ [Hreq _]].
  rewrite Hk in Hreq. split; [exact Hreq|].
  rewrite slept_retry_trace, <- Hk. apply waits_bounded.
Qed.

(** ** What a computation may emit *)

Lemma emits_ret {A} (P : Event → Prop) (a : A) : emits P (ret a).
Proof. intros n. constructor. Qed.

Lemma emits_throw {A} (P : Event → Prop) (e : Error) : emits P (@throw A e).
Proof. intros n. constructor. Qed.

Lemma emits_lift {A} (P : Event → Prop) (o : Outcome A) : emits P (lift o).
Proof. intros n. constructor. Qed.

Lemma emits_emit (P : Event → Prop) (e : Event) : P e → emits P (emit e).
Proof. intros He n. repeat constructor. exact He. Qed.

Lemma emits_bind {A B} (P : Event → Prop) (m : M A) (k : A → M B) :
  emits P m → (∀ a, emits P (k a)) → emits P (bind m k).
Proof.
  intros Hm Hk n. unfold bind. specialize (Hm n).
  destruct (m n) as [[[a|e] n1] t1]; simpl in *; trivial.
  specialize (Hk a n1). destruct (k a n1) as [[r n2] t2]. simpl in *.
  apply Forall_app; auto.
Qed.

Lemma emits_try_catch {A} (P : Event → Prop) (m : M A) (h : Error → M A) :
  emits P m → (∀ e, emits P (h e)) → emits P (try_catch m h).
Proof.
  intros Hm Hh n. unfold try_catch. specialize (Hm n).
  destruct (m n) as [[[a|e] n1] t1]; simpl in *; trivial.
  specialize (Hh e n1). destruct (h e n1) as [[r n2] t2]. simpl in *.
  apply Forall_app; auto.
Qed.

Lemma emits_foldM {A B} (P : Event → Prop) (f : A → B → M A) (l : list B) :
  (∀ a b, emits P (f a b)) → ∀ a, emits P (foldM f a l).
Proof.
  intros Hf. induction l as [|b l IH]; intros a; simpl.
  - apply emits_ret.
  - apply emits_bind; auto.
Qed.

Lemma emits_mapAccumM {S A} (P : Event → Prop) (f : S → A → M (S * A))
    (l : list A) :
  (∀ s a, emits P (f s a)) → ∀ s, emits P (mapAccumM f s l).
Proof.
  intros Hf. induction l as [|a l IH]; intros s; simpl.
  - apply emits_ret.
  - apply emits_bind; [apply Hf|]. intros [s1 a'].
    apply emits_bind; [apply IH|]. intros [s2 l']. apply emits_ret.
Qed.

Lemma emits_httpGet (P : Event → Prop) (url : string) (retries : nat) :
  P (Request url) → (∀ s, P (Log (LogRetry s (wait_for s)))) →
  P (Sleep 5000) → P (Sleep 2000) →
  emits P (httpGet net url retries).
Proof.
  intros Hreq Hlog H5 H2 n.
  destruct (httpGet_run url retries n) as [statuses [_ [-> _]]]. simpl.
  unfold retry_trace. apply Forall_app. split; [|repeat constructor; trivial].
  induction statuses as [|s statuses IH]; simpl; [constructor|].
  repeat constructor; trivial. unfold wait_for. now destruct (s =? 429).
Qed.

Lemma emits_impl {A} (P Q : Event → Prop) (m : M A) :
  (∀ e, P e → Q e) → emits P m → emits Q m.
Proof. intros HPQ Hm n. eapply List.Forall_impl; [exact HPQ|apply Hm]. Qed.

(** ** The price query *)

Lemma price_of_cases (data : Value) :
  price_of data = VNull ∨ truthy (price_of data) = true.
Proof.
  unfold price_of.
  set (x := or (get_opt _ "usd_foil") _).
  destruct (truthy x) eqn:E; [right|left]; unfold or at 1; rewrite E; trivial.
Qed.

(** A price query always returns, with null or a truthy price. *)
Lemma fetchPrice_price (scryfallId set collectorNumber : Value)
    (cardName : string) (n : nat) :
  ∃ price n' t,
    fetchPrice net scryfallId set collectorNumber cardName n = (Ok price, n', t)
    ∧ (price = VNull ∨ truthy price = true).
Proof.
  destruct (skipped scryfallId set collectorNumber) eqn:Hs.
  - rewrite (fetchPrice_skipped _ _ _ _ _ _ Hs). eexists _, _, _.
    split; [reflexivity|now left].
  - rewrite (fetchPrice_attempted _ _ _ _ _ _ Hs).
    destruct (httpGet net _ default_retries n) as [[[data|e] n'] t].
    + destruct (nullish data).
      * eexists _, _, _. split; [reflexivity|now left].
      * destruct (truthy (price_of data)) eqn:Hp;
          eexists _, _, _; (split; [reflexivity|]); [now right|].
        destruct (price_of_cases data); [now left|congruence].
    + eexists _, _, _. split; [reflexivity|now left].
Qed.



(** ** Where requests go and how long pauses last *)

Lemma emits_fetchViaCF (targetUrl : string) :
  emits (λ e, asks_only (eq (worker_url targetUrl)) e
              ∧ pauses_only [5000; 2000] e)
    (fetchViaCF net targetUrl).
Proof.
  apply emits_httpGet; simpl; auto.
Qed.

Lemma emits_fetchDeck (id : string) :
  emits (λ e, asks_only via_worker e ∧ pauses_only [5000; 2000; 300] e)
    (fetchDeck net id).
Proof.
  unfold fetchDeck. apply emits_bind; [apply emits_emit; simpl; auto|].
  intros _. apply emits_bind.
  - eapply emits_impl; [|apply emits_fetchViaCF].
    intros [url|ms|line] [Hq Hp]; simpl in *; split; trivial.
    + subst url. now eexists.
    + tauto.
  - intros data. apply emits_bind; [apply emits_lift|]. intros cards.
    apply emits_bind; [apply emits_emit; simpl; auto|]. intros _.
    apply emits_ret.
Qed.

Lemma emits_collection_page (id : string) (page : Z) (totalPages : Value)
    (allCards : list RawCardEntry.t) :
  emits (λ e, asks_only via_worker e ∧ pauses_only [5000; 2000; 300] e)
    (collection_page net id page totalPages allCards).
Proof.
  unfold collection_page. apply emits_bind; [apply emits_emit; simpl; auto|].
  intros _. apply emits_bind.
  - eapply emits_impl; [|apply emits_fetchViaCF].
    intros [url|ms|line] [Hq Hp]; simpl in *; split; trivial.
    + subst url. now eexists.
    + tauto.
  - intros data. apply emits_bind.
    { destruct (page =? 1); [|apply emits_ret].
      apply emits_bind; [apply emits_lift|]. intros total. apply emits_ret. }
    intros totalPages'. apply emits_bind; [apply emits_lift|]. intros items.
    apply emits_bind; [apply emits_lift|]. intros allCards'.
    apply emits_bind; [|intros _; apply emits_ret].
    destruct (le_value _ _); [apply emits_emit; simpl; auto|apply emits_ret].
Qed.

Lemma emits_collection_rest (remaining : nat) (id : string) (page : Z)
    (totalPages : Value) (allCards : list RawCardEntry.t) :
  emits (λ e, asks_only via_worker e ∧ pauses_only [5000; 2000; 300] e)
    (collection_rest net remaining id page totalPages allCards).
Proof.
  revert page totalPages allCards.
  induction remaining as [|remaining IH]; intros page totalPages allCards;
    simpl; [apply emits_ret|].
  apply emits_bind; [apply emits_collection_page|]. intros r. apply IH.
Qed.

Lemma emits_fetch_cards (parsed : ParsedReference) :
  emits (λ e, asks_only via_worker e ∧ pauses_only [5000; 2000; 300] e)
    (fetch_cards net parsed).
Proof.
  unfold fetch_cards. destruct (type parsed); [apply emits_fetchDeck|].
  unfold fetchCollection.
  apply emits_bind; [apply emits_collection_page|]. intros r.
  apply emits_bind; [apply emits_collection_rest|]. intros allCards.
  apply emits_bind; [apply emits_emit; simpl; auto|]. intros _.
  apply emits_ret.
Qed.

Lemma emits_fetchPrice (scryfallId set collectorNumber : Value)
    (cardName : string) :
  emits (λ e, asks_only scryfall_card e ∧ pauses_only [5000; 2000; 100] e)
    (fetchPrice net scryfallId set collectorNumber cardName).
Proof.
  unfold fetchPrice.
  destruct (negb (truthy scryfallId) && _).
  { apply emits_bind; [apply emits_emit; simpl; auto|]. intros _.
    apply emits_ret. }
  apply emits_try_catch.
  - apply emits_bind.
    + apply emits_httpGet; simpl; auto. split; trivial.
      destruct (truthy scryfallId); now eexists.
    + intros data. apply emits_bind; [apply emits_lift|]. intros prices.
      apply emits_bind.
      { destruct (truthy _); [apply emits_emit; simpl; auto|apply emits_ret]. }
      intros _. apply emits_bind; [apply emits_emit; simpl; auto 6|].
      intros _. apply emits_ret.
  - intros e. apply emits_bind; [apply emits_emit; simpl; auto|]. intros _.
    apply emits_ret.
Qed.

Lemma emits_price_pass (cardsMap : CardsMap) :
  emits (λ e, asks_only scryfall_card e ∧ pauses_only [5000; 2000; 100] e)
    (price_pass net cardsMap).
Proof.
  unfold price_pass. apply emits_mapAccumM. intros counts c.
  unfold price_card. apply emits_bind; [|intros r; apply emits_ret].
  apply emits_mapAccumM. intros counts' o.
  unfold price_owner. apply emits_bind; [|intros r; apply emits_ret].
  apply emits_mapAccumM. intros counts'' p.
  unfold price_printing. apply emits_bind; [apply emits_fetchPrice|].
  intros price. destruct price; apply emits_ret.
Qed.

(** X6. The script talks to two endpoints only.  Decks and collections
    are read through the worker, which is asked for pages of the Moxfield
    API, never from Moxfield directly; prices are asked of the Scryfall
    card endpoint directly, never through the worker; and a whole run of
    [main] issues no other request.  Every pause lasts 5 s or 2 s (retry),
    300 ms (next page), 1 s (next URL) or 100 ms (next price). *)
Theorem run_talks_to_worker_and_scryfall (config : Config.t)
    (env : gmap string string) (now : string) :
  (∀ parsed,
     emits (λ e, asks_only via_worker e ∧ pauses_only [5000; 2000; 300] e)
       (fetch_cards net parsed))
  ∧ (∀ cardsMap,
       emits (λ e, asks_only scryfall_card e ∧ pauses_only [5000; 2000; 100] e)
         (price_pass net cardsMap))
  ∧ emits (λ e, asks_only (λ url, via_worker url ∨ scryfall_card url) e
                ∧ pauses_only [5000; 2000; 300; 1000; 100] e)
      (main net config env now).
Proof.
  split; [exact emits_fetch_cards|]. split; [exact emits_price_pass|].
  unfold main. apply emits_bind.
  - apply emits_foldM. intros acc src. unfold process_source.
    apply emits_bind; [apply emits_emit; simpl; auto|]. intros _.
    apply emits_foldM. intros acc' url. unfold process_url.
    destruct (parseMoxfieldUrl url) as [parsed|].
    + apply emits_bind.
      * apply emits_try_catch.
        -- apply emits_bind; [|intros cards; apply emits_ret].
           eapply emits_impl; [|apply emits_fetch_cards].
           intros [u|ms|line] [Hq Hp]; simpl in *; split; auto.
           intuition.
        -- intros e. apply emits_bind; [apply emits_emit; simpl; auto|].
           intros _. apply emits_ret.
      * intros [cards|]; [|apply emits_ret].
        apply emits_bind; [apply emits_lift|]. intros ownersMap.
        apply emits_bind; [apply emits_lift|]. intros cardsMap.
        apply emits_bind; [apply emits_emit; simpl; auto 6|]. intros _.
        apply emits_ret.
    + apply emits_bind; [apply emits_emit; simpl; auto|]. intros _.
      apply emits_ret.
  - intros acc. apply emits_bind; [apply emits_emit; simpl; auto|]. intros _.
    apply emits_bind.
    + eapply emits_impl; [|apply emits_price_pass].
      intros [u|ms|line] [Hq Hp]; simpl in *; split; auto. intuition.
    + intros priced. apply emits_bind; [apply emits_emit; simpl; auto|].
      intros _. apply emits_bind; [apply emits_emit; simpl; auto|]. intros _.
      apply emits_bind; [apply emits_emit; simpl; auto|]. intros _.
      apply emits_ret.
Qed.

End Facts.

(** X3 on a server that is down: three requests, two pauses of 2 s. *)
Lemma httpGet_exhausts_budget_witness :
  ∃ t,
    httpGet (H := Demo.host []) (λ _ _, HttpResponse 503 "")
      "https://api.scryfall.com/cards/lea/161" 2%nat 0%nat
    = (Throw (RetryExhausted 503), 3%nat, t)
    ∧ 4000 <= slept t.
Proof.
  destruct (httpGet_exhausts_budget (H := Demo.host [])
              (λ _ _, HttpResponse 503 "")
              "https://api.scryfall.com/cards/lea/161" 2%nat 0%nat)
    as [s [body [t [Hnet [Hrun [_ Hsl]]]]]]; [reflexivity|].
  injection Hnet as <- _. exists t. split; [exact Hrun|exact Hsl].
Defined.


End HttpProps.

(** ** The Moxfield readers *)

Module ReaderProps.
Import Script Notions Views.

Section Facts.
Context `{Host}.
Variable net : nat → string → Response.

(** ** What a computation may return *)

Lemma returns_ret {A} (Q : A → Prop) (a : A) : Q a → returns Q (ret a).
Proof. intros Ha n a' n' t [= <- _ _]. exact Ha. Qed.

Lemma returns_lift {A} (Q : A → Prop) (o : Outcome A) :
  (∀ a, o = Ok a → Q a) → returns Q (lift o).
Proof. intros Ho n a n' t [= -> _ _]. now apply Ho. Qed.

Lemma returns_bind {A B} (P : A → Prop) (Q : B → Prop) (m : M A)
    (k : A → M B) :
  returns P m → (∀ a, P a → returns Q (k a)) → returns Q (bind m k).
Proof.
  intros Hm Hk n b n' t. unfold bind.
  destruct (m n) as [[[a|e] n1] t1] eqn:Em; [|discriminate].
  destruct (k a n1) as [[r n2] t2] eqn:Ek. intros [= -> _ _].
  eapply Hk; [eapply Hm|]; eauto.
Qed.

Lemma returns_any {A} (m : M A) : returns (λ _, True) m.
Proof. now intros n a n' t _. Qed.

(** ** The deck reader *)

Lemma deck_entries_app (l1 l2 : list (string * Value))
    (cards : list RawCardEntry.t) :
  deck_entries (l1 ++ l2) cards
  = match deck_entries l1 cards with
    | Ok cards' => deck_entries l2 cards'
    | Throw e => Throw e
    end.
Proof.
  revert cards. induction l1 as [|[name card] l1 IH]; intros cards; simpl;
    trivial.
  destruct (deck_entry name card); trivial.
Qed.

Lemma deck_sections_flat (data : Value) (secs : list string)
    (cards : list RawCardEntry.t) :
  nullish data = false →
  deck_sections data secs cards
  = deck_entries (flat_map (section_entries data) secs) cards.
Proof.
  intros Hd. revert cards.
  induction secs as [|sec secs IH]; intros cards; simpl; trivial.
  unfold get. rewrite Hd, deck_entries_app. unfold section_entries.
  rewrite <- negb_andb.
  destruct (truthy (get_opt data sec) && typeof_object (get_opt data sec));
    simpl; [|apply IH].
  destruct (deck_entries _ cards); [apply IH|reflexivity].
Qed.

Lemma deck_entries_Forall2 (entries : list (string * Value))
    (cards0 cards : list RawCardEntry.t) :
  deck_entries entries cards0 = Ok cards
  ↔ ∃ new, cards = cards0 ++ new
           ∧ Forall2 (λ kv e, deck_entry kv.1 kv.2 = Ok e) entries new.
Proof.
  revert cards0. induction entries as [|[name card] entries IH];
    intros cards0; simpl.
  - split.
    + intros [= <-]. exists []. rewrite app_nil_r. split; [trivial|constructor].
    + intros [new [-> Hnew]]. inversion Hnew. now rewrite app_nil_r.
  - destruct (deck_entry name card) as [c|e] eqn:Ec.
    + rewrite IH. split.
      * intros [new [-> Hnew]]. exists (c :: new).
        rewrite <- app_assoc. split; [trivial|]. now constructor.
      * intros [new [-> Hnew]]. inversion Hnew as [|? e' ? new' He Hrest];
          subst. simpl in He. rewrite Ec in He. injection He as <-.
        exists new'. rewrite <- app_assoc. now split.
    + split; [discriminate|]. intros [new [_ Hnew]].
      inversion Hnew as [|? e' ? new' He Hrest]; subst. simpl in He.
      rewrite Ec in He. discriminate.
Qed.

(** X7. The deck reader walks the five sections in their fixed order and
    the entries of each section in document order, skips a section that is
    missing or is not an object, and builds one entry per name and
    section: a card listed in two sections yields two entries.  It fails
    as a whole when the document is null or when one entry cannot be
    built. *)
Theorem fetchDeck_reads_sections_in_order (data : Value) :
  deck_sections data sections []
  = (if nullish data then Throw TypeError
     else deck_entries (deck_cards data) [])
  ∧ ∀ cards,
      deck_entries (deck_cards data) [] = Ok cards
      ↔ Forall2 (λ kv e, deck_entry kv.1 kv.2 = Ok e) (deck_cards data) cards.
Proof.
  split.
  - destruct (nullish data) eqn:Hd.
    + unfold sections. simpl. unfold get. now rewrite Hd.
    + now apply deck_sections_flat.
  - intros cards. rewrite deck_entries_Forall2. split.
    + now intros [new [-> Hnew]].
    + intros Hnew. now exists cards.
Qed.

(** ** Entries *)

Lemma truthy_or_default (x d : Value) :
  truthy d = true → truthy (or x d) = true.
Proof. intros Hd. unfold or. now destruct (truthy x) eqn:E. Qed.

Lemma or_empty (x : Value) : truthy_or_empty (or x (VStr "")).
Proof.
  unfold truthy_or_empty, or. destruct (truthy x) eqn:E; [left|right]; trivial.
Qed.

Lemma nullish_coalesce (x d : Value) :
  nullish d = false → nullish (coalesce x d) = false.
Proof. intros Hd. unfold coalesce. now destruct (nullish x) eqn:E. Qed.

Lemma deck_entry_well_formed (name : string) (card : Value)
    (e : RawCardEntry.t) :
  deck_entry name card = Ok e → well_formed e ∧ RawCardEntry.name e = trim name.
Proof.
  unfold deck_entry.
  destruct (includes_foil _) as [foil|err] eqn:Ef; [|discriminate].
  intros [= <-]. unfold well_formed. simpl.
  split; [|reflexivity].
  split; [now apply truthy_or_default|].
  split; [now apply nullish_coalesce|].
  split; [exact Ef|]. split; [apply or_empty|]. split; apply or_empty.
Qed.

Lemma collection_item_well_formed (item : Value) (e : RawCardEntry.t) :
  collection_item item = Ok (Some e) →
  well_formed e
  ∧ ∃ s, get_opt (get_opt item "card") "name" = VStr s ∧ s ≠ ""
         ∧ RawCardEntry.name e = trim s.
Proof.
  unfold collection_item.
  destruct (truthy (get_opt (get_opt item "card") "name")) eqn:Hn;
    [|discriminate]. simpl.
  destruct (get_opt (get_opt item "card") "name") as [| |b|z| |s|l|o] eqn:En;
    try discriminate. simpl.
  destruct (includes_foil _) as [foil|err] eqn:Ef; [|discriminate].
  intros [= <-]. unfold well_formed. simpl. split.
  - split; [now apply truthy_or_default|].
    split; [now apply nullish_coalesce|].
    split; [exact Ef|]. split; [apply or_empty|]. split; apply or_empty.
  - exists s. split; [reflexivity|]. split; [|reflexivity].
    intros ->. discriminate.
Qed.

Lemma deck_entries_well_formed (entries : list (string * Value))
    (cards0 cards : list RawCardEntry.t) :
  deck_entries entries cards0 = Ok cards →
  Forall well_formed cards0 → Forall well_formed cards.
Proof.
  rewrite deck_entries_Forall2. intros [new [-> Hnew]] H0.
  apply Forall_app. split; [exact H0|].
  induction Hnew as [|kv e l l' He _ IH]; constructor; trivial.
  now apply deck_entry_well_formed in He.
Qed.

Lemma deck_sections_well_formed (data : Value) (secs : list string)
    (cards0 cards : list RawCardEntry.t) :
  deck_sections data secs cards0 = Ok cards →
  Forall well_formed cards0 → Forall well_formed cards.
Proof.
  destruct (nullish data) eqn:Hd.
  - destruct secs; simpl; [now intros [= <-]|]. unfold get. rewrite Hd.
    discriminate.
  - rewrite deck_sections_flat by exact Hd. apply deck_entries_well_formed.
Qed.

Lemma collection_items_well_formed (items : list Value)
    (cards0 cards : list RawCardEntry.t) :
  collection_items items cards0 = Ok cards →
  Forall well_formed cards0 → Forall well_formed cards.
Proof.
  revert cards0. induction items as [|item items IH]; intros cards0; simpl.
  - now intros [= <-].
  - destruct (collection_item item) as [[c|]|e] eqn:Ec; [| |discriminate].
    + intros Hrest H0. apply (IH _ Hrest). apply Forall_app.
      split; [exact H0|]. constructor; [|constructor].
      now apply collection_item_well_formed in Ec.
    + apply IH.
Qed.

Lemma collection_page_well_formed (id : string) (page : Z) (totalPages : Value)
    (allCards : list RawCardEntry.t) :
  Forall well_formed allCards →
  returns (λ r, Forall well_formed r.2)
    (collection_page net id page totalPages allCards).
Proof.
  intros H0. unfold collection_page.
  eapply returns_bind; [apply returns_any|]. intros _ _.
  eapply returns_bind; [apply returns_any|]. intros data _.
  eapply returns_bind; [apply returns_any|]. intros totalPages' _.
  eapply returns_bind; [apply returns_any|]. intros items _.
  eapply (returns_bind (Forall well_formed)).
  - apply returns_lift. intros cards.
    destruct items; try (now intros [= <-]).
    intros Hitems. eapply collection_items_well_formed; eauto.
  - intros cards Hcards.
    eapply returns_bind; [apply returns_any|]. intros _ _.
    now apply returns_ret.
Qed.

Lemma collection_rest_well_formed (remaining : nat) (id : string) (page : Z)
    (totalPages : Value) (allCards : list RawCardEntry.t) :
  Forall well_formed allCards →
  returns (Forall well_formed)
    (collection_rest net remaining id page totalPages allCards).
Proof.
  revert page totalPages allCards.
  induction remaining as [|remaining IH]; intros page totalPages allCards H0;
    simpl.
  - now apply returns_ret.
  - eapply returns_bind; [now apply collection_page_well_formed|].
    intros r Hr. now apply IH.
Qed.

Lemma fetch_cards_well_formed (parsed : ParsedReference) :
  returns (Forall well_formed) (fetch_cards net parsed).
Proof.
  unfold fetch_cards. destruct (type parsed).
  - unfold fetchDeck.
    eapply returns_bind; [apply returns_any|]. intros _ _.
    eapply returns_bind; [apply returns_any|]. intros data _.
    eapply (returns_bind (Forall well_formed)).
    + apply returns_lift. intros cards Hcards.
      eapply deck_sections_well_formed; eauto.
    + intros cards Hcards.
      eapply returns_bind; [apply returns_any|]. intros _ _.
      now apply returns_ret.
  - unfold fetchCollection.
    eapply returns_bind; [now apply collection_page_well_formed|].
    intros r Hr.
    eapply returns_bind; [now apply collection_rest_well_formed|].
    intros cards Hcards.
    eapply returns_bind; [apply returns_any|]. intros _ _.
    now apply returns_ret.
Qed.

(** X8. Every entry either reader builds has a truthy set code (the
    word unknown when the document has none), a quantity that is neither
    null nor undefined, a foil flag that is exactly whether its finishes
    include foil, and a set name, collector number and Scryfall id that
    are truthy or the empty string.  A deck entry is named by its trimmed
    section key, a collection entry by the trimmed non-empty string under
    its card's name. *)
Theorem readers_build_well_formed_entries :
  (∀ name card e,
     deck_entry name card = Ok e →
     well_formed e ∧ RawCardEntry.name e = trim name)
  ∧ (∀ item e,
       collection_item item = Ok (Some e) →
       well_formed e
       ∧ ∃ s, get_opt (get_opt item "card") "name" = VStr s ∧ s ≠ ""
              ∧ RawCardEntry.name e = trim s)
  ∧ ∀ parsed, returns (Forall well_formed) (fetch_cards net parsed).
Proof.
  split; [exact deck_entry_well_formed|].
  split; [exact collection_item_well_formed|exact fetch_cards_well_formed].
Qed.

(** X27. Reading a deck is reading one document: the reader asks the
    worker for the deck's API URL, one to three times, and for nothing
    else; its outcome is that of the last response, with the sections of
    the document read when the response is a document; its first line
    names the deck and, when it returns, its last line counts the cards. *)
Theorem fetchDeck_is_one_document (id : string) (n : nat) :
  let url := worker_url (MOX_API +:+ "/v2/decks/all/" +:+ id) in
  let '(r, n', t) := fetchDeck net id n in
  (n < n' ≤ n + 3)%nat
  ∧ requested t = repeat url (n' - n)
  ∧ head t = Some (Log (LogGetDeck id))
  ∧ r = match final_outcome url (net (n' - 1)%nat url) with
        | Ok data => deck_sections data sections []
        | Throw e => Throw e
        end
  ∧ ∀ cards, r = Ok cards → last t = Some (Log (LogDeckDone (length cards))).
Proof.
  intros url. unfold fetchDeck, fetchViaCF.
  fold (worker_url (MOX_API +:+ "/v2/decks/all/" +:+ id)). fold url.
  destruct (HttpProps.httpGet_run net url default_retries n)
    as [statuses [Hlen [E _]]].
  unfold default_retries in Hlen.
  destruct (HttpProps.requests_retry_trace url statuses) as [_ [Hreq _]].
  unfold bind, log, emit, lift, ret. rewrite E.
  assert (∀ tail,
            requested tail = [] →
            requested (Log (LogGetDeck id) :: retry_trace url statuses ++ tail)
            = repeat url (S (n + length statuses) - n)) as Hasked.
  { intros tail Ht. change (Log ?l :: ?t) with ([Log l] ++ t).
    replace (S (n + length statuses) - n)%nat with (S (length statuses))
      by lia.
    rewrite !HttpProps.requested_app, Hreq, Ht, app_nil_r. reflexivity. }
  destruct (final_outcome url (net (n + length statuses)%nat url))
    as [data|e] eqn:Ef.
  - destruct (deck_sections data sections []) as [cards|e] eqn:Ed; cbn [app];
      rewrite ?app_nil_r;
      replace (S (n + length statuses) - 1)%nat with (n + length statuses)%nat
        by lia;
      rewrite Ef, Ed.
    + split; [lia|]. split; [now apply Hasked|].
      split; [reflexivity|]. split; [reflexivity|].
      intros cards' [= <-].
      change (Log ?l :: ?t ++ [?x]) with ((Log l :: t) ++ [x]).
      apply last_snoc.
    + split; [lia|]. split; [rewrite <- (app_nil_r (retry_trace _ _));
                              now apply Hasked|].
      split; [reflexivity|]. split; [reflexivity|]. discriminate.
  - cbn [app].
    replace (S (n + length statuses) - 1)%nat with (n + length statuses)%nat
      by lia.
    rewrite Ef. split; [lia|].
    split; [rewrite <- (app_nil_r (retry_trace _ _)); now apply Hasked|].
    split; [reflexivity|]. split; [reflexivity|]. discriminate.
Qed.

End Facts.

(** X8 on a deck entry without printing details. *)
Lemma readers_build_well_formed_entries_witness :
  let e := {| RawCardEntry.name := "Lightning Bolt";
              RawCardEntry.qty := VNum 1;
              RawCardEntry.set := VStr "unknown";
              RawCardEntry.setName := VStr "";
              RawCardEntry.collectorNumber := VStr "";
              RawCardEntry.finishes := VArr [];
              RawCardEntry.isFoil := false;
              RawCardEntry.scryfallId := VStr "" |} in
  well_formed e ∧ RawCardEntry.name e = "Lightning Bolt".
Proof.
  intros e.
  apply (proj1 (readers_build_well_formed_entries (H := Demo.host [])
                  (Demo.script []))
           " Lightning Bolt " (VObj [("quantity", VNull)]) e).
  reflexivity.
Defined.

End ReaderProps.

(** ** The snapshot of a run *)

Module SnapshotProps.
Import Script Notions Views MergeFacts FetchFacts MainFacts ReaderProps.

Section Facts.
Context `{Host}.
Variable net : nat → string → Response.
Variable config : Config.t.
Variable env : gmap string string.

(** ** Printings *)

Lemma priced_printings_are (P : Printing.t → Prop)
    (cardsMap cardsMap' : CardsMap) :
  (∀ price p, P p → P (set_price price p)) →
  Forall2 card_priced_from cardsMap cardsMap' →
  all_printings_are P cardsMap → all_printings_are P cardsMap'.
Proof.
  unfold all_printings_are. intros Hset.
  induction 1 as [|c c' cm cm' [_ [_ Ho]] _ IH]; intros Hall;
    [constructor|].
  apply Forall_cons in Hall as [Hc Hall]. constructor; [|now apply IH].
  clear IH Hall. induction Ho as [|o o' os os' [_ Hp] _ IH]; [constructor|].
  apply Forall_cons in Hc as [Hps Hc]. constructor; [|now apply IH].
  clear IH Hc. induction Hp as [|p p' ps ps' Hpp _ IH]; [constructor|].
  apply Forall_cons in Hps as [Hp Hps]. constructor; [|now apply IH].
  destruct Hpp as [[price ->] _]. now apply Hset.
Qed.

Lemma contribution_well_formed (url : string) (k : nat)
    (cards : list RawCardEntry.t) :
  contribution net url k = Some cards → Forall well_formed cards.
Proof.
  unfold contribution.
  destruct (parseMoxfieldUrl url) as [parsed|]; [|discriminate].
  destruct (fetch_cards net parsed k) as [[[cards'|e] n'] t] eqn:Hf;
    [|discriminate].
  intros [= <-]. exact (fetch_cards_well_formed net parsed _ _ _ _ Hf).
Qed.

(** Every entry of the fetched lists was read by one of the readers. *)
Lemma fetched_entries_well_formed (vs : list Visit) :
  Forall (λ op : Merged, well_formed op.2) (entries_of (lists_of net vs)).
Proof.
  apply List.Forall_forall. intros op Hin.
  unfold entries_of, lists_of in Hin.
  apply in_flat_map in Hin as [[o cards] [Hb Hop]].
  apply list_elem_of_In, list_elem_of_omap in Hb as [v [_ Hf]].
  destruct (visit_cards net v) as [cs|] eqn:Hc; [|discriminate].
  injection Hf as <- <-.
  unfold merged_for in Hop. apply in_map_iff in Hop as [c [<- Hcin]].
  apply contribution_well_formed in Hc.
  exact (proj1 (List.Forall_forall _ _) Hc _ Hcin).
Qed.

Lemma nullish_plus (a b : Value) : nullish (plus a b) = false.
Proof.
  unfold plus, double_add.
  destruct (ToPrimitive a), (ToPrimitive b); simpl; trivial;
    repeat match goal with |- context [if ?c then _ else _] => destruct c end;
    trivial.
Qed.

Lemma falsy_or_empty (v : Value) :
  truthy_or_empty v → truthy v = false ↔ v = VStr "".
Proof.
  intros [Ht | ->]; [|now split].
  split; [congruence|]. intros ->. discriminate.
Qed.

(** X9. Every printing of the snapshot of a run that returns has a
    truthy set code and a quantity that is neither null nor undefined, and
    its set name, collector number and Scryfall id are truthy or the empty
    string.  So a printing is left unqueried by the price pass exactly
    when both its Scryfall id and its collector number are the empty
    string: the set code never decides, since a printing without one
    carries the word unknown. *)
Theorem snapshot_printings_are_well_formed (now : string) (n : nat)
    (out : Snapshot.t) (n' : nat) (t : list Event) :
  main net config env now n = (Ok out, n', t) →
  all_printings_are
    (λ p, printing_ok p
          ∧ (unpriceable p = true
             ↔ Printing.scryfallId p = VStr ""
               ∧ Printing.collectorNumber p = VStr ""))
    (Snapshot.cards out).
Proof.
  intros Hmain.
  destruct (main_returns net config env now n out n' t Hmain)
    as [om [cm [counts [n1 [t1 [t2
         [Hmerge [_ [_ [_ [_ [_ [_ [_ [Hpriced _]]]]]]]]]]]]]]].
  apply merge_lists_ok in Hmerge. subst cm.
  assert (all_printings_are printing_ok (Snapshot.cards out)) as Hok.
  { apply (priced_printings_are printing_ok _ _) with (2 := Hpriced).
    - intros price p Hp. now destruct price.
    - apply merge_all_are; [|constructor].
      eapply List.Forall_impl; [|apply fetched_entries_well_formed].
      intros op Hop. cbn beta in Hop.
      destruct Hop as [Hset [Hqty [_ [Hname [Hcn Hid]]]]].
      split; [now repeat split|].
      intros p [Hs [Hq [Hn [Hc Hi]]]]. repeat split; trivial.
      apply nullish_plus. }
  unfold all_printings_are in *.
  eapply List.Forall_impl; [|exact Hok]. intros c Hc.
  eapply List.Forall_impl; [|exact Hc]. intros o Ho.
  eapply List.Forall_impl; [|exact Ho]. intros p Hp.
  split; [exact Hp|]. destruct Hp as [Hs [_ [_ [Hc' Hi]]]].
  unfold unpriceable, skipped. rewrite Hs. simpl.
  rewrite andb_true_iff, !negb_true_iff.
  now rewrite (falsy_or_empty _ Hi), (falsy_or_empty _ Hc').
Qed.

(** ** The summary line *)

Lemma mapAccumM_counted {A} (f : Counts → A → M (Counts * A))
    (pre post : A → Prop) (cnt : A → nat) :
  (∀ counts a n, pre a →
     ∃ total a' n' t,
       f counts a n = (Ok ((fst counts + cnt a', total)%nat, a'), n', t)
       ∧ post a') →
  ∀ l counts n, Forall pre l →
    ∃ total l' n' t,
      mapAccumM f counts l n
      = (Ok ((fst counts + sum_list (map cnt l'), total)%nat, l'), n', t)
      ∧ Forall post l'.
Proof.
  intros Hf. induction l as [|a l IH]; intros counts n Hpre.
  - exists (snd counts), [], n, []. simpl. unfold ret.
    split; [|constructor]. rewrite Nat.add_0_r. now destruct counts.
  - apply Forall_cons in Hpre as [Ha Hl].
    destruct (Hf counts a n Ha) as [total [a' [n1 [t1 [E1 Hpost]]]]].
    destruct (IH ((fst counts + cnt a')%nat, total) n1 Hl)
      as [total' [l' [n2 [t2 [E2 Hposts]]]]].
    exists total', (a' :: l'), n2, (t1 ++ t2). simpl. unfold bind.
    rewrite E1, E2. unfold ret. split; [|now constructor].
    simpl. rewrite app_nil_r. now rewrite <- Nat.add_assoc.
Qed.

Lemma priced_app (l1 l2 : list Printing.t) :
  priced (l1 ++ l2) = (priced l1 + priced l2)%nat.
Proof. unfold priced. now rewrite List.filter_app, length_app. Qed.

Lemma priced_concat {A} (g : A → list Printing.t) (l : list A) :
  sum_list (map (λ a, priced (g a)) l) = priced (concat (map g l)).
Proof.
  induction l as [|a l IH]; simpl; trivial. now rewrite priced_app, IH.
Qed.

Lemma price_printing_counted (cardName : string) (counts : Counts)
    (p : Printing.t) (n : nat) :
  Printing.price p = Printing.null →
  ∃ total p' n' t,
    price_printing net cardName counts p n
    = (Ok ((fst counts + priced [p'], total)%nat, p'), n', t)
    ∧ price_ok p'.
Proof.
  intros Hnull. rewrite price_printing_unfold.
  destruct (HttpProps.fetchPrice_price net (Printing.scryfallId p)
              (Printing.set p) (Printing.collectorNumber p) cardName n)
    as [price [n' [t [-> Hprice]]]].
  exists (S (snd counts)), (set_price price p), n', t.
  unfold priced, has_price, price_ok.
  destruct price; simpl; rewrite ?Hnull; simpl; split; trivial;
    destruct Hprice as [Hp|Hp]; try discriminate; exact Hp.
Qed.

Lemma price_owner_counted (cardName : string) (counts : Counts)
    (o : string * list Printing.t) (n : nat) :
  Forall (λ p, Printing.price p = Printing.null) o.2 →
  ∃ total o' n' t,
    price_owner net cardName counts o n
    = (Ok ((fst counts + priced o'.2, total)%nat, o'), n', t)
    ∧ Forall price_ok o'.2.
Proof.
  intros Hnull.
  destruct (mapAccumM_counted (price_printing net cardName)
              (λ p, Printing.price p = Printing.null) price_ok
              (λ p, priced [p])
              (λ counts p n, price_printing_counted cardName counts p n)
              o.2 counts n Hnull)
    as [total [ps' [n' [t [E Hok]]]]].
  exists total, (o.1, ps'), n', t. unfold price_owner, bind. rewrite E.
  unfold ret. cbn [fst snd]. split; [|exact Hok].
  rewrite (priced_concat (λ p, [p])), concat_singletons, app_nil_r.
  reflexivity.
Qed.

Lemma price_card_counted (counts : Counts) (c : string * CardAggregate.t)
    (n : nat) :
  Forall (λ o : string * list Printing.t,
            Forall (λ p, Printing.price p = Printing.null) o.2)
    (CardAggregate.owners c.2) →
  ∃ total c' n' t,
    price_card net counts c n
    = (Ok ((fst counts + priced (concat (map snd (CardAggregate.owners c'.2))),
            total)%nat, c'), n', t)
    ∧ Forall (λ o : string * list Printing.t, Forall price_ok o.2)
        (CardAggregate.owners c'.2).
Proof.
  intros Hnull.
  destruct (mapAccumM_counted (price_owner net (CardAggregate.name c.2))
              (λ o, Forall (λ p, Printing.price p = Printing.null) o.2)
              (λ o, Forall price_ok o.2) (λ o, priced o.2)
              (λ counts o n,
                 price_owner_counted (CardAggregate.name c.2) counts o n)
              (CardAggregate.owners c.2) counts n Hnull)
    as [total [os' [n' [t [E Hok]]]]].
  exists total,
    (c.1, {| CardAggregate.name := CardAggregate.name c.2;
             CardAggregate.owners := os' |}), n', t.
  unfold price_card, bind. rewrite E. unfold ret. cbn [fst snd].
  split; [|exact Hok].
  rewrite (priced_concat snd), app_nil_r. reflexivity.
Qed.

Lemma price_pass_counted (cardsMap : CardsMap) (n : nat) :
  all_printings_are (λ p, Printing.price p = Printing.null) cardsMap →
  ∃ total cardsMap' n' t,
    price_pass net cardsMap n
    = (Ok ((priced (all_printings cardsMap'), total), cardsMap'), n', t)
    ∧ all_printings_are price_ok cardsMap'.
Proof.
  intros Hnull.
  destruct (mapAccumM_counted (price_card net)
              (λ c, Forall (λ o : string * list Printing.t,
                              Forall (λ p, Printing.price p = Printing.null) o.2)
                      (CardAggregate.owners c.2))
              (λ c, Forall (λ o : string * list Printing.t,
                              Forall price_ok o.2)
                      (CardAggregate.owners c.2))
              (λ c, priced (concat (map snd (CardAggregate.owners c.2))))
              (λ counts c n, price_card_counted counts c n)
              cardsMap (0%nat, 0%nat) n Hnull)
    as [total [cm' [n' [t [E Hok]]]]].
  exists total, cm', n', t. unfold price_pass. rewrite E.
  split; [|exact Hok]. cbn [fst]. rewrite Nat.add_0_l.
  rewrite (priced_concat
             (λ c : string * CardAggregate.t,
                concat (map snd (CardAggregate.owners c.2)))).
  reflexivity.
Qed.

(** X10. A run that returns ends with the summary line, the done line
    and the written line, and their numbers are those of the snapshot: the
    summary counts the printings whose price was assigned and all the
    printings, the done line counts the cards and the owners.  Every
    assigned price was parsed from a truthy value. *)
Theorem summary_counts_assigned_prices (now : string) (n : nat)
    (out : Snapshot.t) (n' : nat) (t : list Event) :
  main net config env now n = (Ok out, n', t) →
  ∃ t0,
    let pricesFetched := priced (all_printings (Snapshot.cards out)) in
    let pricesTotal := length (all_printings (Snapshot.cards out)) in
    t = t0 ++ [Log (LogSummary pricesFetched pricesTotal
                      (summary_percent pricesFetched pricesTotal));
               Log (LogDone (length (Snapshot.cards out))
                      (length (Snapshot.owners out)));
               Log LogWritten]
    ∧ all_printings_are price_ok (Snapshot.cards out).
Proof.
  intros Hmain.
  destruct (main_returns net config env now n out n' t Hmain)
    as [om [cm [counts [n1 [t1 [t2
         [Hmerge [_ [Hpass [_ [Hout [-> [_ [_ [Hpriced [Htotal _]]]]]]]]]]]]]]]].
  apply merge_lists_ok in Hmerge. subst cm.
  destruct (price_pass_counted
              (merge_all (run_entries net (Config.sources config) n) []) n1)
    as [total [cm' [n2 [t2' [Hcount Hok]]]]].
  { apply merge_all_null. constructor. }
  unfold run_entries in Hcount. rewrite Hpass in Hcount.
  injection Hcount as Hc Hcm _ _. subst cm'.
  exists (t1 ++ [Log LogPricing] ++ t2). cbn zeta.
  split; [|exact Hok].
  rewrite Hout. unfold Object_values. rewrite length_fmap, <- !app_assoc.
  rewrite <- Htotal, Hc. reflexivity.
Qed.

(** ** The owner list *)

Lemma owners_ok_named (ops : list Merged) (ownersMap : OwnersMap) :
  owners_ok config env ops ownersMap →
  named ownersMap
  ∧ Forall (λ kv : string * Owner.t, proto_member kv.1 = false) ownersMap.
Proof.
  intros [Hrec [_ Hnd]]. unfold named. split.
  - apply List.Forall_forall. intros [k v] Hin.
    apply (own_get_NoDup _ _ _ Hnd) in Hin.
    now destruct (Hrec _ _ Hin) as [_ [Hname _]].
  - apply List.Forall_forall. intros [k v] Hin.
    apply (own_get_NoDup _ _ _ Hnd) in Hin.
    now destruct (Hrec _ _ Hin) as [Hp _].
Qed.

Lemma named_values (ownersMap : OwnersMap) :
  named ownersMap → map Owner.name (Object_values ownersMap) = ownersMap.*1.
Proof.
  unfold Object_values. induction 1 as [|[k v] om Hkv _ IH]; [reflexivity|].
  rewrite !fmap_cons. cbn [map fst snd]. simpl in Hkv.
  f_equal; [exact Hkv|exact IH].
Qed.

(** ** The card map *)

Lemma obj_set_nonempty {V} (k : string) (v : V) (obj : list (string * V)) :
  obj_set k v obj ≠ [].
Proof.
  intros E. pose proof (own_get_set_eq k v obj) as Hget.
  rewrite E in Hget. discriminate.
Qed.

Lemma merge_printing_nonempty (card : RawCardEntry.t) (ps : list Printing.t) :
  merge_printing card ps ≠ [].
Proof.
  rewrite merge_printing_pass_eq. destruct ps as [|p ps]; simpl;
    [discriminate|]. destruct (same_printing card p); discriminate.
Qed.

Lemma merged_cards_ok (known : string → Prop) (owner : string)
    (cardsMap : CardsMap) (card : RawCardEntry.t) :
  known owner → cards_ok known cardsMap →
  cards_ok known (merged owner cardsMap card).
Proof.
  unfold cards_ok, merged. intros Hk [Hnd Hall].
  split; [now apply NoDup_obj_set|].
  apply Forall_obj_set; [exact Hall|]. cbn [fst snd CardAggregate.name
                                            CardAggregate.owners].
  set (key := toLowerCase (RawCardEntry.name card)).
  set (entry := match own_get key cardsMap with
                | Some e => e
                | None => {| CardAggregate.name := RawCardEntry.name card;
                             CardAggregate.owners := [] |}
                end).
  assert (key = toLowerCase (CardAggregate.name entry)
          ∧ NoDup (CardAggregate.owners entry).*1
          ∧ Forall (λ o : string * list Printing.t, known o.1 ∧ o.2 ≠ [])
              (CardAggregate.owners entry)) as [Hkey [Hnd' Hown]].
  { subst entry. destruct (own_get key cardsMap) as [e|] eqn:Hget.
    - apply own_get_In in Hget.
      destruct (proj1 (List.Forall_forall _ _) Hall _ Hget)
        as [H1 [_ [H3 H4]]]. now split.
    - split; [reflexivity|]. split; constructor. }
  split; [exact Hkey|]. split; [apply obj_set_nonempty|].
  split; [now apply NoDup_obj_set|].
  apply Forall_obj_set; [exact Hown|]. split; [exact Hk|].
  apply merge_printing_nonempty.
Qed.

Lemma merge_all_cards_ok (known : string → Prop) (ops : list Merged)
    (cardsMap : CardsMap) :
  Forall (λ op : Merged, known op.1) ops → cards_ok known cardsMap →
  cards_ok known (merge_all ops cardsMap).
Proof.
  unfold merge_all. intros Hops. revert cardsMap.
  induction Hops as [|[o c] ops Hk _ IH]; intros cm Hok; simpl; trivial.
  now apply IH, merged_cards_ok.
Qed.

Lemma keys_related {V} (R : string * V → string * V → Prop)
    (l l' : list (string * V)) :
  (∀ a b, R a b → a.1 = b.1) → Forall2 R l l' → l'.*1 = l.*1.
Proof.
  intros HR. induction 1 as [|a b l l' Hab _ IH]; [reflexivity|].
  rewrite !fmap_cons, IH. f_equal. symmetry. now apply HR.
Qed.

Lemma priced_cards_ok (known : string → Prop) (cardsMap cardsMap' : CardsMap) :
  Forall2 card_priced_from cardsMap cardsMap' →
  cards_ok known cardsMap → cards_ok known cardsMap'.
Proof.
  intros Hp [Hnd Hall]. split.
  - rewrite (keys_related card_priced_from cardsMap cardsMap'); trivial.
    now intros a b [E _].
  - clear Hnd. induction Hp as [|c c' cm cm' [Hk [Hname Ho]] _ IH];
      [constructor|].
    apply Forall_cons in Hall as [[H1 [H2 [H3 H4]]] Hall].
    constructor; [|now apply IH]. clear IH Hall.
    split; [congruence|]. split.
    { intros E. rewrite E in Ho. inversion Ho. congruence. }
    split.
    { rewrite (keys_related owner_priced_from _ _ ltac:(now intros a b [E _])
                 Ho). exact H3. }
    clear H2 H3. induction Ho as [|o o' os os' [Hko Hps] _ IH];
      [constructor|].
    apply Forall_cons in H4 as [[Hkn Hne] H4].
    constructor; [|now apply IH]. split; [congruence|].
    intros E. rewrite E in Hps. inversion Hps. congruence.
Qed.

Lemma merge_lists_returns_clean
    (fetched : list (string * list RawCardEntry.t)) (cardsMap : CardsMap) :
  merge_lists fetched [] = Ok cardsMap →
  forallb clean (entries_of fetched) = true.
Proof.
  rewrite merge_lists_outcome by constructor.
  now destruct (forallb clean (entries_of fetched)).
Qed.

(** X12. In the snapshot of a run that returns, every card is filed under
    the lower-cased form of its display name, and no key occurs twice.
    Every card lists at least one owner and none twice; each of them is an
    owner of the snapshot's owner list and holds at least one printing. *)
Theorem cards_are_filed_by_lowercase_name (now : string) (n : nat)
    (out : Snapshot.t) (n' : nat) (t : list Event) :
  main net config env now n = (Ok out, n', t) →
  cards_ok (λ o, In o (map Owner.name (Snapshot.owners out)))
    (Snapshot.cards out).
Proof.
  intros Hmain.
  destruct (main_returns net config env now n out n' t Hmain)
    as [om [cm [counts [n1 [t1 [t2
         [Hmerge [_ [_ [_ [Hout [_ [Hok [_ [Hpriced _]]]]]]]]]]]]]]].
  pose proof (merge_lists_returns_clean _ _ Hmerge) as Hclean.
  apply merge_lists_ok in Hmerge. subst cm.
  rewrite Hout, named_values by (eapply owners_ok_named; exact Hok).
  apply (priced_cards_ok _ _ _ Hpriced).
  apply merge_all_cards_ok; [|split; constructor].
  apply List.Forall_forall. intros op Hop.
  destruct Hok as [_ [Hreg _]].
  pose proof (proj1 (forallb_forall _ _) Hclean op Hop) as Hc.
  unfold clean in Hc. apply andb_true_iff in Hc as [_ Hp].
  apply negb_true_iff in Hp.
  destruct (Hreg op Hop Hp) as [rec Hget].
  apply own_get_In in Hget. apply (in_map fst) in Hget. exact Hget.
Qed.

End Facts.

(** X9, X10 and X12 on the run of the specification's scenario. *)
Lemma snapshot_printings_are_well_formed_witness :
  let net :=
    Demo.site
      [("https://moxfield-proxy.faguaz.workers.dev/?url="
        +:+ "https%3A%2F%2Fapi2.moxfield.com%2Fv2%2Fdecks%2Fall%2FaB3_x-9",
        HttpResponse 200 (Demo.stringify Demo.deck_doc))] in
  let config :=
    {| Config.sources :=
         [{| Source.owner := "Fausto";
             Source.urls := Some ["https://www.moxfield.com/decks/aB3_x-9"];
             Source.url := None |}];
       Config.phoneSecretNames := None |} in
  ∃ out n' t,
    main (H := Demo.host_of [Demo.deck_doc]) net config ∅
      "2026-02-03T06:00:00Z" 0%nat
    = (Ok out, n', t)
    ∧ all_printings_are
        (λ p, printing_ok p
              ∧ (unpriceable p = true
                 ↔ Printing.scryfallId p = VStr ""
                   ∧ Printing.collectorNumber p = VStr ""))
        (Snapshot.cards out).
Proof.
  intros net config. eexists _, _, _. split; [vm_compute; reflexivity|].
  apply (snapshot_printings_are_well_formed
           (H := Demo.host_of [Demo.deck_doc]) net config ∅
           "2026-02-03T06:00:00Z" 0%nat _ _ _ eq_refl).
Defined.

Lemma summary_counts_assigned_prices_witness :
  let net :=
    Demo.site
      [("https://moxfield-proxy.faguaz.workers.dev/?url="
        +:+ "https%3A%2F%2Fapi2.moxfield.com%2Fv2%2Fdecks%2Fall%2FaB3_x-9",
        HttpResponse 200 (Demo.stringify Demo.deck_doc))] in
  let config :=
    {| Config.sources :=
         [{| Source.owner := "Fausto";
             Source.urls := Some ["https://www.moxfield.com/decks/aB3_x-9"];
             Source.url := None |}];
       Config.phoneSecretNames := None |} in
  ∃ out n' t,
    main (H := Demo.host_of [Demo.deck_doc]) net config ∅
      "2026-02-03T06:00:00Z" 0%nat
    = (Ok out, n', t)
    ∧ all_printings_are price_ok (Snapshot.cards out).
Proof.
  intros net config. eexists _, _, _. split; [vm_compute; reflexivity|].
  destruct (summary_counts_assigned_prices
              (H := Demo.host_of [Demo.deck_doc]) net config ∅
              "2026-02-03T06:00:00Z" 0%nat _ _ _ eq_refl) as [t0 [_ Hok]].
  exact Hok.
Defined.

Lemma cards_are_filed_by_lowercase_name_witness :
  let net :=
    Demo.site
      [("https://moxfield-proxy.faguaz.workers.dev/?url="
        +:+ "https%3A%2F%2Fapi2.moxfield.com%2Fv2%2Fdecks%2Fall%2FaB3_x-9",
        HttpResponse 200 (Demo.stringify Demo.deck_doc))] in
  let config :=
    {| Config.sources :=
         [{| Source.owner := "Fausto";
             Source.urls := Some ["https://www.moxfield.com/decks/aB3_x-9"];
             Source.url := None |}];
       Config.phoneSecretNames := None |} in
  ∃ out n' t,
    main (H := Demo.host_of [Demo.deck_doc]) net config ∅
      "2026-02-03T06:00:00Z" 0%nat
    = (Ok out, n', t)
    ∧ cards_ok (H := Demo.host_of [Demo.deck_doc])
        (λ o, In o (map Owner.name (Snapshot.owners out)))
        (Snapshot.cards out).
Proof.
  intros net config. eexists _, _, _. split; [vm_compute; reflexivity|].
  apply (cards_are_filed_by_lowercase_name
           (H := Demo.host_of [Demo.deck_doc]) net config ∅
           "2026-02-03T06:00:00Z" 0%nat _ _ _ eq_refl).
Defined.

End SnapshotProps.

(** ** The merge loop *)

Module MergeProps.
Import Script Notions Views MergeFacts MainFacts SnapshotProps.

(** ** Enumeration order *)

Lemma distinct_snoc (names : list string) (k : string) :
  distinct (names ++ [k])
  = if existsb (String.eqb k) (distinct names) then distinct names
    else distinct names ++ [k].
Proof. unfold distinct. now rewrite fold_left_app. Qed.

Lemma existsb_eqb_elem (k : string) (l : list string) :
  existsb (String.eqb k) l = bool_decide (k ∈ l).
Proof.
  induction l as [|x l IH]; cbn [existsb]; [reflexivity|].
  rewrite IH. destruct (String.eqb_spec k x) as [->|Hne]; cbn [orb].
  - symmetry. apply bool_decide_eq_true. apply list_elem_of_here.
  - apply bool_decide_ext. rewrite elem_of_cons. tauto.
Qed.

Lemma array_index_decimal (k : string) (i : Z) :
  array_index k = Some i → k = decimal i.
Proof.
  unfold array_index. destruct (NilEmpty.uint_of_string k) as [u|];
    [|discriminate].
  destruct (String.eqb_spec (decimal (Z.of_uint u)) k) as [E|_];
    [|discriminate].
  cbn [andb]. destruct (Z.of_uint u <=? 4294967294); [|discriminate].
  now intros [= <-].
Qed.

Lemma enumerates_before_index (k k' : string) (i : Z) :
  array_index k = Some i → goes_before i k' = true → enumerates_before k k'.
Proof.
  unfold goes_before, enumerates_before. intros ->.
  destruct (array_index k'); [lia|trivial].
Qed.

(** A new array index goes where the order wants it. *)
Lemma sorted_insert_index {V} (i : Z) (k : string) (v : V)
    (obj : list (string * V)) :
  array_index k = Some i → k ∉ obj.*1 →
  StronglySorted enumerates_before obj.*1 →
  StronglySorted enumerates_before (insert_index i k v obj).*1.
Proof.
  intros Hk. induction obj as [|[k' v'] obj IH]; cbn [insert_index].
  - intros _ _. repeat constructor.
  - rewrite fmap_cons. cbn [fst].
    intros [Hne Hnot]%not_elem_of_cons Hs.
    apply StronglySorted_inv in Hs as [Hs Hall].
    destruct (goes_before i k') eqn:Hgo; rewrite !fmap_cons; cbn [fst].
    + constructor; [constructor; trivial|].
      pose proof (enumerates_before_index k k' i Hk Hgo) as Hkk'.
      constructor; [exact Hkk'|].
      eapply List.Forall_impl; [|exact Hall]. intros x Hx.
      unfold enumerates_before, goes_before in *. rewrite Hk in *.
      destruct (array_index k') as [j|], (array_index x) as [j'|];
        trivial; lia.
    + constructor; [now apply IH|].
      apply Forall_forall. intros x Hx.
      rewrite insert_index_keys in Hx.
      apply elem_of_cons in Hx as [->|Hx];
        [|exact (proj1 (Forall_forall _ _) Hall _ Hx)].
      unfold enumerates_before, goes_before in *. rewrite Hk.
      destruct (array_index k') as [j|] eqn:Hj; [|discriminate].
      assert (j ≠ i) as Hji.
      { intros ->. apply array_index_decimal in Hk, Hj. congruence. }
      lia.
Qed.

(** A new key that is no array index goes last. *)
Lemma sorted_append (k : string) (keys : list string) :
  array_index k = None →
  StronglySorted enumerates_before keys →
  StronglySorted enumerates_before (keys ++ [k]).
Proof.
  intros Hk. induction 1 as [|x keys Hs IH Hall]; cbn [app].
  - repeat constructor.
  - constructor; [exact IH|]. apply Forall_app. split; [exact Hall|].
    constructor; [|constructor]. unfold enumerates_before. rewrite Hk.
    now destruct (array_index x).
Qed.

Lemma filter_insert_index {V} (i : Z) (k : string) (v : V)
    (obj : list (string * V)) :
  array_index k = Some i →
  List.filter (λ k, negb (is_index k)) (insert_index i k v obj).*1
  = List.filter (λ k, negb (is_index k)) obj.*1.
Proof.
  intros Hk.
  assert (negb (is_index k) = false) as Hno
    by (unfold is_index; now rewrite Hk).
  induction obj as [|[k' v'] obj IH]; cbn [insert_index].
  - cbn. now rewrite Hno.
  - destruct (goes_before i k'); rewrite !fmap_cons; cbn [fst List.filter].
    + now rewrite Hno.
    + now rewrite IH.
Qed.

(** Writing a key keeps the object enumerated. *)
Lemma enumerated_set {V} (names : list string) (k : string) (v : V)
    (obj : list (string * V)) :
  enumerated names obj.*1 → enumerated (names ++ [k]) (obj_set k v obj).*1.
Proof.
  intros [Hperm [Hsorted Hrest]]. unfold enumerated.
  assert (existsb (String.eqb k) (distinct names) = bool_decide (k ∈ obj.*1))
    as Hex.
  { rewrite existsb_eqb_elem. apply bool_decide_ext. now rewrite Hperm. }
  rewrite distinct_snoc, Hex.
  unfold obj_set. destruct (own_get k obj) as [v0|] eqn:Hget.
  - rewrite replace_keys.
    assert (k ∈ obj.*1) as Hin.
    { apply list_elem_of_fmap. exists (k, v0). split; [reflexivity|].
      apply list_elem_of_In. now apply own_get_In. }
    rewrite (bool_decide_eq_true_2 _ Hin). auto.
  - pose proof (proj1 (own_get_None_keys k obj) Hget) as Hnot.
    rewrite (bool_decide_eq_false_2 _ Hnot).
    destruct (array_index k) as [i|] eqn:Hk.
    + split; [|split].
      * rewrite insert_index_keys, <- Hperm. apply Permutation_cons_append.
      * now apply sorted_insert_index.
      * rewrite (filter_insert_index i k v obj Hk), List.filter_app, Hrest.
        cbn [List.filter]. unfold is_index. rewrite Hk. cbn [negb].
        now rewrite app_nil_r.
    + rewrite fmap_app. cbn [fmap list_fmap fst].
      split; [|split].
      * now rewrite Hperm.
      * now apply sorted_append.
      * rewrite !List.filter_app, Hrest. reflexivity.
Qed.

(** Reading a key that is there changes nothing. *)
Lemma enumerated_seen (names keys : list string) (k : string) :
  enumerated names keys → k ∈ keys → enumerated (names ++ [k]) keys.
Proof.
  intros [Hperm [Hsorted Hrest]] Hin. unfold enumerated.
  assert (existsb (String.eqb k) (distinct names) = true) as Hex.
  { rewrite existsb_eqb_elem. apply bool_decide_eq_true. now rewrite <- Hperm. }
  rewrite distinct_snoc, Hex. auto.
Qed.

Section Facts.
Context `{Host}.

Lemma merged_keys (names : list string) (owner : string) (cardsMap : CardsMap)
    (card : RawCardEntry.t) :
  enumerated names cardsMap.*1 →
  enumerated (names ++ [toLowerCase (RawCardEntry.name card)])
    (merged owner cardsMap card).*1.
Proof. unfold merged. apply enumerated_set. Qed.

Lemma merge_all_keys (ops : list Merged) (names : list string)
    (cardsMap : CardsMap) :
  enumerated names cardsMap.*1 →
  enumerated
    (names ++ map (λ op : Merged, toLowerCase (RawCardEntry.name op.2)) ops)
    (merge_all ops cardsMap).*1.
Proof.
  unfold merge_all. revert names cardsMap.
  induction ops as [|[o c] ops IH]; intros names cm Hcm; cbn [map fold_left].
  - now rewrite app_nil_r.
  - rewrite (app_assoc names [_] _ : names ++ _ :: _ = _).
    apply IH. now apply merged_keys.
Qed.

Lemma owners_of_merged (names : list string) (owner : string)
    (cardsMap : CardsMap) (card : RawCardEntry.t) (key : string) :
  enumerated names (owners_of cardsMap key) →
  enumerated
    (names ++ map fst (List.filter (has_key key) [(owner, card)]))
    (owners_of (merged owner cardsMap card) key).
Proof.
  unfold merged, owners_of, has_key. cbn [List.filter fst snd].
  destruct (String.eqb_spec (toLowerCase (RawCardEntry.name card)) key)
    as [<-|Hk].
  - rewrite own_get_set_eq. cbn [CardAggregate.owners map fst].
    destruct (own_get _ cardsMap) as [e|].
    + apply (enumerated_set names owner _ (CardAggregate.owners e)).
    + apply (enumerated_set names owner _ []).
  - rewrite own_get_set_ne by trivial. cbn [map]. now rewrite app_nil_r.
Qed.

Lemma owners_of_merge_all (ops : list Merged) (names : list string)
    (cardsMap : CardsMap) (key : string) :
  enumerated names (owners_of cardsMap key) →
  enumerated (names ++ map fst (List.filter (has_key key) ops))
    (owners_of (merge_all ops cardsMap) key).
Proof.
  unfold merge_all. revert names cardsMap.
  induction ops as [|[o c] ops IH]; intros names cm Hcm.
  - cbn. now rewrite app_nil_r.
  - change ((o, c) :: ops) with ([(o, c)] ++ ops).
    rewrite List.filter_app, map_app, app_assoc, fold_left_app.
    apply IH. cbn [fold_left]. now apply owners_of_merged.
Qed.

Lemma enumerated_nil : enumerated [] [].
Proof. split; [reflexivity|]. split; [constructor|reflexivity]. Qed.

(** X13. When the merge loop has merged the fetched lists, the aggregate
    lists every key once, and under each card every owner who contributed
    an entry of that card once, in the order in which an object enumerates
    them: keys (or owner names) that are array indices come first, in
    ascending numeric order, and the others follow in the order in which
    they were first merged. *)
Theorem cards_and_owners_in_enumeration_order
    (fetched : list (string * list RawCardEntry.t)) (cardsMap : CardsMap) :
  merge_lists fetched [] = Ok cardsMap →
  enumerated
    (map (λ op : Merged, toLowerCase (RawCardEntry.name op.2))
       (entries_of fetched))
    cardsMap.*1
  ∧ ∀ key,
      enumerated
        (map fst (List.filter (has_key key) (entries_of fetched)))
        (owners_of cardsMap key).
Proof.
  intros Hrun. apply merge_lists_ok in Hrun as ->. split.
  - apply (merge_all_keys (entries_of fetched) [] []), enumerated_nil.
  - intros key.
    apply (owners_of_merge_all (entries_of fetched) [] [] key), enumerated_nil.
Qed.

(** ** Details *)

Lemma details_merge_printing_hit (card : RawCardEntry.t) (s : Value)
    (f : bool) (ps : list Printing.t) :
  strict_eq (RawCardEntry.set card) s && Bool.eqb (RawCardEntry.isFoil card) f
  = true →
  map details (List.filter (is_printing s f) (merge_printing card ps))
  = match map details (List.filter (is_printing s f) ps) with
    | [] => [entry_details card]
    | d :: ds => d :: ds
    end.
Proof.
  intros Hm. rewrite merge_printing_pass_eq.
  pose proof Hm as Hm'. apply andb_true_iff in Hm' as [Hs Hf].
  apply strict_eq_eq in Hs. apply Bool.eqb_prop in Hf.
  assert (∀ p, same_printing card p = is_printing s f p) as Hsame
    by (intros p; unfold same_printing, is_printing; now rewrite Hs, Hf).
  induction ps as [|p ps IH]; simpl.
  - unfold is_printing. simpl. now rewrite Hm.
  - rewrite Hsame. destruct (is_printing s f p) eqn:Hp; simpl.
    + unfold is_printing in *. simpl. now rewrite Hp.
    + now rewrite Hp.
Qed.

Lemma details_merge_printing_miss (card : RawCardEntry.t) (s : Value)
    (f : bool) (ps : list Printing.t) :
  strict_eq (RawCardEntry.set card) s && Bool.eqb (RawCardEntry.isFoil card) f
  = false →
  map details (List.filter (is_printing s f) (merge_printing card ps))
  = map details (List.filter (is_printing s f) ps).
Proof.
  intros Hm. rewrite merge_printing_pass_eq.
  induction ps as [|p ps IH]; simpl.
  - unfold is_printing. simpl. now rewrite Hm.
  - destruct (same_printing card p) eqn:Hp; simpl.
    + unfold same_printing in Hp. apply andb_true_iff in Hp as [Hs Hf].
      apply strict_eq_eq in Hs. apply Bool.eqb_prop in Hf.
      unfold is_printing. simpl. now rewrite Hs, Hf, Hm.
    + destruct (is_printing s f p); simpl; now rewrite IH.
Qed.

Lemma details_merged (owner : string) (cardsMap : CardsMap)
    (card : RawCardEntry.t) (key' owner' : string) (s : Value) (f : bool) :
  map details
    (List.filter (is_printing s f)
       (printings_of (merged owner cardsMap card) key' owner'))
  = let old := map details
                 (List.filter (is_printing s f)
                    (printings_of cardsMap key' owner')) in
    if is_entry owner' key' s f (owner, card)
    then match old with [] => [entry_details card] | d :: ds => d :: ds end
    else old.
Proof.
  rewrite printings_of_merged. unfold is_entry. simpl.
  rewrite (andb_comm (String.eqb owner owner')), <- !andb_assoc.
  destruct (String.eqb _ key'); simpl; trivial.
  destruct (String.eqb owner owner'); simpl; trivial.
  destruct (strict_eq _ s && Bool.eqb _ f) eqn:Hm.
  - now apply details_merge_printing_hit.
  - now apply details_merge_printing_miss.
Qed.

Lemma details_merge_all (ops : list Merged) (cardsMap : CardsMap)
    (key owner : string) (s : Value) (f : bool) :
  map details
    (List.filter (is_printing s f)
       (printings_of (merge_all ops cardsMap) key owner))
  = match map details
            (List.filter (is_printing s f) (printings_of cardsMap key owner)),
          List.filter (is_entry owner key s f) ops with
    | [], [] => []
    | [], op :: _ => [entry_details op.2]
    | d :: ds, _ => d :: ds
    end.
Proof.
  revert cardsMap. induction ops as [|[o card] ops IH]; intros cm.
  - simpl. now destruct (map details _).
  - unfold merge_all in *. simpl. rewrite IH, details_merged. cbn zeta.
    destruct (is_entry owner key s f (o, card)); [|reflexivity].
    destruct (map details _) as [|d ds]; simpl; reflexivity.
Qed.

(** X14. When the merge loop has merged the fetched lists, the first of
    the entries merged into one printing alone decides what the printing
    records besides its quantity: the set name, the collector number and
    the Scryfall id of later entries of the same set and foil status are
    dropped. *)
Theorem printing_details_are_first_seen
    (fetched : list (string * list RawCardEntry.t)) (cardsMap : CardsMap)
    (key owner : string) (s : Value) (f : bool) :
  merge_lists fetched [] = Ok cardsMap →
  map details
    (List.filter (is_printing s f) (printings_of cardsMap key owner))
  = match List.filter (is_entry owner key s f) (entries_of fetched) with
    | [] => []
    | op :: _ => [entry_details op.2]
    end.
Proof.
  intros Hrun. apply merge_lists_ok in Hrun as ->.
  rewrite details_merge_all.
  change (printings_of [] key owner) with (@nil Printing.t).
  cbn [List.filter map]. reflexivity.
Qed.

(** ** Quantities *)

Lemma abs_sum_nonneg (zs : list Z) :
  0 <= fold_right (λ x acc, Z.abs x + acc) 0 zs.
Proof. induction zs as [|z zs IH]; simpl; lia. Qed.

Lemma fold_plus_exact (qs : list Value) (z : Z) :
  Forall numeric qs →
  Z.abs z + fold_right (λ x acc, Z.abs x + acc) 0 (map num_of qs) <= two53 →
  fold_left plus qs (VNum z) = VNum (z + list_sum_Z (map num_of qs)).
Proof.
  intros Hqs. revert z.
  induction Hqs as [|q qs [x ->] _ IH]; intros z; cbn [map fold_right fold_left
                                                        num_of].
  - intros _. unfold list_sum_Z. cbn. now rewrite Z.add_0_r.
  - intros Hb. pose proof (abs_sum_nonneg (map num_of qs)) as Hpos.
    rewrite plus_exact by lia. rewrite IH by lia.
    unfold list_sum_Z. cbn [fold_right]. f_equal. lia.
Qed.

Lemma exact_total (es : list Merged) :
  Forall (λ op : Merged, numeric (RawCardEntry.qty op.2)) es →
  exact_sum (map (λ op : Merged, num_of (RawCardEntry.qty op.2)) es) →
  match total_qty (map (λ op : Merged, RawCardEntry.qty op.2) es) with
  | Some q => [q]
  | None => []
  end
  = match es with
    | [] => []
    | _ => [VNum (list_sum_Z
                    (map (λ op : Merged, num_of (RawCardEntry.qty op.2)) es))]
    end.
Proof.
  unfold exact_sum.
  intros Hes Hb. destruct Hes as [|e es [z Hz] Hes]; simpl; trivial.
  cbn [map fold_right] in Hb. rewrite Hz in *. cbn [num_of] in Hb.
  rewrite fold_plus_exact.
  - now rewrite map_map.
  - clear -Hes. induction Hes; simpl; constructor; trivial.
  - now rewrite map_map.
Qed.

Lemma sums_Permutation {A} (g : A → Z) (l l' : list A) :
  Permutation l l' →
  list_sum_Z (map g l) = list_sum_Z (map g l')
  ∧ fold_right (λ x acc, Z.abs x + acc) 0 (map g l)
    = fold_right (λ x acc, Z.abs x + acc) 0 (map g l').
Proof.
  unfold list_sum_Z.
  induction 1 as [|x l l' _ [IH1 IH2]|x y l|l l' l'' _ [IH1 IH2] _ [IH3 IH4]];
    simpl.
  - now split.
  - split; congruence.
  - split; lia.
  - split; congruence.
Qed.

Lemma filter_Permutation {A} (P : A → bool) (l l' : list A) :
  Permutation l l' → Permutation (List.filter P l) (List.filter P l').
Proof.
  induction 1 as [|x l l' _ IH|x y l|l l' l'' _ IH1 _ IH2]; simpl.
  - constructor.
  - destruct (P x); [now constructor|exact IH].
  - destruct (P x), (P y); try reflexivity. apply perm_swap.
  - etransitivity; eauto.
Qed.

(** X15. When the merge loop has merged the fetched lists and the
    entries merged into one printing carry integer quantities whose
    magnitudes add up to at most 2^53, the quantity of the printing is
    their arithmetic sum, whatever their number, and it does not depend on
    the order in which the entries were fetched.  (Beyond 2^53 the sums
    are rounded, and the rounded sum depends on the order.) *)
Theorem numeric_quantities_add_up
    (fetched : list (string * list RawCardEntry.t)) (cardsMap : CardsMap)
    (key owner : string) (s : Value) (f : bool) :
  let es := List.filter (is_entry owner key s f) (entries_of fetched) in
  merge_lists fetched [] = Ok cardsMap →
  Forall (λ op : Merged, numeric (RawCardEntry.qty op.2)) es →
  exact_sum (map (λ op : Merged, num_of (RawCardEntry.qty op.2)) es) →
  qtys s f (printings_of cardsMap key owner)
  = match es with
    | [] => []
    | _ => [VNum (list_sum_Z
                    (map (λ op : Merged, num_of (RawCardEntry.qty op.2)) es))]
    end
  ∧ ∀ fetched' cardsMap',
      merge_lists fetched' [] = Ok cardsMap' →
      Permutation (entries_of fetched) (entries_of fetched') →
      qtys s f (printings_of cardsMap' key owner)
      = qtys s f (printings_of cardsMap key owner).
Proof.
  intros es Hrun Hnum Hexact. apply merge_lists_ok in Hrun as ->.
  assert (qtys s f (printings_of (merge_all (entries_of fetched) []) key owner)
          = match es with
            | [] => []
            | _ => [VNum (list_sum_Z
                            (map (λ op : Merged,
                                    num_of (RawCardEntry.qty op.2)) es))]
            end) as Hsum.
  { rewrite merge_all_qtys. fold es. now apply exact_total. }
  split; [exact Hsum|]. intros fetched' cm' Hrun' Hperm.
  apply merge_lists_ok in Hrun' as ->.
  pose proof (filter_Permutation (is_entry owner key s f) _ _ Hperm) as Hes.
  fold es in Hes.
  destruct (sums_Permutation (λ op : Merged, num_of (RawCardEntry.qty op.2))
              _ _ Hes) as [Hs Ha].
  rewrite Hsum, merge_all_qtys, exact_total.
  - rewrite <- Hs. pose proof (Permutation_length Hes) as Hlen.
    destruct es, (List.filter _ (entries_of fetched')); try discriminate;
      reflexivity.
  - eapply Permutation_Forall; [exact Hes|exact Hnum].
  - unfold exact_sum in *. now rewrite <- Ha.
Qed.

End Facts.

(** X13 on a card that two owners hold, one of them named by a number. *)
Lemma cards_and_owners_in_enumeration_order_witness :
  ∃ cardsMap,
    merge_lists (H := Demo.host [])
      [("Fausto", [Demo.entry "Lightning Bolt" 2 "lea" false]);
       ("7", [Demo.entry "Lightning Bolt" 1 "lea" false])] []
    = Ok cardsMap
    ∧ enumerated ["Fausto"; "7"] (owners_of cardsMap "lightning bolt").
Proof.
  eexists. split; [reflexivity|].
  apply (proj2 (cards_and_owners_in_enumeration_order (H := Demo.host [])
                  [("Fausto", [Demo.entry "Lightning Bolt" 2 "lea" false]);
                   ("7", [Demo.entry "Lightning Bolt" 1 "lea" false])]
                  _ eq_refl) "lightning bolt").
Defined.

(** The owner named by a number is enumerated first. *)
Example owners_named_by_numbers_come_first :
  merge_lists (H := Demo.host [])
    [("Fausto", [Demo.entry "Lightning Bolt" 2 "lea" false]);
     ("7", [Demo.entry "Lightning Bolt" 1 "lea" false])] []
  = Ok [("lightning bolt",
         {| CardAggregate.name := "Lightning Bolt";
            CardAggregate.owners :=
              [("7", [new_printing (Demo.entry "Lightning Bolt" 1 "lea" false)]);
               ("Fausto",
                [new_printing (Demo.entry "Lightning Bolt" 2 "lea" false)])] |})].
Proof. vm_compute. reflexivity. Qed.

(** X14 on two entries of one printing with different collector numbers. *)
Lemma printing_details_are_first_seen_witness :
  ∃ cardsMap,
    merge_lists (H := Demo.host [])
      [("Fausto", [Demo.entry "Lightning Bolt" 2 "lea" false;
                   Demo.entry "lightning bolt" 3 "lea" false])] []
    = Ok cardsMap
    ∧ map details
        (List.filter (is_printing (VStr "lea") false)
           (printings_of cardsMap "lightning bolt" "Fausto"))
      = [entry_details (Demo.entry "Lightning Bolt" 2 "lea" false)].
Proof.
  eexists. split; [reflexivity|].
  apply (printing_details_are_first_seen (H := Demo.host [])
           [("Fausto", [Demo.entry "Lightning Bolt" 2 "lea" false;
                        Demo.entry "lightning bolt" 3 "lea" false])]
           _ "lightning bolt" "Fausto" (VStr "lea") false eq_refl).
Defined.

(** X15 on two copies and three copies of one printing. *)
Lemma numeric_quantities_add_up_witness :
  ∃ cardsMap,
    merge_lists (H := Demo.host [])
      [("Fausto", [Demo.entry "Lightning Bolt" 2 "lea" false;
                   Demo.entry "lightning bolt" 3 "lea" false])] []
    = Ok cardsMap
    ∧ qtys (VStr "lea") false
        (printings_of cardsMap "lightning bolt" "Fausto")
      = [VNum 5].
Proof.
  eexists. split; [reflexivity|].
  apply (proj1 (numeric_quantities_add_up (H := Demo.host [])
                  [("Fausto", [Demo.entry "Lightning Bolt" 2 "lea" false;
                               Demo.entry "lightning bolt" 3 "lea" false])]
                  _ "lightning bolt" "Fausto" (VStr "lea") false eq_refl
                  ltac:(repeat constructor; eexists; reflexivity)
                  ltac:(unfold exact_sum, two53; simpl; lia))).
Defined.

End MergeProps.

(** ** The classifier, read backwards *)

Module ClassifierProps.
Import ClassifierFacts.

(** X16. Whatever the classifier answers can be read back from the URL.
    A deck answer carries the whole token of the leftmost [/decks/]
    segment; a collection answer means that the URL has no [/decks/]
    segment and carries the whole token of its leftmost [/collection/]
    segment; null means that it has neither.  The id is never empty and
    consists of letters, digits, underscores and hyphens only, so it can be
    spliced into the path of an API URL as it is. *)
Theorem parseMoxfieldUrl_answer_comes_from_url (url : string) :
  match parseMoxfieldUrl url with
  | Some parsed =>
      id parsed ≠ "" ∧ all_token (id parsed) = true
      ∧ match type parsed with
        | deck => first_segment "/decks/" url (id parsed)
        | collection =>
            ¬ has_segment "/decks/" url
            ∧ first_segment "/collection/" url (id parsed)
        end
  | None => ¬ has_segment "/decks/" url ∧ ¬ has_segment "/collection/" url
  end.
Proof.
  unfold parseMoxfieldUrl.
  destruct (regex_match "/decks/" url) as [m|] eqn:Hd.
  - apply regex_match_Some in Hd. cbn [id type].
    pose proof Hd as [pre [post [_ [Hne [Htok _]]]]]. now split.
  - apply regex_match_None in Hd.
    destruct (regex_match "/collection/" url) as [m|] eqn:Hc.
    + apply regex_match_Some in Hc. cbn [id type].
      pose proof Hc as [pre [post [_ [Hne [Htok _]]]]]. now split.
    + apply regex_match_None in Hc. now split.
Qed.

End ClassifierProps.

(** ** The collection reader, page by page *)

Module PagingProps.
Import Script Notions Views FetchFacts ReaderFacts.

Section Facts.
Context `{Host}.
Variable net : nat → string → Response.

Lemma sleeps_of_app (ms : Z) (t1 t2 : list Event) :
  sleeps_of ms (t1 ++ t2) = (sleeps_of ms t1 + sleeps_of ms t2)%nat.
Proof. unfold sleeps_of. now rewrite List.filter_app, length_app. Qed.

Lemma collection_page_trace (id : string) (page : Z) (totalPages : Value)
    (allCards : list RawCardEntry.t) (n : nat) :
  ∃ r statuses,
    collection_page net id page totalPages allCards n
    = (r, S (n + length statuses),
       page_block id page totalPages statuses
         match r with
         | Ok res => le_value (page + 1) res.1
         | Throw _ => false
         end)
    ∧ (length statuses ≤ 2)%nat
    ∧ ∀ res,
        r = Ok res →
        res.1 = if page =? 1
                then match (fetchViaCF net (collection_url id page) n).1.1 with
                     | Ok data => or (get_opt data "totalPages") (VNum 1)
                     | Throw _ => VNum 1
                     end
                else totalPages.
Proof.
  unfold collection_page, page_block, fetchViaCF.
  fold (collection_url id page). fold (worker_url (collection_url id page)).
  set (url := worker_url (collection_url id page)).
  destruct (HttpProps.httpGet_run net url default_retries n)
    as [statuses [Hlen [E _]]].
  unfold default_retries in Hlen.
  unfold bind, log, emit, lift, ret, get, sleep. rewrite E. cbn [fst snd].
  destruct (final_outcome url _) as [data|e].
  2:{ exists (Throw e), statuses. rewrite !app_nil_r.
      split; [reflexivity|]. split; [exact Hlen|]. discriminate. }
  destruct (nullish data) eqn:Hnull.
  { destruct (page =? 1); cbn; rewrite ?app_nil_r;
      eexists (Throw _), statuses; rewrite ?app_nil_r;
      (split; [reflexivity|]); (split; [exact Hlen|]); discriminate. }
  set (tp := if page =? 1 then or (get_opt data "totalPages") (VNum 1)
             else totalPages).
  destruct (match get_opt data "data" with
            | VArr l => collection_items l allCards
            | _ => Ok allCards
            end) as [cards|e] eqn:Hitems.
  - exists (Ok (tp, cards)), statuses. cbn [fst]. split.
    + subst tp. destruct (page =? 1); cbn -[get_opt le_value];
        destruct (le_value _ _); rewrite ?app_nil_r; reflexivity.
    + split; [exact Hlen|]. now intros res [= <-].
  - exists (Throw e), statuses. split.
    + destruct (page =? 1); cbn -[get_opt le_value]; now rewrite !app_nil_r.
    + split; [exact Hlen|]. discriminate.
Qed.

Lemma collection_rest_trace (totalPages : Value) (remaining j : nat)
    (id : string) (allCards : list RawCardEntry.t) (n : nat) :
  (j + remaining = pages_after_first totalPages)%nat →
  ∃ r attempts,
    collection_rest net remaining id (2 + Z.of_nat j) totalPages allCards n
    = (r, (n + requests_of attempts)%nat,
       pages_trace id (2 + Z.of_nat j) totalPages attempts)
    ∧ (length attempts ≤ remaining)%nat
    ∧ (remaining ≠ 0%nat → follows attempts = true)
    ∧ Forall (λ statuses : list Z, (length statuses ≤ 2)%nat) attempts
    ∧ (∀ cards, r = Ok cards → length attempts = remaining).
Proof.
  revert j allCards n.
  induction remaining as [|remaining IH]; intros j allCards n Hj.
  - exists (Ok allCards), []. cbn. unfold ret, requests_of. cbn.
    rewrite Nat.add_0_r. repeat split; trivial. congruence.
  - cbn [collection_rest]. unfold bind.
    destruct (collection_page_trace id (2 + Z.of_nat j) totalPages allCards n)
      as [r [statuses [-> [Hlen Htp]]]].
    destruct r as [res|e].
    + pose proof (Htp res eq_refl) as Hres.
      replace (2 + Z.of_nat j =? 1) with false in Hres by lia.
      rewrite Hres. clear Htp.
      replace (2 + Z.of_nat j + 1) with (2 + Z.of_nat (S j)) by lia.
      destruct (IH (S j) res.2 (S (n + length statuses)) ltac:(lia))
        as [r' [attempts [-> [Hk [Hmore [Hc Hok]]]]]].
      exists r', (statuses :: attempts).
      assert (le_value (2 + Z.of_nat (S j)) totalPages = follows attempts)
        as ->.
      { destruct (pages_after_first_loop_test totalPages) as [Hlt Hend].
        destruct remaining as [|remaining].
        - replace (S j) with (pages_after_first totalPages) by lia.
          rewrite Hend. now destruct attempts; [|simpl in Hk; lia].
        - rewrite Hlt by lia. symmetry. now apply Hmore. }
      split.
      * cbn [pages_trace]. unfold requests_of. cbn [map sum_list_with].
        replace (2 + Z.of_nat j + 1) with (2 + Z.of_nat (S j)) by lia.
        f_equal. f_equal. unfold Datatypes.id. lia.
      * cbn [length]. split; [lia|]. split; [reflexivity|].
        split; [now constructor|]. intros cards Hr.
        now rewrite (Hok cards Hr).
    + exists (Throw e), [statuses]. split.
      * cbn [pages_trace follows]. unfold requests_of, page_block.
        cbn [map sum_list_with]. rewrite !app_nil_r.
        f_equal. f_equal. unfold Datatypes.id. lia.
      * cbn [length]. split; [lia|]. split; [reflexivity|].
        split; [constructor; [exact Hlen|constructor]|]. discriminate.
Qed.

(** X17. The collection reader asks for page 1, then for pages 2, 3, ...
    in order, without a gap or a repeat, up to the number of pages that
    page 1 announced in its [totalPages] (1 when it announced none); it
    stops at the first page that fails.  The whole trace of the reader is
    made of one block per page: the line that announces the page, showing
    1 on the first page and the announced number afterwards, then between
    one and three requests for the worker URL of that page of the
    collection with their retry waits, then a pause of 300 ms exactly when
    another page follows.  A run that returns has read every announced
    page and ends with the line that counts the cards. *)
Theorem fetchCollection_walks_pages_in_order (id : string) (n : nat) :
  let '(r, n', t) := fetchCollection net id n in
  let totalPages := announced_pages net id n in
  ∃ first rest,
    t = page_block id 1 (VNum 1) first (follows rest)
        ++ pages_trace id 2 totalPages rest
        ++ match r with
           | Ok cards => [Log (LogCollectionDone (length cards))]
           | Throw _ => []
           end
    ∧ Forall (λ statuses : list Z, (length statuses ≤ 2)%nat) (first :: rest)
    ∧ n' = (n + requests_of (first :: rest))%nat
    ∧ (length rest ≤ pages_after_first totalPages)%nat
    ∧ ∀ cards, r = Ok cards → length rest = pages_after_first totalPages.
Proof.
  unfold fetchCollection, announced_pages, bind at 1.
  destruct (collection_page_trace id 1 (VNum 1) [] n)
    as [r [first [-> [Hlen Htp]]]].
  destruct r as [res|e].
  - pose proof (Htp res eq_refl) as Hres. change (1 =? 1) with true in Hres.
    rewrite <- Hres. clear Htp Hres. unfold bind at 1.
    destruct (collection_rest_trace res.1 (pages_after_first res.1) 0 id
                res.2 (S (n + length first)) eq_refl)
      as [r' [rest [Hrest [Hk [Hmore [Hc Hok]]]]]].
    change (2 + Z.of_nat 0) with 2 in Hrest. rewrite Hrest.
    assert (le_value (1 + 1) res.1 = follows rest) as ->.
    { destruct (pages_after_first_loop_test res.1) as [Hlt Hend].
      change (1 + 1) with (2 + Z.of_nat 0).
      destruct (pages_after_first res.1) as [|m] eqn:Hm.
      - rewrite Hend. now destruct rest; [|simpl in Hk; lia].
      - rewrite Hlt by lia. symmetry. now apply Hmore. }
    assert ((n + requests_of (first :: rest))%nat
            = (S (n + length first) + requests_of rest)%nat) as Hcost.
    { unfold requests_of. cbn [map sum_list_with]. unfold Datatypes.id. lia. }
    destruct r' as [cards|e]; unfold log, emit, ret, bind; cbn [fst snd];
      exists first, rest; rewrite ?app_nil_r;
      (split; [reflexivity|]); (split; [now constructor|]);
      (split; [now rewrite Hcost|]); (split; [exact Hk|]).
    + intros cards' _. exact (Hok cards eq_refl).
    + discriminate.
  - exists first, []. cbn [pages_trace follows]. rewrite !app_nil_r.
    split; [reflexivity|]. split; [constructor; [exact Hlen|constructor]|].
    split; [unfold requests_of; cbn; unfold Datatypes.id; lia|].
    split; [simpl; lia|].
    discriminate.
Qed.

End Facts.

End PagingProps.

(** ** One source URL and one owner record *)

Module SourceProps.
Import Script Notions Views MergeFacts FetchFacts MainFacts SnapshotProps
  ReaderProps MergeProps.

Section Facts.
Context `{Host}.
Variable net : nat → string → Response.

Lemma no_such_pause (allowed : list Z) (ms : Z) (t : list Event) :
  Forall (pauses_only allowed) t → ¬ In ms allowed → sleeps_of ms t = 0%nat.
Proof.
  intros Ht Hms. unfold sleeps_of.
  induction Ht as [|e t He _ IH]; simpl; trivial.
  destruct e as [url|m|line]; trivial. simpl in He.
  destruct (Z.eqb_spec m ms) as [->|_]; [contradiction|exact IH].
Qed.

(** X18. A source URL that does not classify, or whose fetch fails,
    changes neither the owners nor the cards, and the script does not
    pause after it; a URL that does not classify costs no request at all.
    The cards of a URL that was fetched go through the counting step and
    then through the merge loop: when both return, the URL yields their
    results and the one-second pause is the last thing that happens for
    it; when one of them raises, the URL raises the same and there is no
    pause. *)
Theorem failed_url_changes_nothing (owner : string)
    (acc : OwnersMap * CardsMap) (url : string) (n : nat) :
  let '(r, n', t) := process_url net owner acc url n in
  n' = after_url net url n
  ∧ match contribution net url n with
    | None =>
        r = Ok acc ∧ sleeps_of 1000 t = 0%nat
        ∧ match parseMoxfieldUrl url with
          | None => n' = n ∧ t = [Log (LogUnparsable url)]
          | Some _ => ∃ e, last t = Some (Log (LogFetchFailed url e))
          end
    | Some cards =>
        match add_cardCount owner (length cards) acc.1,
              merge_cards owner acc.2 cards with
        | Ok ownersMap, Ok cardsMap =>
            r = Ok (ownersMap, cardsMap)
            ∧ sleeps_of 1000 t = 1%nat ∧ last t = Some (Sleep 1000)
        | Ok _, Throw e | Throw e, _ => r = Throw e ∧ sleeps_of 1000 t = 0%nat
        end
    end.
Proof.
  unfold process_url, contribution, after_url.
  destruct (parseMoxfieldUrl url) as [parsed|]; [|now cbn].
  pose proof (HttpProps.emits_fetch_cards net parsed n) as Hemits.
  unfold bind, try_catch, lift, ret, log, sleep, emit. cbn beta.
  destruct (fetch_cards net parsed n) as [[[cards|e] n1] t1]; cbn in *.
  - assert (sleeps_of 1000 t1 = 0%nat) as Hquiet.
    { apply (no_such_pause [5000; 2000; 300]); [|simpl; lia].
      eapply List.Forall_impl; [|exact Hemits]. now intros ev [_ Hp]. }
    destruct (add_cardCount owner (length cards) acc.1); cbn;
      [|rewrite !app_nil_r; now split].
    destruct (merge_cards owner acc.2 cards); cbn;
      [|rewrite !app_nil_r; now split].
    rewrite !app_nil_r. split; [reflexivity|]. split; [reflexivity|].
    split; [|apply last_snoc].
    rewrite PagingProps.sleeps_of_app, Hquiet. reflexivity.
  - rewrite !app_nil_r. split; [reflexivity|]. split; [reflexivity|].
    split; [|exists e; apply last_snoc].
    rewrite PagingProps.sleeps_of_app.
    rewrite (no_such_pause [5000; 2000; 300] 1000 t1).
    + reflexivity.
    + eapply List.Forall_impl; [|exact Hemits]. now intros ev [_ Hp].
    + simpl. lia.
Qed.

Variable config : Config.t.
Variable env : gmap string string.

(** ** Phones *)

(** X19. In the snapshot of a run that returns, the phone of every
    record is decided by the configuration and the environment alone.  It
    is the empty string when the configuration names no variable for the
    owner or names the empty string; otherwise it is the value of the
    named variable when the environment defines it, the empty string when
    it does not, and, when the undefined variable is named like a member
    of [Object.prototype], that inherited member instead of a string. *)
Theorem phones_come_from_the_environment (now : string) (n : nat)
    (out : Snapshot.t) (n' : nat) (t : list Event) :
  main net config env now n = (Ok out, n', t) →
  ∀ rec,
    In rec (Snapshot.owners out) →
    match Config.phoneSecretNames config
          ≫= (λ names, names !! Owner.name rec) with
    | None => Owner.phone rec = Owner.text ""
    | Some secretKey =>
        (secretKey = "" → Owner.phone rec = Owner.text "")
        ∧ (secretKey ≠ "" →
           match env !! secretKey with
           | Some phone => Owner.phone rec = Owner.text phone
           | None =>
               Owner.phone rec
               = if proto_member secretKey then Owner.builtin secretKey
                 else Owner.text ""
           end)
    end.
Proof.
  intros Hmain rec Hin.
  destruct (main_returns net config env now n out n' t Hmain)
    as [om [cm [counts [n1 [t1 [t2
         [_ [_ [_ [_ [Hout [_ [[Hrec [_ Hnd]] _]]]]]]]]]]]]].
  rewrite Hout in Hin. unfold Object_values in Hin.
  apply in_map_iff in Hin as [[k v] [Hv Hin]]. cbn in Hv. subst v.
  apply (own_get_NoDup _ _ _ Hnd) in Hin.
  destruct (Hrec _ _ Hin) as [_ [Hname [Hphone _]]].
  rewrite Hphone, Hname. unfold resolve_phone.
  destruct (Config.phoneSecretNames config ≫= (λ names, names !! k))
    as [secretKey|]; [|reflexivity].
  destruct (String.eqb_spec secretKey "") as [->|Hne].
  - split; [reflexivity|]. intros Hc. now elim Hc.
  - split; [intros Hc; now elim Hne|]. intros _.
    now destruct (env !! secretKey).
Qed.

(** ** The owner list *)

Lemma obj_set_keys_own {V} (k : string) (v v0 : V) (obj : list (string * V)) :
  own_get k obj = Some v0 → (obj_set k v obj).*1 = obj.*1.
Proof. intros Hget. unfold obj_set. rewrite Hget. apply replace_keys. Qed.

Lemma process_url_keys (owner : string) (acc : OwnersMap * CardsMap)
    (url : string) :
  returns (λ acc' : OwnersMap * CardsMap, acc'.1.*1 = acc.1.*1)
    (process_url net owner acc url).
Proof.
  unfold process_url. destruct (parseMoxfieldUrl url) as [parsed|].
  - eapply returns_bind; [apply returns_any|]. intros [cards|] _.
    + eapply (returns_bind (λ om : OwnersMap, om.*1 = acc.1.*1)).
      * apply returns_lift. intros om. unfold add_cardCount, obj_get.
        destruct (own_get owner acc.1) as [o|] eqn:Hget.
        -- intros [= <-]. eapply obj_set_keys_own, Hget.
        -- destruct (proto_member owner); [now intros [= <-]|discriminate].
      * intros om Hom. eapply returns_bind; [apply returns_any|].
        intros cm _. eapply returns_bind; [apply returns_any|].
        intros _ _. now apply returns_ret.
    + now apply returns_ret.
  - eapply returns_bind; [apply returns_any|]. intros _ _.
    now apply returns_ret.
Qed.

Lemma urls_loop_keys (owner : string) (urls : list string)
    (acc : OwnersMap * CardsMap) :
  returns (λ acc' : OwnersMap * CardsMap, acc'.1.*1 = acc.1.*1)
    (foldM (process_url net owner) acc urls).
Proof.
  revert acc. induction urls as [|url urls IH]; intros acc; simpl.
  - now apply returns_ret.
  - eapply returns_bind; [apply process_url_keys|]. intros a Hk.
    intros m a' n' t Hrun. rewrite <- Hk. exact (IH a m a' n' t Hrun).
Qed.

Lemma ensure_owner_keys (names : list string) (owner : string)
    (ownersMap : OwnersMap) :
  enumerated names ownersMap.*1 →
  enumerated (names ++ List.filter (λ o, negb (proto_member o)) [owner])
    (ensure_owner config env owner ownersMap).*1.
Proof.
  intros Hen. unfold ensure_owner, obj_get. cbn [List.filter].
  destruct (own_get owner ownersMap) as [rec|] eqn:Hget.
  - destruct (proto_member owner); cbn [negb]; [now rewrite app_nil_r|].
    apply enumerated_seen; [exact Hen|].
    apply list_elem_of_fmap. exists (owner, rec). split; [reflexivity|].
    apply list_elem_of_In. now apply own_get_In.
  - destruct (proto_member owner); cbn [negb]; [now rewrite app_nil_r|].
    now apply enumerated_set.
Qed.

Lemma sources_loop_keys (sources : list Source.t) (names : list string)
    (acc : OwnersMap * CardsMap) :
  enumerated names acc.1.*1 →
  returns (λ acc' : OwnersMap * CardsMap,
             enumerated
               (names ++ List.filter (λ o, negb (proto_member o))
                           (map Source.owner sources))
               acc'.1.*1)
    (foldM (process_source net config env) acc sources).
Proof.
  revert names acc.
  induction sources as [|src sources IH]; intros names acc Hen; simpl.
  - apply returns_ret. now rewrite app_nil_r.
  - eapply (returns_bind
              (λ a : OwnersMap * CardsMap,
                 enumerated
                   (names ++ List.filter (λ o, negb (proto_member o))
                               [Source.owner src]) a.1.*1)).
    + unfold process_source. eapply returns_bind; [apply returns_any|].
      intros _ _ m a' n' t Hrun.
      rewrite (urls_loop_keys _ _ _ m a' n' t Hrun). cbn [fst].
      now apply ensure_owner_keys.
    + intros a Ha m a' n' t Hrun.
      pose proof (IH _ a Ha m a' n' t Hrun) as Hres.
      cbn [List.filter] in *.
      destruct (negb (proto_member (Source.owner src)));
        [now rewrite <- app_assoc in Hres|now rewrite app_nil_r in Hres].
Qed.

(** X11. In the snapshot of a run that returns, the owner list holds one
    record per configured owner that is not named like a member of
    [Object.prototype], and nobody else: an owner with several sources is
    listed once.  The records come in the order in which the owners map
    enumerates them: the owners whose names are array indices first, in
    ascending numeric order, then the others in the order in which they
    first appear in the configuration. *)
Theorem owners_listed_once_in_enumeration_order (now : string) (n : nat)
    (out : Snapshot.t) (n' : nat) (t : list Event) :
  main net config env now n = (Ok out, n', t) →
  enumerated
    (List.filter (λ o, negb (proto_member o))
       (map Source.owner (Config.sources config)))
    (map Owner.name (Snapshot.owners out)).
Proof.
  intros Hmain.
  destruct (main_returns net config env now n out n' t Hmain)
    as [om [cm [counts [n1 [t1 [t2
         [_ [Hrun [_ [_ [Hout [_ [Hok _]]]]]]]]]]]]].
  rewrite Hout, named_values by (eapply owners_ok_named; exact Hok).
  exact (sources_loop_keys (Config.sources config) [] ([], [])
           enumerated_nil _ _ _ _ Hrun).
Qed.

End Facts.

(** X19 on an owner whose variable the environment defines. *)
Lemma phones_come_from_the_environment_witness :
  let config :=
    {| Config.sources :=
         [{| Source.owner := "Fausto"; Source.urls := Some [];
             Source.url := None |}];
       Config.phoneSecretNames := Some {["Fausto" := "PHONE_FAUSTO"]} |} in
  let env : gmap string string := {["PHONE_FAUSTO" := "+54 11 5555"]} in
  ∃ out n' t,
    main (H := Demo.host []) (Demo.script []) config env
      "2026-02-03T06:00:00Z" 0%nat
    = (Ok out, n', t)
    ∧ ∀ rec, In rec (Snapshot.owners out) →
             Owner.phone rec = Owner.text "+54 11 5555".
Proof.
  intros config env. eexists _, _, _. split; [vm_compute; reflexivity|].
  intros rec Hin.
  pose proof (phones_come_from_the_environment (H := Demo.host [])
                (Demo.script []) config env "2026-02-03T06:00:00Z" 0%nat
                _ _ _ eq_refl rec Hin) as Hphone.
  destruct Hin as [<-|[]]. cbn in Hphone.
  apply (proj2 Hphone). discriminate.
Defined.

(** X11 on three owners, one named by a number and one named like a
    member of [Object.prototype]. *)
Lemma owners_listed_once_in_enumeration_order_witness :
  let source o :=
    {| Source.owner := o; Source.urls := Some []; Source.url := None |} in
  let config :=
    {| Config.sources := [source "Bob"; source "toString"; source "7";
                          source "Bob"];
       Config.phoneSecretNames := None |} in
  ∃ out n' t,
    main (H := Demo.host []) (Demo.script []) config ∅
      "2026-02-03T06:00:00Z" 0%nat
    = (Ok out, n', t)
    ∧ map Owner.name (Snapshot.owners out) = ["7"; "Bob"]
    ∧ enumerated ["Bob"; "7"; "Bob"] (map Owner.name (Snapshot.owners out)).
Proof.
  intros source config. eexists _, _, _. split; [vm_compute; reflexivity|].
  split; [reflexivity|].
  apply (owners_listed_once_in_enumeration_order (H := Demo.host [])
           (Demo.script []) config ∅ "2026-02-03T06:00:00Z" 0%nat
           _ _ _ eq_refl).
Defined.

End SourceProps.

(** ** The earlier revision *)

Module LegacyProps.
Import Script Notions Views MergeFacts ReaderProps.

Section Facts.
Context `{Host}.
Variable net : nat → string → Response.
Variable config : Legacy.Config.t.
Variable env : gmap string string.


Lemma add_cardCount_listed (P : string → Prop) (owner : string) (k : nat)
    (ownersMap ownersMap' : Legacy.OwnersMap) :
  let listed (kv : string * Owner.t) := Owner.name kv.2 = kv.1 ∧ P kv.1 in
  add_cardCount owner k ownersMap = Ok ownersMap' →
  Forall listed ownersMap → Forall listed ownersMap'.
Proof.
  intros listed. unfold add_cardCount, obj_get.
  destruct (own_get owner ownersMap) as [rec|] eqn:Hget.
  - intros [= <-] Hall. apply Forall_obj_set; [exact Hall|].
    apply own_get_In in Hget.
    exact (proj1 (List.Forall_forall _ _) Hall _ Hget).
  - destruct (proto_member owner); [now intros [= <-]|discriminate].
Qed.

(** One source: it raises when it has no URL, changes nothing when its
    URL does not classify or its fetch fails, and otherwise registers the
    owner, counts the cards and merges them. *)
Lemma legacy_process_source_run (acc : Legacy.OwnersMap * Legacy.CardsMap)
    (src : Legacy.Source.t) (n : nat) :
  ∃ n' t,
    Legacy.process_source net config env acc src n
    = (match Legacy.Source.url src with
       | None => Throw TypeError
       | Some url =>
           match parseMoxfieldUrl url with
           | None => Ok acc
           | Some parsed =>
               match Legacy.fetch_cards net parsed n with
               | (Ok cards, _, _) =>
                   match add_cardCount (Legacy.Source.owner src) (length cards)
                           (Legacy.ensure_owner config env
                              (Legacy.Source.owner src) acc.1) with
                   | Ok ownersMap =>
                       match Legacy.merge_cards (Legacy.Source.owner src)
                               acc.2 cards with
                       | Ok cardsMap => Ok (ownersMap, cardsMap)
                       | Throw e => Throw e
                       end
                   | Throw e => Throw e
                   end
               | (Throw _, _, _) => Ok acc
               end
           end
       end, n', t).
Proof.
  unfold Legacy.process_source.
  unfold bind at 1, log, emit. unfold bind at 1, lift.
  destruct (Legacy.Source.url src) as [url|]; [|eexists _, _; reflexivity].
  destruct (parseMoxfieldUrl url) as [parsed|]; [|eexists _, _; reflexivity].
  unfold bind, try_catch, lift, ret, sleep, emit. cbn beta.
  destruct (Legacy.fetch_cards net parsed n) as [[[cards|e] n1] t1]; cbn.
  - destruct (add_cardCount _ _ _); [|eexists _, _; reflexivity].
    destruct (Legacy.merge_cards _ _ _); eexists _, _; reflexivity.
  - eexists _, _; reflexivity.
Qed.

(** Every record sits under its own name, and its owner has a source
    that was fetched. *)
Lemma process_source_listed (sources : list Legacy.Source.t)
    (acc acc' : Legacy.OwnersMap * Legacy.CardsMap) (src : Legacy.Source.t)
    (n n' : nat) (t : list Event) :
  let listed (kv : string * Owner.t) :=
    Owner.name kv.2 = kv.1
    ∧ ∃ src k, In src sources ∧ Legacy.Source.owner src = kv.1
               ∧ Legacy.fetched net src k in
  In src sources →
  Legacy.process_source net config env acc src n = (Ok acc', n', t) →
  Forall listed acc.1 → Forall listed acc'.1.
Proof.
  intros listed Hsrc Hrun Hall.
  destruct (legacy_process_source_run acc src n) as [n1 [t1 E]].
  rewrite Hrun in E. injection E as E _ _.
  destruct (Legacy.Source.url src) as [url|] eqn:Hurl; [|discriminate].
  destruct (parseMoxfieldUrl url) as [parsed|] eqn:Hparse;
    [|now injection E as ->].
  destruct (Legacy.fetch_cards net parsed n) as [[[cards|e] n2] t2] eqn:Hf;
    [|now injection E as ->].
  destruct (add_cardCount (Legacy.Source.owner src) (length cards)
              (Legacy.ensure_owner config env (Legacy.Source.owner src)
                 acc.1)) as [ownersMap|e] eqn:Hadd; [|discriminate].
  destruct (Legacy.merge_cards (Legacy.Source.owner src) acc.2 cards)
    as [cardsMap|e]; [|discriminate].
  injection E as ->. cbn [fst].
  apply (add_cardCount_listed
           (λ o, ∃ src k, In src sources ∧ Legacy.Source.owner src = o
                          ∧ Legacy.fetched net src k) _ _ _ _ Hadd).
  unfold Legacy.ensure_owner.
  destruct (obj_get (Legacy.Source.owner src) acc.1); try exact Hall.
  apply Forall_obj_set; [exact Hall|]. split; [reflexivity|].
  exists src, n. split; [exact Hsrc|]. split; [reflexivity|].
  now exists url, parsed, cards, n2, t2.
Qed.

Lemma sources_loop_listed (sources l : list Legacy.Source.t)
    (acc acc' : Legacy.OwnersMap * Legacy.CardsMap) (n n' : nat)
    (t : list Event) :
  let listed (kv : string * Owner.t) :=
    Owner.name kv.2 = kv.1
    ∧ ∃ src k, In src sources ∧ Legacy.Source.owner src = kv.1
               ∧ Legacy.fetched net src k in
  (∀ src, In src l → In src sources) →
  foldM (Legacy.process_source net config env) acc l n = (Ok acc', n', t) →
  Forall listed acc.1 → Forall listed acc'.1.
Proof.
  intros listed. revert acc n n' t.
  induction l as [|src l IH]; intros acc n n' t Hsub; simpl.
  - now intros [= <- _ _].
  - unfold bind.
    destruct (Legacy.process_source net config env acc src n)
      as [[[a|e] n1] t1] eqn:Hsrc; [|discriminate].
    destruct (foldM _ a l n1) as [[r n2] t2] eqn:Hrest.
    intros [= -> _ _] Hall.
    apply (IH a n1 n2 t2); [intros s Hs; apply Hsub; now right|exact Hrest|].
    eapply (process_source_listed sources); eauto. apply Hsub. now left.
Qed.

(** X20. In the earlier revision an owner is registered after the fetch:
    every record of the snapshot's owner list belongs to an owner one of
    whose sources was fetched, so an owner whose sources all fail is
    missing from the list. *)
Theorem legacy_owner_listed_after_fetch (now : string) (n : nat)
    (out : Legacy.Snapshot.t) (n' : nat) (t : list Event) :
  Legacy.main net config env now n = (Ok out, n', t) →
  ∀ rec,
    In rec (Legacy.Snapshot.owners out) →
    ∃ src k,
      In src (Legacy.Config.sources config)
      ∧ Legacy.Source.owner src = Owner.name rec
      ∧ Legacy.fetched net src k.
Proof.
  unfold Legacy.main, bind at 1.
  destruct (foldM (Legacy.process_source net config env) ([], [])
              (Legacy.Config.sources config) n)
    as [[[acc|e] n1] t1] eqn:Hloop; [|discriminate].
  unfold bind, log, emit, ret. cbn. intros [= <- _ _] rec Hin.
  cbn [Legacy.Snapshot.owners] in Hin. unfold Object_values in Hin.
  apply in_map_iff in Hin as [[k v] [Hv Hin]]. cbn in Hv. subst v.
  pose proof (sources_loop_listed (Legacy.Config.sources config)
                (Legacy.Config.sources config) ([], []) acc n n1 t1
                (λ _ Hs, Hs) Hloop (List.Forall_nil _)) as Hall.
  destruct (proj1 (List.Forall_forall _ _) Hall _ Hin)
    as [Hname [src [m [Hsrc [Hown Hf]]]]].
  cbn [fst snd] in *. exists src, m. rewrite Hname. now split.
Qed.




(** ** Quantities *)

Lemma own_get_add_held (o owner : string) (qty : Value)
    (owners : list (string * Value)) :
  proto_member owner = false →
  own_get owner (Legacy.add_held o qty owners)
  = if String.eqb o owner
    then Some (plus (or (default VUndefined (own_get owner owners)) (VNum 0))
                 qty)
    else own_get owner owners.
Proof.
  intros Hp. unfold Legacy.add_held.
  destruct (String.eqb_spec o owner) as [->|Ho].
  - rewrite (obj_get_plain _ _ Hp).
    destruct (own_get owner owners) as [v|]; now rewrite own_get_set_eq.
  - destruct (obj_get o owners); [|destruct (String.eqb o "__proto__")|];
      trivial; now rewrite own_get_set_ne.
Qed.

Lemma held_by_merge_card (o : string) (cardsMap cardsMap' : Legacy.CardsMap)
    (card : Legacy.Card.t) (key owner : string) :
  proto_member owner = false →
  Legacy.merge_card o cardsMap card = Ok cardsMap' →
  Legacy.held_by cardsMap' key owner
  = if String.eqb (toLowerCase (Legacy.Card.name card)) key
       && String.eqb o owner
    then Some (plus (or (default VUndefined
                           (Legacy.held_by cardsMap key owner)) (VNum 0))
                 (Legacy.Card.qty card))
    else Legacy.held_by cardsMap key owner.
Proof.
  intros Hp. unfold Legacy.merge_card, Legacy.held_by, obj_get.
  destruct (String.eqb_spec (toLowerCase (Legacy.Card.name card)) key)
    as [<-|Hk]; cbn [andb].
  - destruct (own_get (toLowerCase (Legacy.Card.name card)) cardsMap)
      as [e|] eqn:Hget.
    + intros [= <-]. rewrite own_get_set_eq. cbn [Legacy.Aggregate.owners].
      now rewrite own_get_add_held.
    + destruct (proto_member (toLowerCase (Legacy.Card.name card)));
        [discriminate|].
      intros [= <-]. rewrite own_get_set_eq. cbn [Legacy.Aggregate.owners].
      rewrite own_get_add_held by exact Hp. cbn [own_get].
      now destruct (String.eqb o owner).
  - destruct (own_get (toLowerCase (Legacy.Card.name card)) cardsMap)
      as [e|];
      [|destruct (proto_member (toLowerCase (Legacy.Card.name card)));
        [discriminate|]];
      intros [= <-]; now rewrite own_get_set_ne.
Qed.

Lemma fold_sum (zs : list Z) (x : Z) :
  fold_left (λ a z, Some (default 0 a + z)) zs (Some x)
  = Some (x + list_sum_Z zs).
Proof.
  unfold list_sum_Z. revert x.
  induction zs as [|z zs IH]; intros x; simpl.
  - now rewrite Z.add_0_r.
  - rewrite IH. f_equal. lia.
Qed.

Lemma abs_sum_app (xs ys : list Z) :
  fold_right (λ z acc, Z.abs z + acc) 0 (xs ++ ys)
  = fold_right (λ z acc, Z.abs z + acc) 0 xs
    + fold_right (λ z acc, Z.abs z + acc) 0 ys.
Proof. induction xs as [|x xs IH]; simpl; lia. Qed.

Lemma cards_for_cons (key owner o : string) (cards : list Legacy.Card.t)
    (fetched : list (string * list Legacy.Card.t)) :
  Legacy.cards_for key owner ((o, cards) :: fetched)
  = (if String.eqb o owner
     then List.filter
            (λ c, String.eqb (toLowerCase (Legacy.Card.name c)) key) cards
     else [])
    ++ Legacy.cards_for key owner fetched.
Proof. reflexivity. Qed.

(** One list: the quantity held afterwards is the quantity held before
    plus the quantities of the cards that count, as long as the sums stay
    exact. *)
Lemma held_by_merge_cards (o key owner : string) (later : Z)
    (cards : list Legacy.Card.t) (cardsMap cardsMap' : Legacy.CardsMap)
    (held : option Z) :
  let counted :=
    Legacy.cards_for key owner [(o, cards)] in
  let zs := map (λ c, num_of (Legacy.Card.qty c)) counted in
  proto_member owner = false →
  Legacy.merge_cards o cardsMap cards = Ok cardsMap' →
  Forall (λ c, numeric (Legacy.Card.qty c)) counted →
  Legacy.held_by cardsMap key owner = VNum <$> held →
  0 <= later →
  Z.abs (default 0 held) + fold_right (λ z acc, Z.abs z + acc) 0 zs + later
  <= two53 →
  let held' := fold_left (λ a z, Some (default 0 a + z)) zs held in
  Legacy.held_by cardsMap' key owner = VNum <$> held'
  ∧ Z.abs (default 0 held') + later <= two53.
Proof.
  intros counted zs Hp. subst zs counted. rewrite cards_for_cons.
  cbn [Legacy.cards_for flat_map]. rewrite app_nil_r.
  revert cardsMap held.
  induction cards as [|c cards IH]; intros cm held; cbn [Legacy.merge_cards].
  - intros [= <-] _ Hheld Hl Hb. destruct (String.eqb o owner); cbn in *;
      (split; [exact Hheld|lia]).
  - destruct (Legacy.merge_card o cm c) as [cm1|e] eqn:Hc; [|discriminate].
    intros Hrun Hnum Hheld Hl Hb.
    pose proof (held_by_merge_card o cm cm1 c key owner Hp Hc) as Hstep.
    destruct (String.eqb o owner) eqn:Ho; cbn [List.filter] in *.
    + destruct (String.eqb (toLowerCase (Legacy.Card.name c)) key) eqn:Hk;
        cbn [andb map fold_left fold_right] in *.
      * apply Forall_cons in Hnum as [[z Hz] Hnum].
        rewrite Hz in *. cbn [num_of] in *.
        pose proof (MergeProps.abs_sum_nonneg
                      (map (λ c, num_of (Legacy.Card.qty c))
                         (List.filter
                            (λ c, String.eqb
                                    (toLowerCase (Legacy.Card.name c)) key)
                            cards))) as Hpos.
        apply (IH cm1 (Some (default 0 held + z)) Hrun Hnum); [|exact Hl|].
        -- rewrite Hstep, Hheld.
           destruct held as [x|];
             cbn [fmap option_fmap option_map from_option Datatypes.id]
               in *; f_equal.
           ++ replace (or (VNum x) (VNum 0)) with (VNum x)
                by (unfold or; simpl; now destruct (Z.eqb_spec x 0) as [->|_]).
              apply plus_exact. lia.
           ++ change (or VUndefined (VNum 0)) with (VNum 0).
              apply plus_exact. lia.
        -- destruct held as [x|];
             cbn [from_option Datatypes.id] in *; lia.
      * apply (IH cm1 held Hrun Hnum); [|exact Hl|exact Hb].
        now rewrite Hstep.
    + rewrite andb_false_r in Hstep.
      apply (IH cm1 held Hrun Hnum); [|exact Hl|exact Hb]. now rewrite Hstep.
Qed.

Lemma held_by_merge_lists (key owner : string)
    (fetched : list (string * list Legacy.Card.t))
    (cardsMap cardsMap' : Legacy.CardsMap) (held : option Z) :
  proto_member owner = false →
  Legacy.merge_lists fetched cardsMap = Ok cardsMap' →
  Forall (λ c, numeric (Legacy.Card.qty c))
    (Legacy.cards_for key owner fetched) →
  Legacy.held_by cardsMap key owner = VNum <$> held →
  Z.abs (default 0 held)
  + fold_right (λ z acc, Z.abs z + acc) 0
      (Legacy.quantities key owner fetched)
  <= two53 →
  Legacy.held_by cardsMap' key owner
  = VNum <$> fold_left (λ a z, Some (default 0 a + z))
               (Legacy.quantities key owner fetched) held.
Proof.
  intros Hp. revert cardsMap held.
  induction fetched as [|[o cards] fetched IH]; intros cm held;
    cbn [Legacy.merge_lists].
  - now intros [= <-] _ Hheld _.
  - destruct (Legacy.merge_cards o cm cards) as [cm1|e] eqn:Hc;
      [|discriminate].
    unfold Legacy.quantities. rewrite cards_for_cons, map_app, abs_sum_app.
    intros Hrun Hnum Hheld Hb. apply Forall_app in Hnum as [Hnum1 Hnum2].
    rewrite fold_left_app.
    assert (Legacy.cards_for key owner [(o, cards)]
            = if String.eqb o owner
              then List.filter
                     (λ c, String.eqb (toLowerCase (Legacy.Card.name c)) key)
                     cards
              else []) as Hone.
    { rewrite cards_for_cons. apply app_nil_r. }
    pose proof (MergeProps.abs_sum_nonneg
                  (map (λ c, num_of (Legacy.Card.qty c))
                     (Legacy.cards_for key owner fetched))) as Hpos.
    destruct (held_by_merge_cards o key owner _ cards cm cm1 held Hp Hc
                ltac:(rewrite Hone; exact Hnum1) Hheld Hpos
                ltac:(rewrite Hone; lia)) as [Hheld1 Hb1].
    rewrite Hone in Hheld1, Hb1.
    exact (IH cm1 _ Hrun Hnum2 Hheld1 Hb1).
Qed.

(** X22. In the earlier revision, take the lists that the merge loop
    merges without raising, and an owner that is not named like a member
    of [Object.prototype].  When the quantities of the cards fetched for
    that owner under a card's key are integers whose absolute values add
    up to at most 2^53, so that every addition is exact, the quantity the
    owner holds of the card is their sum, over all sections, pages and
    sources; an owner without such a card is not listed under the key. *)
Theorem legacy_quantities_add_up
    (fetched : list (string * list Legacy.Card.t))
    (cardsMap : Legacy.CardsMap) (key owner : string) :
  Legacy.merge_lists fetched [] = Ok cardsMap →
  proto_member owner = false →
  Forall (λ c, numeric (Legacy.Card.qty c))
    (Legacy.cards_for key owner fetched) →
  exact_sum (Legacy.quantities key owner fetched) →
  Legacy.held_by cardsMap key owner
  = match Legacy.quantities key owner fetched with
    | [] => None
    | z :: zs => Some (VNum (list_sum_Z (z :: zs)))
    end.
Proof.
  intros Hrun Hp Hnum Hb.
  rewrite (held_by_merge_lists key owner fetched [] cardsMap None Hp Hrun Hnum
             eq_refl Hb).
  destruct (Legacy.quantities key owner fetched) as [|z zs]; [reflexivity|].
  cbn [fold_left default]. rewrite fold_sum. reflexivity.
Qed.

(** ** Readers and requests *)

Lemma legacy_deck_sections_flat (data : Value) (secs : list string)
    (cards : list Legacy.Card.t) :
  nullish data = false →
  Legacy.deck_sections data secs cards
  = Ok (cards ++ map (λ kv, Legacy.deck_entry kv.1 kv.2)
                   (flat_map (section_entries data) secs)).
Proof.
  intros Hd. revert cards.
  induction secs as [|sec secs IH]; intros cards; simpl.
  - now rewrite app_nil_r.
  - unfold get. rewrite Hd. unfold section_entries.
    rewrite <- negb_andb.
    destruct (truthy (get_opt data sec) && typeof_object (get_opt data sec));
      simpl; rewrite IH; [|reflexivity].
    now rewrite map_app, app_assoc.
Qed.

(** X23. The deck reader of the earlier revision cannot fail on an
    entry: for every deck document that is not null it returns one card
    per entry of the five sections, in section order and document order,
    named by the trimmed key and with the entry's quantity, or 1 when the
    quantity is null or missing. *)
Theorem legacy_fetchDeck_reads_every_entry (data : Value) :
  Legacy.deck_sections data sections []
  = if nullish data then Throw TypeError
    else Ok (map (λ kv, {| Legacy.Card.name := trim kv.1;
                           Legacy.Card.qty :=
                             coalesce (get_opt kv.2 "quantity") (VNum 1) |})
               (deck_cards data)).
Proof.
  destruct (nullish data) eqn:Hd.
  - unfold sections. simpl. unfold get. now rewrite Hd.
  - now rewrite legacy_deck_sections_flat.
Qed.

Lemma emits_legacy_fetchViaCF (rest : string) :
  emits (λ e, asks_only Legacy.via_worker e
              ∧ pauses_only [5000; 2000; 300; 1000] e)
    (Legacy.fetchViaCF net (MOX_API +:+ rest)).
Proof.
  apply HttpProps.emits_httpGet; simpl; auto. split; [now exists rest|trivial].
Qed.

Lemma emits_legacy_collection_page (id : string) (page : Z)
    (totalPages : Value) (allCards : list Legacy.Card.t) :
  emits (λ e, asks_only Legacy.via_worker e
              ∧ pauses_only [5000; 2000; 300; 1000] e)
    (Legacy.collection_page net id page totalPages allCards).
Proof.
  unfold Legacy.collection_page.
  apply HttpProps.emits_bind; [apply HttpProps.emits_emit; simpl; auto|].
  intros _. apply HttpProps.emits_bind; [apply emits_legacy_fetchViaCF|].
  intros data. apply HttpProps.emits_bind.
  { destruct (page =? 1); [|apply HttpProps.emits_ret].
    apply HttpProps.emits_bind; [apply HttpProps.emits_lift|].
    intros total. apply HttpProps.emits_ret. }
  intros totalPages'.
  apply HttpProps.emits_bind; [apply HttpProps.emits_lift|]. intros items.
  apply HttpProps.emits_bind; [apply HttpProps.emits_lift|]. intros allCards'.
  apply HttpProps.emits_bind; [|intros _; apply HttpProps.emits_ret].
  destruct (le_value _ _);
    [apply HttpProps.emits_emit; simpl; auto 6|apply HttpProps.emits_ret].
Qed.

Lemma emits_legacy_collection_rest (remaining : nat) (id : string) (page : Z)
    (totalPages : Value) (allCards : list Legacy.Card.t) :
  emits (λ e, asks_only Legacy.via_worker e
              ∧ pauses_only [5000; 2000; 300; 1000] e)
    (Legacy.collection_rest net remaining id page totalPages allCards).
Proof.
  revert page totalPages allCards.
  induction remaining as [|remaining IH]; intros page totalPages allCards;
    simpl; [apply HttpProps.emits_ret|].
  apply HttpProps.emits_bind; [apply emits_legacy_collection_page|].
  intros r. apply IH.
Qed.

Lemma emits_legacy_fetch_cards (parsed : ParsedReference) :
  emits (λ e, asks_only Legacy.via_worker e
              ∧ pauses_only [5000; 2000; 300; 1000] e)
    (Legacy.fetch_cards net parsed).
Proof.
  unfold Legacy.fetch_cards. destruct (type parsed).
  - unfold Legacy.fetchDeck.
    apply HttpProps.emits_bind; [apply HttpProps.emits_emit; simpl; auto|].
    intros _. apply HttpProps.emits_bind; [apply emits_legacy_fetchViaCF|].
    intros data. apply HttpProps.emits_bind; [apply HttpProps.emits_lift|].
    intros cards.
    apply HttpProps.emits_bind; [apply HttpProps.emits_emit; simpl; auto|].
    intros _. apply HttpProps.emits_ret.
  - unfold Legacy.fetchCollection.
    apply HttpProps.emits_bind; [apply emits_legacy_collection_page|].
    intros r.
    apply HttpProps.emits_bind; [apply emits_legacy_collection_rest|].
    intros allCards.
    apply HttpProps.emits_bind; [apply HttpProps.emits_emit; simpl; auto|].
    intros _. apply HttpProps.emits_ret.
Qed.

(** X24. The earlier revision talks to the worker only, which it asks
    for pages of the Moxfield API: a whole run issues no other request,
    and its pauses last 5 s or 2 s (retry), 300 ms (next page) or 1 s
    (next source). *)
Theorem legacy_run_talks_to_worker_only (now : string) :
  emits (λ e, asks_only Legacy.via_worker e
              ∧ pauses_only [5000; 2000; 300; 1000] e)
    (Legacy.main net config env now).
Proof.
  unfold Legacy.main. apply HttpProps.emits_bind.
  - apply HttpProps.emits_foldM. intros acc src.
    unfold Legacy.process_source.
    apply HttpProps.emits_bind; [apply HttpProps.emits_emit; simpl; auto|].
    intros _. apply HttpProps.emits_bind; [apply HttpProps.emits_lift|].
    intros url. destruct (parseMoxfieldUrl url) as [parsed|].
    + apply HttpProps.emits_bind.
      * apply HttpProps.emits_try_catch.
        -- apply HttpProps.emits_bind; [apply emits_legacy_fetch_cards|].
           intros cards. apply HttpProps.emits_ret.
        -- intros e.
           apply HttpProps.emits_bind;
             [apply HttpProps.emits_emit; simpl; auto|].
           intros _. apply HttpProps.emits_ret.
      * intros [cards|]; [|apply HttpProps.emits_ret].
        apply HttpProps.emits_bind; [apply HttpProps.emits_lift|].
        intros ownersMap.
        apply HttpProps.emits_bind; [apply HttpProps.emits_lift|].
        intros cardsMap.
        apply HttpProps.emits_bind;
          [apply HttpProps.emits_emit; simpl; auto 6|].
        intros _. apply HttpProps.emits_ret.
    + apply HttpProps.emits_bind; [apply HttpProps.emits_emit; simpl; auto|].
      intros _. apply HttpProps.emits_ret.
  - intros acc.
    apply HttpProps.emits_bind; [apply HttpProps.emits_emit; simpl; auto|].
    intros _.
    apply HttpProps.emits_bind; [apply HttpProps.emits_emit; simpl; auto|].
    intros _. apply HttpProps.emits_ret.
Qed.

End Facts.

(** X20 on a deck that the worker serves. *)
Lemma legacy_owner_listed_after_fetch_witness :
  let src := {| Legacy.Source.owner := "Vallhay";
                Legacy.Source.type := VStr "deck";
                Legacy.Source.url :=
                  Some "https://www.moxfield.com/decks/aB3_x-9" |} in
  let net :=
    Demo.site
      [("https://moxfield-proxy.faguaz.workers.dev?url="
        +:+ "https%3A%2F%2Fapi2.moxfield.com%2Fv2%2Fdecks%2Fall%2FaB3_x-9",
        HttpResponse 200 (Demo.stringify Demo.deck_doc))] in
  ∃ src' k,
    In src' [src] ∧ Legacy.Source.owner src' = "Vallhay"
    ∧ Legacy.fetched (H := Demo.host_of [Demo.deck_doc]) net src' k.
Proof.
  intros src net.
  apply (legacy_owner_listed_after_fetch (H := Demo.host_of [Demo.deck_doc])
           net
           {| Legacy.Config.sources := [src];
              Legacy.Config.phoneSecretNames := None |}
           ∅ "2026-02-03T06:00:00Z" 0%nat
           {| Legacy.Snapshot.lastUpdated := "2026-02-03T06:00:00Z";
              Legacy.Snapshot.owners :=
                [{| Owner.name := "Vallhay"; Owner.phone := "";
                    Owner.cardCount := 1 |}];
              Legacy.Snapshot.cards :=
                [("lightning bolt",
                  {| Legacy.Aggregate.name := "Lightning Bolt";
                     Legacy.Aggregate.owners := [("Vallhay", VNum 4)] |})] |}
           1%nat
           [Log (LogProcessing "Vallhay (deck)"); Log (LogGetDeck "aB3_x-9");
            Request
              ("https://moxfield-proxy.faguaz.workers.dev?url="
               +:+ "https%3A%2F%2Fapi2.moxfield.com%2Fv2%2Fdecks%2Fall%2FaB3_x-9");
            Log (LogDeckDone 1); Sleep 1000; Log (LogDone 1 1); Log LogWritten]
           ltac:(vm_compute; reflexivity)
           {| Owner.name := "Vallhay"; Owner.phone := "";
              Owner.cardCount := 1 |}
           ltac:(now left)).
Defined.

(** X22 on four copies in a deck and two in a collection. *)
Lemma legacy_quantities_add_up_witness :
  let fetched :=
    [("Vallhay", [{| Legacy.Card.name := "Lightning Bolt";
                     Legacy.Card.qty := VNum 4 |}]);
     ("Vallhay", [{| Legacy.Card.name := "lightning bolt";
                     Legacy.Card.qty := VNum 2 |}])] in
  ∃ cardsMap,
    Legacy.merge_lists (H := Demo.host []) fetched [] = Ok cardsMap
    ∧ Legacy.held_by cardsMap "lightning bolt" "Vallhay" = Some (VNum 6).
Proof.
  intros fetched. eexists. split; [vm_compute; reflexivity|].
  apply (legacy_quantities_add_up (H := Demo.host []) fetched _
           "lightning bolt" "Vallhay" eq_refl eq_refl).
  - repeat constructor; eexists; reflexivity.
  - vm_compute. discriminate.
Defined.

End LegacyProps.
